(** * Facebook CDN URL updater: the refresh engine of [urlUpdater.js]

    A shallow embedding of the refresh engine (validity prober, source
    resolver, deferred-work queue, record updater, orchestrator and report)
    and the properties its specification states about it, followed by the
    queue status, the chat commands of [telegramBot.js] and the trigger
    endpoint of [server.js], which drive the engine.

    The engine is sequential JavaScript whose only effects are the
    module-global [stats] object, the Supabase tables and HTTP requests.
    It is embedded as state-passing functions over a [World] (statistics,
    database, log of the external requests issued so far); what the outside
    world answers is an [Env] of oracles indexed by the number of requests
    already issued, so that answers may change over time. *)

From Stdlib Require Import ZArith Ascii String List Lia Bool Arith.
From stdpp Require Import base list sorting strings pretty.

Local Open Scope string_scope.
Local Open Scope nat_scope.

(** ** JavaScript values used by the engine *)

Module Js.

(** [String.prototype.toLowerCase] on the ASCII letters; code units
    outside [A-Z] are kept. *)
Definition lower_ascii (c : ascii) : ascii :=
  let n := nat_of_ascii c in
  if (65 <=? n) && (n <=? 90) then ascii_of_nat (n + 32) else c.

Fixpoint toLowerCase (s : string) : string :=
  match s with
  | EmptyString => EmptyString
  | String c t => String (lower_ascii c) (toLowerCase t)
  end.

(** [hay.includes(needle)] *)
Fixpoint includes (hay needle : string) : bool :=
  String.prefix needle hay ||
  match hay with
  | EmptyString => false
  | String _ t => includes t needle
  end.

(** Truthiness of a nullable string: [null], [undefined] and [''] are
    falsy. *)
Definition truthy (o : option string) : bool :=
  match o with
  | Some s => negb (String.eqb s "")
  | None => false
  end.

(** [o || dflt] on a nullable string. *)
Definition or_else (o : option string) (dflt : string) : string :=
  match o with
  | Some s => if String.eqb s "" then dflt else s
  | None => dflt
  end.

End Js.

(** ** Data model *)

(** [stats.failures.*] entries: [{ id, title }]. *)
Record FailureInfo := {
  fi_id : string;
  fi_title : option string
}.

Record Failures := {
  notFound : list FailureInfo;
  permissionDenied : list FailureInfo;
  apiError : list FailureInfo
}.

(** The module-global [stats] object. Counters are JavaScript numbers that
    only ever count up from zero by one; they are natural numbers here. *)
Record Stats := {
  totalChecked : nat;
  alreadyValid : nat;
  updated : nat;
  failed : nat;
  queued : nat;
  apiCallsUsed : nat;
  startTime : option Z;
  episodesUpdated : nat;
  moviesUpdated : nat;
  failures : Failures
}.

Definition MAX_API_CALLS : nat := 190.

Definition no_failures : Failures :=
  {| notFound := []; permissionDenied := []; apiError := [] |}.

(** The object literal assigned to [stats] at module load ([startTime: null])
    and at the start of every run ([startTime: Date.now()]). *)
Definition fresh_stats (start : option Z) : Stats :=
  {| totalChecked := 0; alreadyValid := 0; updated := 0; failed := 0;
     queued := 0; apiCallsUsed := 0; startTime := start;
     episodesUpdated := 0; moviesUpdated := 0; failures := no_failures |}.

(** Status column of [url_update_queue]: ['pending'], ['completed'],
    ['failed']. *)
Module Status.
Inductive t := pending | completed | failed.

Definition eqb (a b : t) : bool :=
  match a, b with
  | pending, pending | completed, completed | failed, failed => true
  | _, _ => false
  end.

End Status.

(** A row of [url_update_queue] (the README's [CREATE TABLE]). *)
Record QueueRow := {
  q_id : Z;
  table_name : string;
  row_id : Z;
  facebook_video_id : string;
  old_url : option string;
  video_title : option string;
  status : Status.t;
  error_message : option string;
  created_at : Z;
  processed_at : option Z
}.

(** A row of [episodes] or [movies]. The two tables name their columns
    differently ([video_url]/[facebook_video_id] against
    [videoUrl]/[facebookVideoId]); the engine reads both through the
    [tables] descriptor, so one record type serves both. *)
Record VideoRow := {
  v_id : Z;
  title : option string;
  videoUrl : option string;
  facebookVideoId : option string
}.

Record Database := {
  url_update_queue : list QueueRow;
  queue_next_id : Z;            (* the BIGSERIAL sequence of the queue *)
  episodes : list VideoRow;
  movies : list VideoRow
}.

(** ** The outside world *)

(** The object [{ error: { code, message } }] of a Graph API error body, as
    the provider types it: [code] a number and [message] a string, each
    possibly absent. *)
Record FbError := {
  fb_code : option Z;
  fb_message : option string
}.

(** Outcome of one call of [axios.head], taken as a whole. The call follows
    redirects itself, up to five of them ([maxRedirects: 5]), so it may put
    several HEAD requests on the wire; what the engine gets to see is the
    status of the response the call ends with, or no response at all (no
    answer, a time-out, a sixth redirect). *)
Inductive HeadOutcome :=
| HeadStatus (status : Z)
| HeadNoResponse.

(** Outcome of [axios.get] on the Graph API: the promise resolves with
    [response.data.source] (absent when [data] or [source] is), or rejects
    with [error.response?.data?.error] and [error.message]. *)
Inductive GetOutcome :=
| GetResolved (source : option string)
| GetRejected (body : option FbError) (err_message : string).

(** Calls made to the outside, in the order made: one entry for each call
    of the HTTP client or of the database client. [EvHead url] is a call
    [axios.head(url)] with whatever redirects it follows; the requests of
    one redirect chain are not told apart. *)
Inductive Event :=
| EvHead (url : string)
| EvGraphGet (videoId : string)
| EvQueueSelect (limit : nat)
| EvQueueInsert (tableName : string) (rowId : Z) (videoId : string)
                (oldUrl title : option string)
| EvQueueUpdate (queueId : Z) (st : Status.t) (errorMsg : option string)
| EvTableSelect (tableName : string)
| EvTableUpdate (tableName : string) (rowId : Z) (newUrl : string)
| EvTelegram (text : string).

Definition is_network (e : Event) : bool :=
  match e with
  | EvHead _ | EvGraphGet _ | EvTelegram _ => true
  | _ => false
  end.

Definition is_database (e : Event) : bool := negb (is_network e).

Definition is_graph_get (e : Event) : bool :=
  match e with EvGraphGet _ => true | _ => false end.

Definition is_queue_insert (e : Event) : bool :=
  match e with EvQueueInsert _ _ _ _ _ => true | _ => false end.

(** What the outside answers. The first argument of every oracle is the
    number of calls made before this one. [http_head] is the outcome of the
    whole call, redirects followed. A database request that is not [ok]
    comes back as [{ error }] and leaves the table as it was. *)
Record Env := {
  http_head : nat -> string -> HeadOutcome;
  graph_get : nat -> string -> GetOutcome;
  clock : nat -> Z;
  queue_select_ok : nat -> bool;
  queue_insert_ok : nat -> bool;
  queue_update_ok : nat -> bool;
  table_select_ok : nat -> string -> bool;
  table_update_ok : nat -> string -> bool;
  telegram_configured : bool;
  locale_date : Z -> string
}.

Record World := {
  stats : Stats;
  db : Database;
  trace : list Event
}.

(** ** State passing *)

Definition IO (A : Type) : Type := World -> A * World.

Definition ret {A} (a : A) : IO A := fun w => (a, w).

Definition bind {A B} (m : IO A) (k : A -> IO B) : IO B :=
  fun w => let (a, w') := m w in k a w'.

Declare Scope io_scope.
Delimit Scope io_scope with io.
Notation "'let*' x ':=' m 'in' k" := (bind m (fun x => k))
  (at level 10, x name, m at level 200, k at level 200) : io_scope.
Notation "m ;;; k" := (bind m (fun _ => k))
  (at level 100, k at level 200, right associativity) : io_scope.

Definition get_stats : IO Stats := fun w => (stats w, w).

Definition modify_stats (f : Stats -> Stats) : IO unit :=
  fun w => (tt, {| stats := f (stats w); db := db w; trace := trace w |}).

Definition get_db : IO Database := fun w => (db w, w).

Definition set_db (d : Database) : IO unit :=
  fun w => (tt, {| stats := stats w; db := d; trace := trace w |}).

(** The number of requests issued so far: the index the oracles are read at. *)
Definition tick : IO nat := fun w => (length (trace w), w).

Definition emit (e : Event) : IO unit :=
  fun w => (tt, {| stats := stats w; db := db w; trace := trace w ++ [e] |}).

(** *** Field updates of [stats] *)

Definition set_totalChecked (n : nat) (s : Stats) : Stats :=
  {| totalChecked := n; alreadyValid := alreadyValid s; updated := updated s;
     failed := failed s; queued := queued s; apiCallsUsed := apiCallsUsed s;
     startTime := startTime s; episodesUpdated := episodesUpdated s;
     moviesUpdated := moviesUpdated s; failures := failures s |}.

Definition set_alreadyValid (n : nat) (s : Stats) : Stats :=
  {| totalChecked := totalChecked s; alreadyValid := n; updated := updated s;
     failed := failed s; queued := queued s; apiCallsUsed := apiCallsUsed s;
     startTime := startTime s; episodesUpdated := episodesUpdated s;
     moviesUpdated := moviesUpdated s; failures := failures s |}.

Definition set_updated (n : nat) (s : Stats) : Stats :=
  {| totalChecked := totalChecked s; alreadyValid := alreadyValid s; updated := n;
     failed := failed s; queued := queued s; apiCallsUsed := apiCallsUsed s;
     startTime := startTime s; episodesUpdated := episodesUpdated s;
     moviesUpdated := moviesUpdated s; failures := failures s |}.

Definition set_failed (n : nat) (s : Stats) : Stats :=
  {| totalChecked := totalChecked s; alreadyValid := alreadyValid s;
     updated := updated s; failed := n; queued := queued s;
     apiCallsUsed := apiCallsUsed s; startTime := startTime s;
     episodesUpdated := episodesUpdated s; moviesUpdated := moviesUpdated s;
     failures := failures s |}.

Definition set_queued (n : nat) (s : Stats) : Stats :=
  {| totalChecked := totalChecked s; alreadyValid := alreadyValid s;
     updated := updated s; failed := failed s; queued := n;
     apiCallsUsed := apiCallsUsed s; startTime := startTime s;
     episodesUpdated := episodesUpdated s; moviesUpdated := moviesUpdated s;
     failures := failures s |}.

Definition set_apiCallsUsed (n : nat) (s : Stats) : Stats :=
  {| totalChecked := totalChecked s; alreadyValid := alreadyValid s;
     updated := updated s; failed := failed s; queued := queued s;
     apiCallsUsed := n; startTime := startTime s;
     episodesUpdated := episodesUpdated s; moviesUpdated := moviesUpdated s;
     failures := failures s |}.

Definition set_episodesUpdated (n : nat) (s : Stats) : Stats :=
  {| totalChecked := totalChecked s; alreadyValid := alreadyValid s;
     updated := updated s; failed := failed s; queued := queued s;
     apiCallsUsed := apiCallsUsed s; startTime := startTime s;
     episodesUpdated := n; moviesUpdated := moviesUpdated s;
     failures := failures s |}.

Definition set_moviesUpdated (n : nat) (s : Stats) : Stats :=
  {| totalChecked := totalChecked s; alreadyValid := alreadyValid s;
     updated := updated s; failed := failed s; queued := queued s;
     apiCallsUsed := apiCallsUsed s; startTime := startTime s;
     episodesUpdated := episodesUpdated s; moviesUpdated := n;
     failures := failures s |}.

Definition set_failures (f : Failures) (s : Stats) : Stats :=
  {| totalChecked := totalChecked s; alreadyValid := alreadyValid s;
     updated := updated s; failed := failed s; queued := queued s;
     apiCallsUsed := apiCallsUsed s; startTime := startTime s;
     episodesUpdated := episodesUpdated s; moviesUpdated := moviesUpdated s;
     failures := f |}.

(** [stats.failures.<bucket>.push(info)] *)
Definition push_notFound (i : FailureInfo) (s : Stats) : Stats :=
  set_failures {| notFound := notFound (failures s) ++ [i];
                  permissionDenied := permissionDenied (failures s);
                  apiError := apiError (failures s) |} s.

Definition push_permissionDenied (i : FailureInfo) (s : Stats) : Stats :=
  set_failures {| notFound := notFound (failures s);
                  permissionDenied := permissionDenied (failures s) ++ [i];
                  apiError := apiError (failures s) |} s.

Definition push_apiError (i : FailureInfo) (s : Stats) : Stats :=
  set_failures {| notFound := notFound (failures s);
                  permissionDenied := permissionDenied (failures s);
                  apiError := apiError (failures s) ++ [i] |} s.

(** ** The engine *)

(** Result of the source resolver: [{ success: true, url }] or
    [{ success: false, error, message }]. *)
Inductive ErrorKind :=
| no_source | not_found | permission_denied | rate_limit | api_error
| network_error.

Definition error_name (k : ErrorKind) : string :=
  match k with
  | no_source => "no_source"
  | not_found => "not_found"
  | permission_denied => "permission_denied"
  | rate_limit => "rate_limit"
  | api_error => "api_error"
  | network_error => "network_error"
  end.

Inductive ResolveResult :=
| Success (url : string)
| Failure (error : ErrorKind) (message : string).

(** The projection a sweep listing selects:
    [id, title, <videoUrlColumn>, <videoIdColumn>], both columns non-null. *)
Record Video := {
  id : Z;
  video_title_of : option string;
  video_url_of : string;
  video_id_of : string
}.

(** [code === n] on a code that may be absent. *)
Definition code_is (c : option Z) (n : Z) : bool :=
  match c with
  | Some z => Z.eqb z n
  | None => false
  end.

(** The classification in the [catch] of [getFacebookVideoUrl], for a
    rejection that carries a Graph API error body. *)
Definition classify (e : FbError) : ResolveResult :=
  let code := fb_code e in
  let message := Js.or_else (fb_message e) "" in
  if code_is code 100 || Js.includes (Js.toLowerCase message) "does not exist"
  then Failure not_found "Video not found"
  else if code_is code 200 || code_is code 10
          || Js.includes (Js.toLowerCase message) "permission"
  then Failure permission_denied "No permission"
  else if code_is code 4 || code_is code 17
          || Js.includes (Js.toLowerCase message) "rate limit"
  then Failure rate_limit "Rate limit reached"
  else Failure api_error ("API error: " ++ message).

Definition incr_apiCallsUsed (s : Stats) : Stats :=
  set_apiCallsUsed (S (apiCallsUsed s)) s.

(** Rows of [url_update_queue] touched by
    [.update({ status, processed_at, error_message }).eq('id', queueId)]. *)
Definition mark_row (queueId : Z) (st : Status.t) (now : Z)
    (errorMsg : option string) (r : QueueRow) : QueueRow :=
  if Z.eqb (q_id r) queueId then
    {| q_id := q_id r; table_name := table_name r; row_id := row_id r;
       facebook_video_id := facebook_video_id r; old_url := old_url r;
       video_title := video_title r; status := st;
       error_message := errorMsg; created_at := created_at r;
       processed_at := Some now |}
  else r.

Definition with_queue (q : list QueueRow) (next : Z) (d : Database) : Database :=
  {| url_update_queue := q; queue_next_id := next;
     episodes := episodes d; movies := movies d |}.

(** [.update({ <urlColumn>: newUrl }).eq('id', rowId)] on a video table. *)
Definition set_url (rowId : Z) (newUrl : string) (r : VideoRow) : VideoRow :=
  if Z.eqb (v_id r) rowId then
    {| v_id := v_id r; title := title r; videoUrl := Some newUrl;
       facebookVideoId := facebookVideoId r |}
  else r.

(** [.not(urlColumn, 'is', null).not(idColumn, 'is', null)
     .neq(urlColumn, 'NULL')] with the four selected columns. *)
Definition select_video (r : VideoRow) : option Video :=
  match videoUrl r, facebookVideoId r with
  | Some u, Some v =>
      if String.eqb u "NULL" then None
      else Some {| id := v_id r; video_title_of := title r;
                   video_url_of := u; video_id_of := v |}
  | _, _ => None
  end.

Definition rows_of (tableName : string) (d : Database) : list VideoRow :=
  if String.eqb tableName "episodes" then episodes d
  else if String.eqb tableName "movies" then movies d
  else [].

(** Listing order is the order the table holds its rows in. *)
Definition select_videos (tableName : string) (d : Database) : list Video :=
  omap select_video (rows_of tableName d).

Definition created_le (a b : QueueRow) : Prop := (created_at a <= created_at b)%Z.

Global Instance created_le_dec a b : Decision (created_le a b).
Proof. unfold created_le. apply _. Defined.

(** [.eq('status', 'pending')] *)
Definition is_pending (r : QueueRow) : bool :=
  Status.eqb (status r) Status.pending.

(** [.select('*').eq('status', 'pending')
     .order('created_at', { ascending: true }).limit(limit)]: the pending
    rows, oldest first, cut at [limit]. *)
Definition selectPendingQueue (limit : nat) (q : list QueueRow) : list QueueRow :=
  take limit (merge_sort created_le (List.filter is_pending q)).

Section Engine.

Variable env : Env.

Local Open Scope io_scope.

(** [sendTelegram]: nothing is sent unless token and chat id are set; a
    failed post is caught and logged. *)
Definition sendTelegram (text : string) : IO unit :=
  if telegram_configured env then emit (EvTelegram text) else ret tt.

(** [isUrlValid]: one call of [axios.head], which follows up to five
    redirects. [validateStatus] makes every final status but 200 reject,
    and the [catch] turns a rejection into [false]. *)
Definition isUrlValid (url : option string) : IO bool :=
  match url with
  | None => ret false
  | Some u =>
      if negb (Js.truthy url) || String.eqb u "NULL" || String.eqb u ""
      then ret false
      else
        let* t := tick in
        emit (EvHead u) ;;;
        match http_head env t u with
        | HeadStatus st =>
            if Z.eqb st 200 then ret (Z.eqb st 200) else ret false
        | HeadNoResponse => ret false
        end
  end.

Definition getFacebookVideoUrl (videoId : string) : IO ResolveResult :=
  let* t := tick in
  emit (EvGraphGet videoId) ;;;
  match graph_get env t videoId with
  | GetResolved source =>
      modify_stats incr_apiCallsUsed ;;;
      match source with
      | Some u =>
          if Js.truthy source then ret (Success u)
          else ret (Failure no_source "No source URL found")
      | None => ret (Failure no_source "No source URL found")
      end
  | GetRejected body err_message =>
      modify_stats incr_apiCallsUsed ;;;
      match body with
      | Some e => ret (classify e)
      | None => ret (Failure network_error err_message)
      end
  end.

Definition addToQueue (tableName : string) (rowId : Z) (videoId : string)
    (oldUrl title : option string) : IO bool :=
  let* t := tick in
  emit (EvQueueInsert tableName rowId videoId oldUrl title) ;;;
  if queue_insert_ok env t then
    let* d := get_db in
    set_db (with_queue
              (url_update_queue d ++
               [{| q_id := queue_next_id d; table_name := tableName;
                   row_id := rowId; facebook_video_id := videoId;
                   old_url := oldUrl; video_title := title;
                   status := Status.pending; error_message := None;
                   created_at := clock env t; processed_at := None |}])
              (queue_next_id d + 1)%Z d) ;;;
    ret true
  else ret false.

(** [markQueueProcessed]: the result of the update is not looked at. *)
Definition markQueueProcessed (queueId : Z) (st : Status.t)
    (errorMsg : option string) : IO unit :=
  let* t := tick in
  emit (EvQueueUpdate queueId st errorMsg) ;;;
  if queue_update_ok env t then
    let* d := get_db in
    set_db (with_queue
              (map (mark_row queueId st (clock env t) errorMsg)
                   (url_update_queue d))
              (queue_next_id d) d)
  else ret tt.

Definition updateVideoUrl (tableName : string) (rowId : Z) (newUrl : string)
    : IO bool :=
  if String.eqb tableName "episodes" then
    let* t := tick in
    emit (EvTableUpdate tableName rowId newUrl) ;;;
    if table_update_ok env t tableName then
      let* d := get_db in
      set_db {| url_update_queue := url_update_queue d;
                queue_next_id := queue_next_id d;
                episodes := map (set_url rowId newUrl) (episodes d);
                movies := movies d |} ;;;
      modify_stats (fun s => set_episodesUpdated (S (episodesUpdated s)) s) ;;;
      ret true
    else ret false
  else if String.eqb tableName "movies" then
    let* t := tick in
    emit (EvTableUpdate tableName rowId newUrl) ;;;
    if table_update_ok env t tableName then
      let* d := get_db in
      set_db {| url_update_queue := url_update_queue d;
                queue_next_id := queue_next_id d;
                episodes := episodes d;
                movies := map (set_url rowId newUrl) (movies d) |} ;;;
      modify_stats (fun s => set_moviesUpdated (S (moviesUpdated s)) s) ;;;
      ret true
    else ret false
  else ret false.

(** The bucketing both phases apply to a resolver failure. *)
Definition record_failure (error : ErrorKind) (info : FailureInfo) : IO unit :=
  match error with
  | not_found => modify_stats (push_notFound info)
  | permission_denied => modify_stats (push_permissionDenied info)
  | _ => modify_stats (push_apiError info)
  end.

(** One turn of [for (const item of queueItems)] in [processQueue], past
    the budget check. *)
Definition processQueueItem (item : QueueRow) : IO unit :=
  let* result := getFacebookVideoUrl (facebook_video_id item) in
  match result with
  | Success url =>
      let* updated_ok := updateVideoUrl (table_name item) (row_id item) url in
      if updated_ok then
        markQueueProcessed (q_id item) Status.completed None ;;;
        modify_stats (fun s => set_updated (S (updated s)) s)
      else
        markQueueProcessed (q_id item) Status.failed
          (Some "Database update failed") ;;;
        modify_stats (fun s => set_failed (S (failed s)) s)
  | Failure error message =>
      markQueueProcessed (q_id item) Status.failed (Some message) ;;;
      modify_stats (fun s => set_failed (S (failed s)) s) ;;;
      record_failure error
        {| fi_id := facebook_video_id item;
           fi_title := Some (Js.or_else (video_title item) "Unknown") |}
  end.

(** The loop itself: [break] once the budget is used up. *)
Fixpoint processQueueItems (queueItems : list QueueRow) : IO unit :=
  match queueItems with
  | [] => ret tt
  | item :: rest =>
      let* s := get_stats in
      if MAX_API_CALLS <=? apiCallsUsed s then ret tt
      else processQueueItem item ;;; processQueueItems rest
  end.

Definition processQueue : IO unit :=
  let* t := tick in
  emit (EvQueueSelect MAX_API_CALLS) ;;;
  let* d := get_db in
  let queueItems :=
    if queue_select_ok env t
    then selectPendingQueue MAX_API_CALLS (url_update_queue d)
    else [] in
  match queueItems with
  | [] => ret tt
  | _ => processQueueItems queueItems
  end.

(** The inner [for (let j = i; ...)] of the sweep: every remaining record
    of the table is offered to the queue. *)
Fixpoint queueRemaining (tableName : string) (videos : list Video) : IO unit :=
  match videos with
  | [] => ret tt
  | v :: rest =>
      let* added := addToQueue tableName (id v) (video_id_of v)
                      (Some (video_url_of v)) (video_title_of v) in
      (if added
       then modify_stats (fun s => set_queued (S (queued s)) s)
       else ret tt) ;;;
      queueRemaining tableName rest
  end.

(** One turn of [for (let i = 0; ...)] in the sweep, past the budget
    check; [continue] on a valid URL skips the rest of the turn. *)
Definition sweepVideo (tableName : string) (video : Video) : IO unit :=
  modify_stats (fun s => set_totalChecked (S (totalChecked s)) s) ;;;
  let* isValid := isUrlValid (Some (video_url_of video)) in
  if isValid then
    modify_stats (fun s => set_alreadyValid (S (alreadyValid s)) s)
  else
    let* result := getFacebookVideoUrl (video_id_of video) in
    match result with
    | Success url =>
        let* updated_ok := updateVideoUrl tableName (id video) url in
        if updated_ok
        then modify_stats (fun s => set_updated (S (updated s)) s)
        else modify_stats (fun s => set_failed (S (failed s)) s)
    | Failure error message =>
        modify_stats (fun s => set_failed (S (failed s)) s) ;;;
        record_failure error
          {| fi_id := video_id_of video; fi_title := video_title_of video |}
    end.

(** The loop itself: once the budget is used up, this record and the rest
    of the listing go to the queue, then [break]. *)
Fixpoint sweepVideos (tableName : string) (videos : list Video) : IO unit :=
  match videos with
  | [] => ret tt
  | video :: rest =>
      let* s := get_stats in
      if MAX_API_CALLS <=? apiCallsUsed s
      then queueRemaining tableName videos
      else sweepVideo tableName video ;;; sweepVideos tableName rest
  end.

Definition tables : list string := ["episodes"; "movies"].

(** One turn of [for (const table of tables)]. *)
Definition sweepTable (tableName : string) : IO unit :=
  let* t := tick in
  emit (EvTableSelect tableName) ;;;
  let* d := get_db in
  let videos :=
    if table_select_ok env t tableName then select_videos tableName d
    else [] in
  match videos with
  | [] => ret tt
  | _ => sweepVideos tableName videos
  end.

Fixpoint forTables (ts : list string) : IO unit :=
  match ts with
  | [] => ret tt
  | table :: rest => sweepTable table ;;; forTables rest
  end.

Definition processFreshVideos : IO unit := forTables tables.

Definition testFacebookVideo (videoId : string) : IO ResolveResult :=
  let* result := getFacebookVideoUrl videoId in
  ret result.

End Engine.

(** ** The run report *)

Module Report.

Definition nl : string := String (ascii_of_nat 10) EmptyString.

(** [`${item.title}`] of a title that may be [null]. *)
Definition show_title (o : option string) : string :=
  match o with
  | Some s => s
  | None => "null"
  end.

(** [Number((ms / 1000).toFixed(0))]: to the nearest second, halves away
    from zero. *)
Definition toFixed0 (ms : Z) : Z :=
  if (0 <=? ms)%Z then ((ms + 500) / 1000)%Z
  else (- ((- ms + 500) / 1000))%Z.

Definition summary (s : Stats) : string :=
  "📊 <b>Summary:</b>" ++ nl ++
  "✅ Total Checked: " ++ pretty (totalChecked s) ++ nl ++
  "🟢 Already Valid: " ++ pretty (alreadyValid s) ++ nl ++
  "🔄 Successfully Updated: " ++ pretty (updated s) ++ nl ++
  "❌ Failed: " ++ pretty (failed s) ++ nl ++
  (if 0 <? queued s
   then "⏳ Queued for Next Run: " ++ pretty (queued s) ++ nl
   else "").

Definition by_table (s : Stats) : string :=
  nl ++ "📋 <b>Updates by Table:</b>" ++ nl ++
  "🎬 Episodes: " ++ pretty (episodesUpdated s) ++ nl ++
  "🎥 Movies: " ++ pretty (moviesUpdated s) ++ nl.

Definition usage (now : Z) (s : Stats) : string :=
  let duration := toFixed0 (now - default 0%Z (startTime s)) in
  let minutes := (duration / 60)%Z in
  let seconds := Z.rem duration 60 in
  nl ++ "📈 <b>API Usage:</b> " ++ pretty (apiCallsUsed s) ++ "/200" ++ nl ++
  "⏱️ <b>Duration:</b> " ++ pretty minutes ++ "m " ++ pretty seconds ++ "s" ++ nl.

(** A failure bucket: a heading, the first [shown] titles, and a count of
    the rest. *)
Definition bucket (heading icon : string) (shown : nat)
    (items : list FailureInfo) : string :=
  if 0 <? length items then
    nl ++ heading ++ " (" ++ pretty (length items) ++ "):</b>" ++ nl ++
    String.concat ""
      (map (fun item => "  " ++ icon ++ " " ++ show_title (fi_title item) ++ nl)
           (take shown items)) ++
    (if shown <? length items
     then "  ... and " ++ pretty (length items - shown) ++ " more" ++ nl
     else "")
  else "".

Definition all_updated_line : string :=
  nl ++ nl ++ "✅ <b>All expired URLs updated successfully!</b>".

Definition no_updates_needed_line : string :=
  nl ++ nl ++ "✅ <b>All URLs are still valid. No updates needed.</b>".

Definition queued_line (n : nat) : string :=
  nl ++ nl ++ "💡 <b>Note:</b> " ++ pretty n ++
  " items queued for next 24-hour run.".

(** The closing [if / else if / else if] of [generateReport]. *)
Definition closing_line (s : Stats) : string :=
  if (queued s =? 0) && (failed s =? 0) && (0 <? updated s)
  then all_updated_line
  else if (queued s =? 0) && (totalChecked s =? alreadyValid s)
  then no_updates_needed_line
  else if 0 <? queued s
  then queued_line (queued s)
  else "".

Definition generateReport (date : string) (now : Z) (s : Stats) : string :=
  "🔄 <b>CDN URL Update Report (24h Cycle)</b>" ++ nl ++
  "━━━━━━━━━━━━━━━━━" ++ nl ++
  "⏰ " ++ date ++ " UTC" ++ nl ++ nl ++
  summary s ++ by_table s ++ usage now s ++
  bucket "⚠️ <b>Videos Not Found" "❌" 5 (notFound (failures s)) ++
  bucket "🔒 <b>Permission Denied" "🔒" 3 (permissionDenied (failures s)) ++
  closing_line s ++
  nl ++ nl ++ "🔄 Next update: 24 hours from now".

End Report.

Section Run.

Variable env : Env.

Local Open Scope io_scope.

Definition start_message : string :=
  "🚀 <b>24-Hour URL Update Started</b>" ++ Report.nl ++ Report.nl ++
  "Checking all video URLs for expiration...".

(** [processUrlUpdates] over the answers an [Env] holds, which are the
    provider's answers as their schema types them. Over these nothing in
    the phases throws and the top-level [catch] is not taken;
    [Throwing.processUrlUpdates] below is the run with its [catch], over
    answers on and off the schema. *)
Definition processUrlUpdates : IO unit :=
  let* t0 := tick in
  modify_stats (fun _ => fresh_stats (Some (clock env t0))) ;;;
  sendTelegram env start_message ;;;
  processQueue env ;;;
  let* s := get_stats in
  (if apiCallsUsed s <? MAX_API_CALLS
   then processFreshVideos env
   else ret tt) ;;;
  let* t1 := tick in
  let* s1 := get_stats in
  let report :=
    Report.generateReport (locale_date env (clock env t1)) (clock env t1) s1 in
  sendTelegram env report.

End Run.

(** ** The engine when a lookup throws

    [getFacebookVideoUrl] reads [message.toLowerCase()] in its own [catch].
    The Graph API types the [message] of an error as a string, and an
    [Env] holds the provider's answers as typed, so that over an [Env]
    nothing in the phases throws. An answer off that schema, whose
    [message] is truthy and not a string while its [code] is not 100 (the
    code is tested first, and 100 decides before the message is read),
    makes that line throw a [TypeError] out of [getFacebookVideoUrl].
    Neither phase catches it: it ends the loop and the phase, and it is
    caught at the top of [processUrlUpdates], which sends an error notice
    in place of the report. The definitions below are the engine over
    answers on and off the schema; [processUrlUpdates] above is the same
    run for the answers on it. *)

(** The outside with answers off the schema: [off_schema o t v = Some m]
    when the lookup of video [v] made as call number [t] is answered off
    the schema, [m] being the message of the [TypeError] that results;
    [iso_date] is [Date.prototype.toISOString]. *)
Record Outside := {
  schema : Env;
  off_schema : nat -> string -> option string;
  iso_date : Z -> string
}.

(** A computation that returns or throws. *)
Inductive Outcome (A : Type) :=
| Returned (a : A)
| Thrown (message : string).

Arguments Returned {A} a.
Arguments Thrown {A} message.

Definition Try (A : Type) : Type := World -> Outcome A * World.

Definition returned {A} (a : A) : Try A := fun w => (Returned a, w).

Definition throw {A} (message : string) : Try A := fun w => (Thrown message, w).

(** Sequencing: what is thrown passes through whatever follows. *)
Definition and_then {A B} (m : Try A) (k : A -> Try B) : Try B :=
  fun w =>
    match m w with
    | (Returned a, w') => k a w'
    | (Thrown message, w') => (Thrown message, w')
    end.

(** Code that does not throw. *)
Definition lift {A} (m : IO A) : Try A :=
  fun w => let (a, w') := m w in (Returned a, w').

(** [try { m } catch (error) { handler(error.message) }] *)
Definition try_catch {A} (m : Try A) (handler : string -> IO A) : IO A :=
  fun w =>
    match m w with
    | (Returned a, w') => (a, w')
    | (Thrown message, w') => handler message w'
    end.

Declare Scope try_scope.
Delimit Scope try_scope with try.
Notation "'let*' x ':=' m 'in' k" := (and_then m (fun x => k))
  (at level 10, x name, m at level 200, k at level 200) : try_scope.
Notation "m ;;; k" := (and_then m (fun _ => k))
  (at level 100, k at level 200, right associativity) : try_scope.

Module Throwing.

Section Engine.

Variable o : Outside.

Local Open Scope try_scope.

(** [getFacebookVideoUrl]: the request is made and counted in the [catch]
    before the message is read. *)
Definition getFacebookVideoUrl (videoId : string) : Try ResolveResult :=
  let* t := lift tick in
  match off_schema o t videoId with
  | Some message =>
      lift (emit (EvGraphGet videoId)) ;;;
      lift (modify_stats incr_apiCallsUsed) ;;;
      throw message
  | None => lift (getFacebookVideoUrl (schema o) videoId)
  end.

(** One turn of [for (const item of queueItems)], past the budget check. *)
Definition processQueueItem (item : QueueRow) : Try unit :=
  let* result := getFacebookVideoUrl (facebook_video_id item) in
  match result with
  | Success url =>
      let* updated_ok :=
        lift (updateVideoUrl (schema o) (table_name item) (row_id item) url) in
      if updated_ok then
        lift (markQueueProcessed (schema o) (q_id item) Status.completed None) ;;;
        lift (modify_stats (fun s => set_updated (S (updated s)) s))
      else
        lift (markQueueProcessed (schema o) (q_id item) Status.failed
                (Some "Database update failed")) ;;;
        lift (modify_stats (fun s => set_failed (S (failed s)) s))
  | Failure error message =>
      lift (markQueueProcessed (schema o) (q_id item) Status.failed
              (Some message)) ;;;
      lift (modify_stats (fun s => set_failed (S (failed s)) s)) ;;;
      lift (record_failure error
              {| fi_id := facebook_video_id item;
                 fi_title := Some (Js.or_else (video_title item) "Unknown") |})
  end.

Fixpoint processQueueItems (queueItems : list QueueRow) : Try unit :=
  match queueItems with
  | [] => returned tt
  | item :: rest =>
      let* s := lift get_stats in
      if MAX_API_CALLS <=? apiCallsUsed s then returned tt
      else processQueueItem item ;;; processQueueItems rest
  end.

Definition processQueue : Try unit :=
  let* t := lift tick in
  lift (emit (EvQueueSelect MAX_API_CALLS)) ;;;
  let* d := lift get_db in
  let queueItems :=
    if queue_select_ok (schema o) t
    then selectPendingQueue MAX_API_CALLS (url_update_queue d)
    else [] in
  match queueItems with
  | [] => returned tt
  | _ => processQueueItems queueItems
  end.

(** One turn of [for (let i = 0; ...)] in the sweep, past the budget
    check. *)
Definition sweepVideo (tableName : string) (video : Video) : Try unit :=
  lift (modify_stats (fun s => set_totalChecked (S (totalChecked s)) s)) ;;;
  let* isValid := lift (isUrlValid (schema o) (Some (video_url_of video))) in
  if isValid then
    lift (modify_stats (fun s => set_alreadyValid (S (alreadyValid s)) s))
  else
    let* result := getFacebookVideoUrl (video_id_of video) in
    match result with
    | Success url =>
        let* updated_ok :=
          lift (updateVideoUrl (schema o) tableName (id video) url) in
        if updated_ok
        then lift (modify_stats (fun s => set_updated (S (updated s)) s))
        else lift (modify_stats (fun s => set_failed (S (failed s)) s))
    | Failure error message =>
        lift (modify_stats (fun s => set_failed (S (failed s)) s)) ;;;
        lift (record_failure error
                {| fi_id := video_id_of video;
                   fi_title := video_title_of video |})
    end.

Fixpoint sweepVideos (tableName : string) (videos : list Video) : Try unit :=
  match videos with
  | [] => returned tt
  | video :: rest =>
      let* s := lift get_stats in
      if MAX_API_CALLS <=? apiCallsUsed s
      then lift (queueRemaining (schema o) tableName videos)
      else sweepVideo tableName video ;;; sweepVideos tableName rest
  end.

Definition sweepTable (tableName : string) : Try unit :=
  let* t := lift tick in
  lift (emit (EvTableSelect tableName)) ;;;
  let* d := lift get_db in
  let videos :=
    if table_select_ok (schema o) t tableName then select_videos tableName d
    else [] in
  match videos with
  | [] => returned tt
  | _ => sweepVideos tableName videos
  end.

Fixpoint forTables (ts : list string) : Try unit :=
  match ts with
  | [] => returned tt
  | table :: rest => sweepTable table ;;; forTables rest
  end.

Definition processFreshVideos : Try unit := forTables tables.

(** The notice the [catch] of [processUrlUpdates] sends. *)
Definition error_notice (message time : string) : string :=
  ("❌ <b>URL Update Error</b>" ++ Report.nl ++ Report.nl ++
   "Error: " ++ message ++ Report.nl ++ Report.nl ++
   "Time: " ++ time)%string.

(** The [try] block of [processUrlUpdates]. *)
Definition attempt : Try unit :=
  processQueue ;;;
  let* s := lift get_stats in
  (if apiCallsUsed s <? MAX_API_CALLS
   then processFreshVideos
   else returned tt) ;;;
  let* t1 := lift tick in
  let* s1 := lift get_stats in
  let report :=
    Report.generateReport (locale_date (schema o) (clock (schema o) t1))
      (clock (schema o) t1) s1 in
  lift (sendTelegram (schema o) report).

(** [processUrlUpdates], with its [catch]. *)
Definition processUrlUpdates : IO unit :=
  (let* t0 := tick in
   modify_stats (fun _ => fresh_stats (Some (clock (schema o) t0))) ;;;
   sendTelegram (schema o) start_message ;;;
   try_catch attempt
     (fun message =>
        let* t := tick in
        sendTelegram (schema o)
          (error_notice message (iso_date o (clock (schema o) t)))))%io.

End Engine.

End Throwing.

(** ** The classification as an ordered rule table

    The specification's reading of the resolver's [catch]: rules in priority
    order, each naming a failure kind, the provider codes that select it,
    and the phrase looked for in the lower-cased message. *)

Module Rules.

Record Rule := {
  rule_kind : ErrorKind;
  rule_codes : list Z;
  rule_phrase : string
}.

Definition table : list Rule :=
  [ {| rule_kind := not_found; rule_codes := [100%Z];
       rule_phrase := "does not exist" |};
    {| rule_kind := permission_denied; rule_codes := [200%Z; 10%Z];
       rule_phrase := "permission" |};
    {| rule_kind := rate_limit; rule_codes := [4%Z; 17%Z];
       rule_phrase := "rate limit" |} ].

Definition applies (e : FbError) (r : Rule) : bool :=
  existsb (code_is (fb_code e)) (rule_codes r)
  || Js.includes (Js.toLowerCase (Js.or_else (fb_message e) ""))
                 (rule_phrase r).

(** The first rule that applies decides; [api_error] when none does. *)
Definition kind_of (e : FbError) : ErrorKind :=
  match List.find (applies e) table with
  | Some r => rule_kind r
  | None => api_error
  end.

(** The failure kinds the specification lists, by name. *)
Definition listed_kinds : list string :=
  ["not_found"; "permission_denied"; "rate_limited"; "api_error";
   "network_error"].

End Rules.

Definition result_kind (r : ResolveResult) : option ErrorKind :=
  match r with
  | Success _ => None
  | Failure k _ => Some k
  end.

(** [MAX_API_CALLS - stats.apiCallsUsed], the "API calls remaining" of the
    run log. *)
Definition calls_remaining (s : Stats) : nat := MAX_API_CALLS - apiCallsUsed s.

(** ** Concrete worlds used to exercise the statements *)

Module Sample.

(** An outside world in which every request succeeds: URL ["ok"] is live,
    every other URL answers 403; video ["v1"] resolves, ["v2"] is
    rejected with a provider error, any other id resolves without a
    source. *)
Definition env : Env :=
  {| http_head := fun _ u =>
       if String.eqb u "ok" then HeadStatus 200 else HeadStatus 403;
     graph_get := fun _ v =>
       if String.eqb v "v1" then GetResolved (Some "https://cdn/new")
       else if String.eqb v "v2" then
         GetRejected
           (Some {| fb_code := Some 200%Z;
                    fb_message := Some "Object DOES NOT Exist" |})
           "Request failed with status code 400"
       else GetResolved None;
     clock := fun t => (1000 * Z.of_nat t)%Z;
     queue_select_ok := fun _ => true;
     queue_insert_ok := fun _ => true;
     queue_update_ok := fun _ => true;
     table_select_ok := fun _ _ => true;
     table_update_ok := fun _ _ => true;
     telegram_configured := true;
     locale_date := fun _ => "1/1/2025, 12:00:00 AM" |}.

(** The same, with a queue that rejects every insert. *)
Definition env_queue_down : Env :=
  {| http_head := http_head env; graph_get := graph_get env;
     clock := clock env;
     queue_select_ok := fun _ => true;
     queue_insert_ok := fun _ => false;
     queue_update_ok := fun _ => true;
     table_select_ok := fun _ _ => true;
     table_update_ok := fun _ _ => true;
     telegram_configured := true;
     locale_date := locale_date env |}.

(** The same, with a database that rejects every write. *)
Definition env_db_down : Env :=
  {| http_head := http_head env; graph_get := graph_get env;
     clock := clock env;
     queue_select_ok := fun _ => true;
     queue_insert_ok := fun _ => false;
     queue_update_ok := fun _ => false;
     table_select_ok := fun _ _ => true;
     table_update_ok := fun _ _ => false;
     telegram_configured := true;
     locale_date := locale_date env |}.

Definition task (n : Z) (st : Status.t) (created : Z) : QueueRow :=
  {| q_id := n; table_name := "episodes"; row_id := n;
     facebook_video_id := "v1"; old_url := Some "https://cdn/old";
     video_title := Some "Pilot"; status := st; error_message := None;
     created_at := created; processed_at := None |}.

Definition video_row (n : Z) (url vid : string) : VideoRow :=
  {| v_id := n; title := Some "Pilot"; videoUrl := Some url;
     facebookVideoId := Some vid |}.

Definition world (used : nat) (d : Database) : World :=
  {| stats := set_apiCallsUsed used (fresh_stats None); db := d; trace := [] |}.

Definition empty_db : Database :=
  {| url_update_queue := []; queue_next_id := 1; episodes := []; movies := [] |}.

(** One pending task for an episode. *)
Definition db_one_task : Database :=
  {| url_update_queue := [task 1 Status.pending 10]; queue_next_id := 2;
     episodes := [video_row 1 "https://cdn/old" "v1"]; movies := [] |}.

(** One completed task. *)
Definition db_done_task : Database :=
  {| url_update_queue := [task 1 Status.completed 10]; queue_next_id := 2;
     episodes := []; movies := [] |}.

(** Two expired episodes and one expired movie, nothing queued. *)
Definition db_expired : Database :=
  {| url_update_queue := []; queue_next_id := 1;
     episodes := [video_row 1 "https://cdn/e1" "v1";
                  video_row 2 "https://cdn/e2" "v1"];
     movies := [video_row 7 "https://cdn/m7" "v1"] |}.

(** Two live episodes and one live movie, one finished task. *)
Definition db_live : Database :=
  {| url_update_queue := [task 1 Status.completed 10]; queue_next_id := 2;
     episodes := [video_row 1 "ok" "v1"; video_row 2 "ok" "v1"];
     movies := [video_row 7 "ok" "v1"] |}.

End Sample.

(** ** Vocabulary of the statements *)

(** The world after [stats.totalChecked++]. *)
Definition checked (w : World) : World :=
  snd (modify_stats (fun s => set_totalChecked (S (totalChecked s)) s) w).

(** Two rows describe the same task: everything but status, error message
    and processed time agrees. *)
Definition same_task (r r' : QueueRow) : Prop :=
  q_id r' = q_id r /\ table_name r' = table_name r /\ row_id r' = row_id r /\
  facebook_video_id r' = facebook_video_id r /\ old_url r' = old_url r /\
  video_title r' = video_title r /\ created_at r' = created_at r.

(** What a drain may do to a row: nothing, or take it from [pending] to
    [completed] or [failed]. *)
Definition drain_transition (r r' : QueueRow) : Prop :=
  r' = r \/
  (same_task r r' /\ status r = Status.pending /\
   (status r' = Status.completed \/ status r' = Status.failed)).

(** The requests issued between two worlds. *)
Definition issued (w w' : World) : list Event :=
  drop (length (trace w)) (trace w').

(** The URL probes valid whenever it is probed. *)
Definition always_valid (env : Env) (url : string) : Prop :=
  forall w, fst (isUrlValid env (Some url) w) = true.


(** The closing status line read as the specification words it: three
    conditions in order of precedence, the first that holds decides, and no
    line when none holds. The conditions are read off their names, not off
    the tests of [generateReport]. *)
Module Closing.





End Closing.


(** The URL probes invalid whenever it is probed. *)
Definition never_valid (env : Env) (url : string) : Prop :=
  forall w, fst (isUrlValid env (Some url) w) = false.

(** The records a sweep of this database lists, in sweep order, each with
    the table it is listed in. *)
Definition listed (d : Database) : list (string * Video) :=
  map (pair "episodes") (select_videos "episodes" d) ++
  map (pair "movies") (select_videos "movies" d).

(** The resolver request and the queue insert a sweep issues for a record. *)
Definition lookup_of (r : string * Video) : Event :=
  EvGraphGet (video_id_of (snd r)).

Definition offer_of (r : string * Video) : Event :=
  EvQueueInsert (fst r) (id (snd r)) (video_id_of (snd r))
    (Some (video_url_of (snd r))) (video_title_of (snd r)).

(** What a queue row says about the record it defers, and what the row
    enqueued for a record has to say. *)
Definition payload (r : QueueRow) :
    string * Z * string * option string * option string * Status.t :=
  (table_name r, row_id r, facebook_video_id r, old_url r, video_title r,
   status r).

Definition payload_of (r : string * Video) :
    string * Z * string * option string * option string * Status.t :=
  (fst r, id (snd r), video_id_of (snd r), Some (video_url_of (snd r)),
   video_title_of (snd r), Status.pending).

(** What a stretch of the sweep did between two worlds: which records it
    resolved, which it offered to the queue, and which rows the queue
    gained. *)
Definition sweep_effect (env : Env) (w w' : World)
    (resolved offered : list (string * Video)) : Prop :=
  exists (l : list Event) (added : list QueueRow),
    trace w' = (trace w ++ l)%list /\
    List.filter is_graph_get l = map lookup_of resolved /\
    List.filter is_queue_insert l = map offer_of offered /\
    apiCallsUsed (stats w') = apiCallsUsed (stats w) + length resolved /\
    url_update_queue (db w') = (url_update_queue (db w) ++ added)%list /\
    queued (stats w') = queued (stats w) + length added /\
    sublist (map payload added) (map payload_of offered) /\
    ((forall t, queue_insert_ok env t = true) ->
     map payload added = map payload_of offered).

(** ** Vocabulary of the further statements *)

(** The number of Graph lookups among some requests. *)
Definition lookups (l : list Event) : nat :=
  length (List.filter is_graph_get l).

(** The task a queue update is addressed to, and the record a table update
    is addressed to. *)
Definition marked_id (e : Event) : option Z :=
  match e with
  | EvQueueUpdate queueId _ _ => Some queueId
  | _ => None
  end.

Definition updated_record (e : Event) : option (string * Z) :=
  match e with
  | EvTableUpdate tableName rowId _ => Some (tableName, rowId)
  | _ => None
  end.

Definition is_table_select (e : Event) : bool :=
  match e with EvTableSelect _ => true | _ => false end.

Definition is_head (e : Event) : bool :=
  match e with EvHead _ => true | _ => false end.

(** A change of [stats] that leaves the call counter and the queued
    counter alone. *)
Definition plain_bump (f : Stats -> Stats) : Prop :=
  forall s, apiCallsUsed (f s) = apiCallsUsed s /\ queued (f s) = queued s.

(** The world [processUrlUpdates] starts its phases in: [stats] reset,
    [startTime] read from the clock. *)
Definition reset (env : Env) (w : World) : World :=
  snd (modify_stats
         (fun _ => fresh_stats (Some (clock env (length (trace w))))) w).

(** The world after one turn of the overflow loop of the sweep:
    [addToQueue], then [stats.queued++] if it reported success. *)
Definition enqueued (env : Env) (tableName : string) (v : Video) (w : World) : World :=
  let r := addToQueue env tableName (id v) (video_id_of v)
             (Some (video_url_of v)) (video_title_of v) w in
  if fst r
  then snd (modify_stats (fun s => set_queued (S (queued s)) s) (snd r))
  else snd r.

(** The queue's ids are pairwise distinct and below the next value of the
    sequence, as a [BIGSERIAL PRIMARY KEY] keeps them. *)
Definition queue_ids_fresh (d : Database) : Prop :=
  List.NoDup (map q_id (url_update_queue d)) /\
  Forall (fun r => (q_id r < queue_next_id d)%Z) (url_update_queue d).

(** Two rows are the same record up to its URL. *)
Definition same_record (r r' : VideoRow) : Prop :=
  v_id r' = v_id r /\ title r' = title r /\
  facebookVideoId r' = facebookVideoId r.

(** The tasks a drain reads at request number [t]. *)
Definition drained (env : Env) (t : nat) (d : Database) : list QueueRow :=
  if queue_select_ok env t
  then selectPendingQueue MAX_API_CALLS (url_update_queue d)
  else [].

(** From [w] to [w'] the call counter went up by exactly the lookups issued,
    and did not pass the ceiling if it was not past it. *)
Definition spends (w w' : World) : Prop :=
  exists l : list Event,
    trace w' = (trace w ++ l)%list /\
    apiCallsUsed (stats w') = apiCallsUsed (stats w) + lookups l /\
    (apiCallsUsed (stats w) <= MAX_API_CALLS ->
     apiCallsUsed (stats w') <= MAX_API_CALLS).

(** From [w] to [w'] the two record tables kept their rows, in order, up to
    the URLs. *)
Definition keeps_records (w w' : World) : Prop :=
  Forall2 same_record (episodes (db w)) (episodes (db w')) /\
  Forall2 same_record (movies (db w)) (movies (db w')).

(** A task as [addToQueue] writes it: pending, no error, not processed. *)
Definition fresh_task (r : QueueRow) : Prop :=
  status r = Status.pending /\ error_message r = None /\ processed_at r = None.

(** From [w] to [w'] the queue kept its rows as they were and gained fresh
    tasks at its end, as many as the queued counter went up by. *)
Definition queue_grows (w w' : World) : Prop :=
  exists added : list QueueRow,
    url_update_queue (db w') = (url_update_queue (db w) ++ added)%list /\
    Forall fresh_task added /\
    queued (stats w') = queued (stats w) + length added.

(** From [w] to [w'] the queue kept its tasks, in order, up to status, error
    message and processed time, and the queued counter stood still. *)
Definition queue_kept (w w' : World) : Prop :=
  Forall2 same_task (url_update_queue (db w)) (url_update_queue (db w')) /\
  queued (stats w') = queued (stats w).

(** Fresh ids stay fresh. *)
Definition keeps_ids_fresh (w w' : World) : Prop :=
  queue_ids_fresh (db w) -> queue_ids_fresh (db w').

(** The lookup a drain issues for a task. *)
Definition lookup_of_task (t : QueueRow) : Event :=
  EvGraphGet (facebook_video_id t).

(** What a stretch of the drain did between two worlds: the tasks it
    processed, each with one lookup and one mark, and nothing of what only
    the sweep does. *)
Definition drain_effect (w w' : World) (done : list QueueRow) : Prop :=
  exists l : list Event,
    trace w' = (trace w ++ l)%list /\
    List.filter is_graph_get l = map lookup_of_task done /\
    omap marked_id l = map q_id done /\
    apiCallsUsed (stats w') = apiCallsUsed (stats w) + length done /\
    List.filter is_table_select l = [] /\
    List.filter is_head l = [] /\
    List.filter is_queue_insert l = [] /\
    totalChecked (stats w') = totalChecked (stats w) /\
    queued (stats w') = queued (stats w).

(** The request number at which a run started in [w] reads the queue: the
    start notification, if configured, comes first. *)
Definition drain_tick (env : Env) (w : World) : nat :=
  length (trace w) + (if telegram_configured env then 1 else 0).

(** From [w] to [w'] no task was marked and no table was listed. *)
Definition sweeps_quietly (w w' : World) : Prop :=
  exists l : list Event,
    trace w' = (trace w ++ l)%list /\
    omap marked_id l = [] /\
    List.filter is_table_select l = [].

(** ** Further concrete worlds *)

Module Cases.

(** A backlog of as many pending tasks as the budget has calls, on a
    database with one expired episode. *)
Definition db_backlog : Database :=
  {| url_update_queue :=
       map (fun i => Sample.task (Z.of_nat i) Status.pending (Z.of_nat i))
           (seq 1 190);
     queue_next_id := 191;
     episodes := [Sample.video_row 1 "https://cdn/e1" "v1"];
     movies := [] |}.

(** Three tasks, created out of order, one of them already completed. *)
Definition db_three_tasks : Database :=
  {| url_update_queue :=
       [Sample.task 1 Status.pending 30; Sample.task 2 Status.completed 10;
        Sample.task 3 Status.pending 20];
     queue_next_id := 4;
     episodes := [Sample.video_row 1 "https://cdn/e1" "v1";
                  Sample.video_row 3 "https://cdn/e3" "v1"];
     movies := [] |}.

(** One live episode, one expired episode and one expired movie. *)
Definition db_mixed : Database :=
  {| url_update_queue := []; queue_next_id := 1;
     episodes := [Sample.video_row 1 "ok" "v1";
                  Sample.video_row 2 "https://cdn/e2" "v1"];
     movies := [Sample.video_row 7 "https://cdn/m7" "v2"] |}.

End Cases.

(** From [w] to [w'] every task no queue update was addressed to is still
    in the queue as it was. *)
Definition leaves_unmarked (w w' : World) : Prop :=
  exists l : list Event,
    trace w' = (trace w ++ l)%list /\
    forall r, In r (url_update_queue (db w)) ->
              ~ In (q_id r) (omap marked_id l) ->
              In r (url_update_queue (db w')).

(** Every row with this id is completed or failed and has a processed
    time. *)
Definition settled (queueId : Z) (d : Database) : Prop :=
  forall r, In r (url_update_queue d) -> q_id r = queueId ->
    (status r = Status.completed \/ status r = Status.failed) /\
    processed_at r <> None.

Definition keeps_settled (queueId : Z) (w w' : World) : Prop :=
  settled queueId (db w) -> settled queueId (db w').

(** The bucket entry both phases file for a record. *)
Definition failure_of (video : Video) : FailureInfo :=
  {| fi_id := video_id_of video; fi_title := video_title_of video |}.

(** The same statistics with another list of unclassified failures. *)
Definition with_apiError (l : list FailureInfo) (s : Stats) : Stats :=
  set_failures {| notFound := notFound (failures s);
                  permissionDenied := permissionDenied (failures s);
                  apiError := l |} s.

(** The row needs no refresh: the sweep does not list it, or its URL probes
    valid whenever probed. *)
Definition needs_no_refresh (env : Env) (r : VideoRow) : Prop :=
  match select_video r with
  | Some v => always_valid env (video_url_of v)
  | None => True
  end.

(** Everything of the statistics that the report shows: the counters, the
    start time, the size of the two itemised buckets and the titles of
    their first five and first three entries. *)
Definition report_view (s : Stats) :
    nat * nat * nat * nat * nat * nat * nat * nat * option Z *
    (nat * list (option string)) * (nat * list (option string)) :=
  (totalChecked s, alreadyValid s, updated s, failed s, queued s,
   episodesUpdated s, moviesUpdated s, apiCallsUsed s, startTime s,
   (length (notFound (failures s)),
    map fi_title (take 5 (notFound (failures s)))),
   (length (permissionDenied (failures s)),
    map fi_title (take 3 (permissionDenied (failures s))))).

(** The bucket entry the drain files for a task: the title, or ['Unknown']
    when the task has none. *)
Definition failure_of_task (item : QueueRow) : FailureInfo :=
  {| fi_id := facebook_video_id item;
     fi_title := Some (Js.or_else (video_title item) "Unknown") |}.

(** The statistics with a failure filed in the bucket of its kind. *)
Definition filed (kind : ErrorKind) (info : FailureInfo) (f : Failures) : Failures :=
  match kind with
  | not_found =>
      {| notFound := notFound f ++ [info];
         permissionDenied := permissionDenied f; apiError := apiError f |}
  | permission_denied =>
      {| notFound := notFound f;
         permissionDenied := permissionDenied f ++ [info];
         apiError := apiError f |}
  | _ =>
      {| notFound := notFound f; permissionDenied := permissionDenied f;
         apiError := apiError f ++ [info] |}
  end.

(** ** The rest of the code: queue status, chat commands, trigger endpoint *)

(** More of JavaScript's strings. *)
Module JsText.

(** White space as [String.prototype.trim] sees it. Strings are held as
    UTF-8 bytes, so the white space beyond ASCII is two or three bytes
    long: U+00A0; U+1680, U+2000 to U+200A, U+2028, U+2029, U+202F,
    U+205F, U+3000 and U+FEFF. *)
Definition is_space (c : ascii) : bool :=
  let n := nat_of_ascii c in
  (n =? 32) || ((9 <=? n) && (n <=? 13)).

Definition is_space2 (a b : ascii) : bool :=
  (nat_of_ascii a =? 194) && (nat_of_ascii b =? 160).

Definition is_space3 (a b c : ascii) : bool :=
  let x := nat_of_ascii a in
  let y := nat_of_ascii b in
  let z := nat_of_ascii c in
  ((x =? 225) && (y =? 154) && (z =? 128))
  || ((x =? 226) && (y =? 128) &&
      (((128 <=? z) && (z <=? 138)) || (z =? 168) || (z =? 169) || (z =? 175)))
  || ((x =? 226) && (y =? 129) && (z =? 159))
  || ((x =? 227) && (y =? 128) && (z =? 128))
  || ((x =? 239) && (y =? 187) && (z =? 191)).

Fixpoint trimStart (s : string) : string :=
  match s with
  | EmptyString => EmptyString
  | String a t =>
      if is_space a then trimStart t
      else
        match t with
        | EmptyString => s
        | String b t2 =>
            if is_space2 a b then trimStart t2
            else
              match t2 with
              | EmptyString => s
              | String c t3 => if is_space3 a b c then trimStart t3 else s
              end
        end
  end.

(** Nothing but white space. *)
Definition all_space (s : string) : bool :=
  match trimStart s with
  | EmptyString => true
  | String _ _ => false
  end.

Fixpoint trimEnd (s : string) : string :=
  match s with
  | EmptyString => EmptyString
  | String c t => if all_space s then EmptyString else String c (trimEnd t)
  end.

Definition trim (s : string) : string := trimEnd (trimStart s).

(** [s.split(sep)] for a one-character separator: never empty. *)
Fixpoint split (sep : ascii) (s : string) : list string :=
  match s with
  | EmptyString => [EmptyString]
  | String c t =>
      if Ascii.eqb c sep then EmptyString :: split sep t
      else match split sep t with
           | h :: r => String c h :: r
           | [] => [String c EmptyString]
           end
  end.

(** [list.includes(s)] on strings. *)
Definition includes_string (l : list string) (s : string) : bool :=
  existsb (String.eqb s) l.

(** [a !== b] negated, on values that are a string or [undefined]. *)
Definition strict_eqb (a b : option string) : bool :=
  match a, b with
  | Some x, Some y => String.eqb x y
  | None, None => true
  | _, _ => false
  end.

End JsText.

(** The object [getQueueStatus] returns. *)
Record QueueStatus := {
  qs_pending : nat;
  qs_completed : nat;
  qs_failed : nat;
  qs_lastCheck : Z;
  qs_message : string
}.

(** [.select('*', { count: 'exact', head: true }).eq('status', st)] *)
Definition count_status (st : Status.t) (q : list QueueRow) : nat :=
  length (List.filter (fun r => Status.eqb (status r) st) q).

(** [getQueueStatus]: three counts, read one after the other; a count that
    cannot be read comes back [null] and is shown as 0 ([pending || 0]).
    The client reports a failed read in its result and does not throw, so
    the [catch] is not taken. The counts are reads, so the database is the
    same afterwards; they are not entered in the engine's log of
    requests. *)
Definition getQueueStatus (count_ok : Status.t -> bool) (now : Z) (d : Database)
    : QueueStatus :=
  let count st :=
    if count_ok st then count_status st (url_update_queue d) else 0 in
  {| qs_pending := count Status.pending;
     qs_completed := count Status.completed;
     qs_failed := count Status.failed;
     qs_lastCheck := now;
     qs_message := "Queue runs every 24 hours" |}.

(** *** The chat commands of [telegramBot.js] *)

(** [update.message], with the two fields the bot reads: [chat.id], an
    integer that Telegram always sends, and [text], which may be missing. *)
Record Message := {
  msg_chat_id : Z;
  msg_text : option string
}.

Record Update := {
  upd_message : option Message
}.

(** [lastUpdateInfo]: [{ timestamp, success, error }]. *)
Record UpdateInfo := {
  info_timestamp : Z;
  info_success : bool;
  info_error : option string
}.

(** What the bot is configured with: [TELEGRAM_ADMIN_IDS], the host's
    [toLocaleString] for times, and whether the status counts can be
    read. *)
Record BotConfig := {
  admin_ids : option string;
  local_date : Z -> string;
  count_ok : Status.t -> bool
}.

(** The bot's module state, the engine's world, and the messages posted
    with [sendMessage], oldest first. *)
Record Bot := {
  engine : World;
  isProcessing : bool;
  lastUpdateInfo : option UpdateInfo;
  sent : list (Z * string)
}.

(** [ALLOWED_CHAT_IDS] *)
Definition ALLOWED_CHAT_IDS (cfg : BotConfig) : list string :=
  match admin_ids cfg with
  | Some ids =>
      if Js.truthy (Some ids) then map JsText.trim (JsText.split "," ids)
      else []
  | None => []
  end.

(** [sendMessage]: a failed post is caught and logged. *)
Definition sendMessage (chatId : Z) (text : string) (b : Bot) : Bot :=
  {| engine := engine b; isProcessing := isProcessing b;
     lastUpdateInfo := lastUpdateInfo b;
     sent := sent b ++ [(chatId, text)] |}.

Definition isAuthorized (cfg : BotConfig) (chatId : Z) : bool :=
  if length (ALLOWED_CHAT_IDS cfg) =? 0 then true
  else JsText.includes_string (ALLOWED_CHAT_IDS cfg) (pretty chatId).

Module Texts.

Definition nl : string := Report.nl.

Definition unauthorized : string :=
  "❌ <b>Unauthorized</b>" ++ nl ++ nl ++
  "You are not authorized to use this bot.".

Definition unknown_command : string :=
  "❓ Unknown command. Type /help for available commands.".

Definition already_running : string :=
  "⚠️ <b>Update Already Running</b>" ++ nl ++ nl ++
  "An update is already in progress. Please wait for it to complete.".

Definition update_started : string :=
  "🚀 <b>Update Started!</b>" ++ nl ++ nl ++
  "🔍 Checking all video URLs..." ++ nl ++
  "⏳ This may take 1-5 minutes" ++ nl ++ nl ++
  "<i>You'll receive a detailed report when complete.</i>".

Definition update_completed : string :=
  "✅ <b>Update Completed!</b>" ++ nl ++ nl ++
  "Check the detailed report above for results.".

Definition no_update_info : string :=
  "📝 <b>No Update Info</b>" ++ nl ++ nl ++
  "No updates have been run since the bot started." ++ nl ++ nl ++
  "Use /update to run your first update!".

Definition start (chatId : Z) : string :=
  JsText.trim
    (nl ++
     "👋 <b>Welcome to Facebook CDN URL Updater Bot!</b>" ++ nl ++ nl ++
     "This bot helps you manage and update expired Facebook video URLs." ++
     nl ++ nl ++
     "<b>Available Commands:</b>" ++ nl ++
     "/update - Check and update all expired URLs" ++ nl ++
     "/status - View queue status" ++ nl ++
     "/info - Last update information" ++ nl ++
     "/help - Show help" ++ nl ++ nl ++
     "Your Chat ID: <code>" ++ pretty chatId ++ "</code>" ++ nl ++ nl ++
     "<i>Type /update to start checking your videos!</i>" ++ nl ++
     "  ").

Definition help : string :=
  JsText.trim
    (nl ++
     "📚 <b>Bot Commands</b>" ++ nl ++ nl ++
     "<b>/update</b> - Check and update expired URLs" ++ nl ++
     "  • Scans episodes and movies tables" ++ nl ++
     "  • Tests each URL validity" ++ nl ++
     "  • Updates expired URLs from Facebook" ++ nl ++
     "  • Sends detailed report" ++ nl ++ nl ++
     "<b>/status</b> - View queue status" ++ nl ++
     "  • Pending/completed/failed counts" ++ nl ++
     "  • Current process status" ++ nl ++ nl ++
     "<b>/info</b> - Last update info" ++ nl ++
     "  • When last update ran" ++ nl ++
     "  • Success/failure status" ++ nl ++ nl ++
     "<b>/help</b> - Show this help" ++ nl ++ nl ++
     "<b>How It Works:</b>" ++ nl ++
     "1. Bot checks all video URLs in database" ++ nl ++
     "2. Tests if each URL is still accessible" ++ nl ++
     "3. Updates expired URLs with fresh ones" ++ nl ++
     "4. Sends you a complete report" ++ nl ++ nl ++
     "<i>Updates take 1-5 minutes depending on video count.</i>" ++ nl ++
     "  ").

Definition queue_status (cfg : BotConfig) (busy : bool) (st : QueueStatus) : string :=
  JsText.trim
    (nl ++
     "📊 <b>Queue Status</b>" ++ nl ++ nl ++
     "⏳ <b>Pending:</b> " ++ pretty (qs_pending st) ++ nl ++
     "✅ <b>Completed:</b> " ++ pretty (qs_completed st) ++ "  " ++ nl ++
     "❌ <b>Failed:</b> " ++ pretty (qs_failed st) ++ nl ++ nl ++
     (if busy then "🔄 <b>Status:</b> Update in progress..."
      else "💤 <b>Status:</b> Idle") ++ nl ++ nl ++
     "⏰ <b>Last Check:</b> " ++ local_date cfg (qs_lastCheck st) ++ nl ++
     "    ").

Definition update_info (cfg : BotConfig) (info : UpdateInfo) : string :=
  JsText.trim
    (nl ++
     "📝 <b>Last Update Info</b>" ++ nl ++ nl ++
     "⏰ <b>Time:</b> " ++ local_date cfg (info_timestamp info) ++ nl ++
     (if info_success info then "✅ Completed" else "❌ Failed") ++ nl ++ nl ++
     (if Js.truthy (info_error info)
      then nl ++ "<b>Error:</b> " ++ Js.or_else (info_error info) ""
      else "") ++ nl ++ nl ++
     "Type /update to run a new update." ++ nl ++
     "  ").

End Texts.

Section Commands.

Variable cfg : BotConfig.
Variable env : Env.

(** The time the bot reads when it needs one. *)
Definition bot_now (b : Bot) : Z := clock env (length (trace (engine b))).

Definition handleStart (chatId : Z) (b : Bot) : Bot :=
  sendMessage chatId (Texts.start chatId) b.

Definition handleHelp (chatId : Z) (b : Bot) : Bot :=
  sendMessage chatId Texts.help b.

(** [handleUpdateCommand]. [processUrlUpdates] catches its own failures and
    [sendMessage] its own, so the [catch] here is not taken; the [finally]
    clears the flag. *)
Definition handleUpdateCommand (chatId : Z) (b : Bot) : Bot :=
  if isProcessing b then sendMessage chatId Texts.already_running b
  else
    let b1 := {| engine := engine b; isProcessing := true;
                 lastUpdateInfo := lastUpdateInfo b; sent := sent b |} in
    let b2 := sendMessage chatId Texts.update_started b1 in
    let w' := snd (processUrlUpdates env (engine b2)) in
    let b3 := {| engine := w'; isProcessing := isProcessing b2;
                 lastUpdateInfo :=
                   Some {| info_timestamp := clock env (length (trace w'));
                           info_success := true; info_error := None |};
                 sent := sent b2 |} in
    let b4 := sendMessage chatId Texts.update_completed b3 in
    {| engine := engine b4; isProcessing := false;
       lastUpdateInfo := lastUpdateInfo b4; sent := sent b4 |}.

(** [handleStatus]: [getQueueStatus] does not throw, so the [catch] is not
    taken. *)
Definition handleStatus (chatId : Z) (b : Bot) : Bot :=
  let st := getQueueStatus (count_ok cfg) (bot_now b) (db (engine b)) in
  sendMessage chatId (Texts.queue_status cfg (isProcessing b) st) b.

Definition handleInfo (chatId : Z) (b : Bot) : Bot :=
  match lastUpdateInfo b with
  | None => sendMessage chatId Texts.no_update_info b
  | Some info => sendMessage chatId (Texts.update_info cfg info) b
  end.

(** [text.trim().split(' ')[0].toLowerCase()]. Lowering is done on the
    ASCII letters. JavaScript lowers letters outside ASCII as well, but a
    first word with such a letter is no command either way: lowered, it
    keeps a character outside ASCII or, for the Kelvin sign, has a [k],
    which no command has; so the [switch] below takes the same branch. *)
Definition command_of (text : string) : string :=
  Js.toLowerCase (hd EmptyString (JsText.split " " (JsText.trim text))).

Definition handleTelegramUpdate (update : Update) (b : Bot) : Bot :=
  match upd_message update with
  | None => b
  | Some m =>
      match msg_text m with
      | None => b
      | Some text =>
          if negb (Js.truthy (Some text)) then b
          else
            let chatId := msg_chat_id m in
            let command := command_of text in
            if negb (isAuthorized cfg chatId)
            then sendMessage chatId Texts.unauthorized b
            else if String.eqb command "/start" then handleStart chatId b
            else if String.eqb command "/update" then handleUpdateCommand chatId b
            else if String.eqb command "/status" then handleStatus chatId b
            else if String.eqb command "/help" then handleHelp chatId b
            else if String.eqb command "/info" then handleInfo chatId b
            else sendMessage chatId Texts.unknown_command b
      end
  end.

End Commands.

(** *** The trigger endpoint of [server.js] *)

(** What [POST /update-urls] answers: 401 [{ error: 'Unauthorized' }], or
    [{ status: 'started', ... }] with the time of the answer. *)
Inductive TriggerReply :=
| Unauthorized401
| Started (timestamp : Z).

(** [POST /update-urls]: the [x-secret-key] header against [SECRET_KEY],
    either of which may be missing; the answer is sent before the run. *)
Definition postUpdateUrls (env : Env) (secret_key header : option string)
    (w : World) : TriggerReply * World :=
  if negb (JsText.strict_eqb header secret_key) then (Unauthorized401, w)
  else (Started (clock env (length (trace w))), snd (processUrlUpdates env w)).

(** A bot that has just started, on a given world. *)
Definition fresh_bot (w : World) : Bot :=
  {| engine := w; isProcessing := false; lastUpdateInfo := None; sent := [] |}.

(** ** Vocabulary for the chat commands and the status *)

(** Between [b] and [b'] the chat got one reply and nothing else changed. *)
Definition replies_only (chatId : Z) (b b' : Bot) : Prop :=
  engine b' = engine b /\ isProcessing b' = isProcessing b /\
  lastUpdateInfo b' = lastUpdateInfo b /\
  exists text, sent b' = (sent b ++ [(chatId, text)])%list.

(** [b'] is [b] after one full run asked for by the chat: the world is the
    one the run leaves, the flag is down, the run is on record as a success,
    and the chat was told of the start and of the completion. *)
Definition ran_update (env : Env) (chatId : Z) (b b' : Bot) : Prop :=
  engine b' = snd (processUrlUpdates env (engine b)) /\
  isProcessing b' = false /\
  lastUpdateInfo b' =
    Some {| info_timestamp := clock env (length (trace (engine b')));
            info_success := true; info_error := None |} /\
  sent b' = (sent b ++ [(chatId, Texts.update_started);
                        (chatId, Texts.update_completed)])%list.

(** The tasks the status counts as done with. *)
Definition settled_count (d : Database) : nat :=
  count_status Status.completed (url_update_queue d) +
  count_status Status.failed (url_update_queue d).

(** From [w] to [w'] no settled task went back to pending, and the pending
    ones grew by no more than the queued counter. *)
Definition status_advances (w w' : World) : Prop :=
  settled_count (db w) <= settled_count (db w') /\
  count_status Status.pending (url_update_queue (db w')) + queued (stats w) <=
  count_status Status.pending (url_update_queue (db w)) + queued (stats w').

(** Printable ASCII other than the space. *)
Definition is_word_char (c : ascii) : bool :=
  let n := nat_of_ascii c in (33 <=? n) && (n <=? 126).

Fixpoint all_chars (p : ascii -> bool) (s : string) : bool :=
  match s with
  | EmptyString => true
  | String c t => p c && all_chars p t
  end.

(** A command word: not empty, printable ASCII without a space. *)
Definition is_word (s : string) : bool :=
  negb (String.eqb s "") && all_chars is_word_char s.

(** The five commands the bot knows. *)
Definition commands : list string :=
  ["/start"; "/update"; "/status"; "/help"; "/info"].

(** The notifications among the requests. *)
Definition is_telegram (e : Event) : bool :=
  match e with EvTelegram _ => true | _ => false end.

(** From [w] to [w'] no notification was sent. *)
Definition sends_nothing (w w' : World) : Prop :=
  exists l : list Event,
    trace w' = (trace w ++ l)%list /\ List.filter is_telegram l = [].

(** The entries of the three failure buckets together. *)
Definition buckets (s : Stats) : nat :=
  length (notFound (failures s)) + length (permissionDenied (failures s)) +
  length (apiError (failures s)).

(** The counters move together from [w] to [w']: every lookup ends as one
    more [updated] or one more [failed], every [updated] as one more update
    of a table, every record checked as one more [alreadyValid] or one more
    lookup, every lookup that is not for a record checked comes with one
    queue update, and the buckets take no more than [failed] grows by. *)
Definition accounts (w w' : World) : Prop :=
  exists l : list Event,
    trace w' = (trace w ++ l)%list /\
    updated (stats w') + failed (stats w') + apiCallsUsed (stats w) =
      updated (stats w) + failed (stats w) + apiCallsUsed (stats w') /\
    updated (stats w') + (episodesUpdated (stats w) + moviesUpdated (stats w)) =
      updated (stats w) + (episodesUpdated (stats w') + moviesUpdated (stats w')) /\
    totalChecked (stats w') + length (omap marked_id l) +
      (alreadyValid (stats w) + apiCallsUsed (stats w)) =
      totalChecked (stats w) +
      (alreadyValid (stats w') + apiCallsUsed (stats w')) /\
    buckets (stats w') + failed (stats w) <= buckets (stats w) + failed (stats w').

(** ** Vocabulary for the report *)

(** The heading and the last line of the report. *)
Definition report_top (date : string) : string :=
  "🔄 <b>CDN URL Update Report (24h Cycle)</b>" ++ Report.nl ++
  "━━━━━━━━━━━━━━━━━" ++ Report.nl ++
  "⏰ " ++ date ++ " UTC" ++ Report.nl ++ Report.nl.

Definition report_foot : string :=
  Report.nl ++ Report.nl ++ "🔄 Next update: 24 hours from now".

(** The two lists of titles of the report, made from these buckets. *)
Definition report_lists (f : Failures) : string :=
  Report.bucket "⚠️ <b>Videos Not Found" "❌" 5 (notFound f) ++
  Report.bucket "🔒 <b>Permission Denied" "🔒" 3 (permissionDenied f).



(** ** What [maxRedirects: 5] lets a call of [axios.head] do *)






(** ** Vocabulary for the run when a lookup throws *)

(** The world a run starts its [try] block in. *)
Definition started (env : Env) (w : World) : World :=
  snd (sendTelegram env start_message (reset env w)).

(** What the [try] block of the run from [w] throws, if it throws. *)
Definition thrown (o : Outside) (w : World) : option string :=
  match fst (Throwing.attempt o (started (schema o) w)) with
  | Returned _ => None
  | Thrown message => Some message
  end.

(** The world after a lookup that is made, counted, and then throws. *)
Definition counted_lookup (videoId : string) (w : World) : World :=
  {| stats := incr_apiCallsUsed (stats w); db := db w;
     trace := (trace w ++ [EvGraphGet videoId])%list |}.

(** An outside in which the lookup of video ["v1"] is answered off the
    schema, whatever else [Sample.env] answers. *)
Definition Sample_outside : Outside :=
  {| schema := Sample.env;
     off_schema := fun _ v =>
       if String.eqb v "v1" then Some "message.toLowerCase is not a function"
       else None;
     iso_date := fun _ => "2025-01-01T00:00:00.000Z" |}.

(** [Sample.env] with every lookup answered on the schema. *)
Definition Sample_on_schema : Outside :=
  {| schema := Sample.env;
     off_schema := fun _ _ => None;
     iso_date := fun _ => "2025-01-01T00:00:00.000Z" |}.


(** The requests made up to [w'] begin with the requests made up to [w]. *)
Definition carries_on (w w' : World) : Prop :=
  exists l : list Event, trace w' = (trace w ++ l)%list.

(** What a stretch of the [try] block comes to, [plain] being the world
    the same stretch ends in over the answers on the schema. Either it
    returns, and the world is [plain]; or it throws, and the world is the
    one right after the lookup that threw, made in a world [w0] that was
    reached from the start of the stretch, [R] telling how; up to and
    including that lookup the requests are those of the stretch over the
    schema. *)
Definition comes_to (o : Outside) (R : World -> World -> Prop) (w : World)
    (res : Outcome unit * World) (plain : World) : Prop :=
  match res with
  | (Returned _, w') => w' = plain
  | (Thrown message, w') =>
      exists w0 videoId,
        R w w0 /\
        off_schema o (length (trace w0)) videoId = Some message /\
        w' = counted_lookup videoId w0 /\
        carries_on w' plain
  end.

(** The world in which the [try] block entered in [w] ends when nothing
    throws: after drain, gate, sweep and report. *)
Definition plain_end (env : Env) (w : World) : World :=
  let w2 := snd (processQueue env w) in
  let w3 := if apiCallsUsed (stats w2) <? MAX_API_CALLS
            then snd (processFreshVideos env w2) else w2 in
  snd (sendTelegram env
         (Report.generateReport
            (locale_date env (clock env (length (trace w3))))
            (clock env (length (trace w3))) (stats w3)) w3).

(** The counters that move together whether or not a lookup throws: every
    lookup that returned ended as one more [updated] or one more [failed],
    every [updated] as one more update of a table, and the buckets take no
    more than [failed] grows by. *)
Definition tallies (w w' : World) : Prop :=
  updated (stats w') + failed (stats w') + apiCallsUsed (stats w) =
    updated (stats w) + failed (stats w) + apiCallsUsed (stats w') /\
  updated (stats w') + (episodesUpdated (stats w) + moviesUpdated (stats w)) =
    updated (stats w) + (episodesUpdated (stats w') + moviesUpdated (stats w')) /\
  buckets (stats w') + failed (stats w) <= buckets (stats w) + failed (stats w').

(** * Properties *)

(** The ceiling stays folded while reasoning about the loops. *)
Opaque MAX_API_CALLS.

Local Open Scope list_scope.

(** The operations are unfolded on request only. *)
Arguments isUrlValid : simpl never.
Arguments getFacebookVideoUrl : simpl never.
Arguments addToQueue : simpl never.
Arguments markQueueProcessed : simpl never.
Arguments updateVideoUrl : simpl never.
Arguments processQueueItem : simpl never.
Arguments sweepVideo : simpl never.
Arguments queueRemaining : simpl never.
Arguments sweepVideos : simpl never.
Arguments processQueueItems : simpl never.
Arguments sendTelegram : simpl never.

Ltac io :=
  unfold bind, ret, get_stats, modify_stats, get_db, set_db, tick, emit;
  simpl.

(** Split on the conditions of the conditionals left in the goal. *)
Ltac branches :=
  repeat match goal with
         | |- context [if ?c then _ else _] => destruct c eqn:?; simpl
         end.

(** ** The embedding at work *)

(** The drain query on a queue of four tasks, limit two: the two oldest
    pending ones, oldest first; the completed one is skipped. *)
Example selectPendingQueue_sample :
  map q_id
    (selectPendingQueue 2
       [Sample.task 1 Status.pending 40; Sample.task 2 Status.completed 10;
        Sample.task 3 Status.pending 20; Sample.task 4 Status.pending 30]) =
  [3%Z; 4%Z].
Proof. vm_compute. reflexivity. Qed.

(** Classification: the code decides before the message does only within
    one rule; across rules the order of the rules decides. *)
Example classify_samples :
  result_kind (classify {| fb_code := Some 100%Z; fb_message := None |}) =
    Some not_found /\
  result_kind (classify {| fb_code := Some 10%Z;
                           fb_message := Some "Application request limit" |}) =
    Some permission_denied /\
  result_kind (classify {| fb_code := None;
                           fb_message := Some "User RATE LIMIT reached" |}) =
    Some rate_limit /\
  classify {| fb_code := Some 1%Z; fb_message := Some "Unknown" |} =
    Failure api_error "API error: Unknown" /\
  result_kind (classify {| fb_code := Some 4%Z;
                           fb_message := Some "No Permission" |}) =
    Some permission_denied.
Proof. repeat split; vm_compute; reflexivity. Qed.

(** A whole run on [Sample.db_expired] with a fresh budget: three probes,
    three lookups, three updates, and the all-updated closing line. *)
Example processUrlUpdates_sample :
  let w' := snd (processUrlUpdates Sample.env (Sample.world 5 Sample.db_expired)) in
  (totalChecked (stats w'), updated (stats w'), failed (stats w'),
   queued (stats w'), apiCallsUsed (stats w')) = (3, 3, 0, 0, 3) /\
  map videoUrl (episodes (db w') ++ movies (db w')) =
    [Some "https://cdn/new"; Some "https://cdn/new"; Some "https://cdn/new"] /\
  Report.closing_line (stats w') = Report.all_updated_line /\
  length (trace w') = 14.
Proof. cbv zeta. repeat split; vm_compute; reflexivity. Qed.

(** Whole seconds of a duration in milliseconds. *)
Example toFixed0_samples :
  map Report.toFixed0 [0; 499; 500; 61499; -500; -499]%Z = [0; 0; 1; 61; -1; 0]%Z.
Proof. vm_compute. reflexivity. Qed.

(** ** Effects of the single operations *)

Section Effects.

Variable env : Env.

(** The resolver issues one Graph request, bumps the call counter and
    touches nothing else. *)
Lemma getFacebookVideoUrl_world videoId w :
  snd (getFacebookVideoUrl env videoId w) =
  {| stats := incr_apiCallsUsed (stats w); db := db w;
     trace := trace w ++ [EvGraphGet videoId] |}.
Proof.
  unfold getFacebookVideoUrl; io.
  destruct (graph_get env (length (trace w)) videoId) as [[u|]|[e|] m]; io;
    branches; reflexivity.
Qed.

Lemma getFacebookVideoUrl_result videoId w :
  fst (getFacebookVideoUrl env videoId w) =
  match graph_get env (length (trace w)) videoId with
  | GetResolved (Some u) =>
      if Js.truthy (Some u) then Success u
      else Failure no_source "No source URL found"
  | GetResolved None => Failure no_source "No source URL found"
  | GetRejected (Some e) _ => classify e
  | GetRejected None m => Failure network_error m
  end.
Proof.
  unfold getFacebookVideoUrl; io.
  destruct (graph_get env (length (trace w)) videoId) as [[u|]|[e|] m]; io;
    branches; reflexivity.
Qed.

End Effects.

(** ** Source resolver *)

(** C1. Every call of [getFacebookVideoUrl] leaves [stats.apiCallsUsed]
    exactly one higher than it found it, whatever the Graph API answered:
    a source, no source, a provider error or no response at all. *)
Theorem getFacebookVideoUrl_counts_once (env : Env) (videoId : string) (w : World) :
  apiCallsUsed (stats (snd (getFacebookVideoUrl env videoId w))) =
  S (apiCallsUsed (stats w)).
Proof. rewrite getFacebookVideoUrl_world. reflexivity. Qed.

(** C5, as the specification states it, fails: a request that succeeds but
    carries no [source] is a failure of a sixth kind, [no_source], which is
    none of the kinds listed. *)
Lemma resolver_no_source_unlisted :
  let r := fst (getFacebookVideoUrl Sample.env "v9"
                  (Sample.world 0 Sample.empty_db)) in
  r = Failure no_source "No source URL found" /\
  ~ In (error_name no_source) Rules.listed_kinds.
Proof.
  split; [reflexivity |].
  simpl. intros H.
  repeat (destruct H as [H | H]; [discriminate H |]). exact H.
Qed.

Lemma classify_kind_by_rules (e : FbError) :
  result_kind (classify e) = Some (Rules.kind_of e).
Proof.
  unfold classify, Rules.kind_of, Rules.table, Rules.applies. simpl.
  rewrite !orb_false_r.
  destruct (code_is (fb_code e) 100
            || Js.includes (Js.toLowerCase (Js.or_else (fb_message e) ""))
                 "does not exist"); [reflexivity |].
  destruct (code_is (fb_code e) 200 || code_is (fb_code e) 10
            || Js.includes (Js.toLowerCase (Js.or_else (fb_message e) ""))
                 "permission"); [reflexivity |].
  destruct (code_is (fb_code e) 4 || code_is (fb_code e) 17
            || Js.includes (Js.toLowerCase (Js.or_else (fb_message e) ""))
                 "rate limit"); reflexivity.
Qed.

Lemma toLowerCase_idempotent (s : string) :
  Js.toLowerCase (Js.toLowerCase s) = Js.toLowerCase s.
Proof.
  induction s as [|c s IH]; simpl; [reflexivity |].
  f_equal; [| exact IH].
  unfold Js.lower_ascii.
  destruct ((65 <=? nat_of_ascii c) && (nat_of_ascii c <=? 90)) eqn:Hc.
  - apply andb_true_iff in Hc as [H1 H2].
    apply Nat.leb_le in H1. apply Nat.leb_le in H2.
    rewrite nat_ascii_embedding by lia.
    replace (nat_of_ascii c + 32 <=? 90) with false
      by (symmetry; apply Nat.leb_gt; lia).
    rewrite andb_false_r. reflexivity.
  - rewrite Hc. reflexivity.
Qed.

(** C5 (amended). The failure kind of [getFacebookVideoUrl] is decided as
    follows. A request that succeeds without a usable [source] gives
    [no_source]; a rejection without a provider error body gives
    [network_error] with the transport's message; a rejection with a
    provider error body gives the kind of the first rule, in the order
    [not_found], [permission_denied], [rate_limit], that applies by its
    code or by its phrase in the lower-cased message, and [api_error] when
    no rule applies. A success is returned only for a non-empty [source].
    The letter case of the provider's message does not matter. *)
Theorem getFacebookVideoUrl_failure_kinds (env : Env) (videoId : string) (w : World) :
  let outcome := graph_get env (length (trace w)) videoId in
  let kind := result_kind (fst (getFacebookVideoUrl env videoId w)) in
  (forall source, outcome = GetResolved source ->
     kind = if Js.truthy source then None else Some no_source) /\
  (forall m, outcome = GetRejected None m ->
     fst (getFacebookVideoUrl env videoId w) = Failure network_error m) /\
  (forall e m, outcome = GetRejected (Some e) m ->
     kind = Some (Rules.kind_of e)) /\
  (forall e e',
     fb_code e = fb_code e' ->
     Js.toLowerCase (Js.or_else (fb_message e) "") =
     Js.toLowerCase (Js.or_else (fb_message e') "") ->
     Rules.kind_of e = Rules.kind_of e' /\
     result_kind (classify e) = result_kind (classify e')).
Proof.
  cbv zeta. rewrite getFacebookVideoUrl_result.
  repeat split.
  - intros source ->. destruct source as [u|]; [| reflexivity].
    simpl. destruct (negb (u =? "")%string); reflexivity.
  - intros m ->. reflexivity.
  - intros e m ->. apply classify_kind_by_rules.
  - unfold Rules.kind_of, Rules.table, Rules.applies. simpl.
    rewrite H, H0. reflexivity.
  - rewrite !classify_kind_by_rules.
    unfold Rules.kind_of, Rules.table, Rules.applies. simpl.
    rewrite H, H0. reflexivity.
Qed.

(** The amended C5 at a rejection whose code is the permission code 200 and
    whose message, in mixed case, says the object does not exist: the
    higher-priority rule wins by its phrase. *)
Lemma getFacebookVideoUrl_failure_kinds_witness :
  graph_get Sample.env 0 "v2" =
    GetRejected (Some {| fb_code := Some 200%Z;
                         fb_message := Some "Object DOES NOT Exist" |})
                "Request failed with status code 400" /\
  result_kind (fst (getFacebookVideoUrl Sample.env "v2"
                      (Sample.world 0 Sample.empty_db))) =
  Some not_found.
Proof.
  split; [reflexivity |].
  exact (proj1 (proj2 (proj2
           (getFacebookVideoUrl_failure_kinds Sample.env "v2"
              (Sample.world 0 Sample.empty_db))))
           _ _ eq_refl).
Defined.

(** ** Validity prober *)

(** C6. For a URL that is [null], empty or the sentinel ['NULL'],
    [isUrlValid] answers [false] and leaves the world as it was: no
    request of any kind is issued. *)
Theorem isUrlValid_null_empty_sentinel (env : Env) (url : option string) (w : World) :
  url = None \/ url = Some "" \/ url = Some "NULL" ->
  isUrlValid env url w = (false, w) /\
  trace (snd (isUrlValid env url w)) = trace w /\
  List.filter is_network (issued w (snd (isUrlValid env url w))) = [].
Proof.
  assert (Hnone : List.filter is_network (issued w w) = []).
  { unfold issued. rewrite drop_all. reflexivity. }
  intros [-> | [-> | ->]]; (split; [reflexivity |]); split;
    try reflexivity; exact Hnone.
Qed.

Lemma isUrlValid_null_empty_sentinel_witness :
  (Some "NULL" = None \/ Some "NULL" = Some "" \/ Some "NULL" = Some "NULL") /\
  isUrlValid Sample.env (Some "NULL") (Sample.world 0 Sample.db_live) =
  (false, Sample.world 0 Sample.db_live).
Proof.
  split; [right; right; reflexivity |].
  apply (proj1 (isUrlValid_null_empty_sentinel Sample.env (Some "NULL")
                  (Sample.world 0 Sample.db_live)
                  (or_intror (or_intror eq_refl)))).
Defined.

(** ** Single-item diagnostic *)

(** The loops, one turn unfolded. *)
Lemma processQueueItems_cons (env : Env) (item : QueueRow)
    (rest : list QueueRow) (w : World) :
  processQueueItems env (item :: rest) w =
  if MAX_API_CALLS <=? apiCallsUsed (stats w) then (tt, w)
  else processQueueItems env rest (snd (processQueueItem env item w)).
Proof.
  unfold processQueueItems at 1. fold (processQueueItems env). io.
  destruct (MAX_API_CALLS <=? apiCallsUsed (stats w)); [reflexivity |].
  destruct (processQueueItem env item w). reflexivity.
Qed.

Lemma sweepVideos_cons (env : Env) (tableName : string) (video : Video)
    (rest : list Video) (w : World) :
  sweepVideos env tableName (video :: rest) w =
  if MAX_API_CALLS <=? apiCallsUsed (stats w)
  then queueRemaining env tableName (video :: rest) w
  else sweepVideos env tableName rest (snd (sweepVideo env tableName video w)).
Proof.
  unfold sweepVideos at 1. fold (sweepVideos env). io.
  destruct (MAX_API_CALLS <=? apiCallsUsed (stats w)); [reflexivity |].
  destruct (sweepVideo env tableName video w). reflexivity.
Qed.

Lemma queueRemaining_cons (env : Env) (tableName : string) (v : Video)
    (rest : list Video) (w : World) :
  queueRemaining env tableName (v :: rest) w =
  let r := addToQueue env tableName (id v) (video_id_of v)
             (Some (video_url_of v)) (video_title_of v) w in
  queueRemaining env tableName rest
    (if fst r
     then snd (modify_stats (fun s => set_queued (S (queued s)) s) (snd r))
     else snd r).
Proof.
  unfold queueRemaining at 1. fold (queueRemaining env). unfold bind at 1 2.
  destruct (addToQueue env tableName (id v) (video_id_of v)
              (Some (video_url_of v)) (video_title_of v) w) as [[|] w1];
    reflexivity.
Qed.

Lemma processQueueItems_exhausted (env : Env) (items : list QueueRow) (w : World) :
  MAX_API_CALLS <= apiCallsUsed (stats w) ->
  processQueueItems env items w = (tt, w).
Proof.
  intros H. destruct items as [|item rest]; [reflexivity |].
  rewrite processQueueItems_cons.
  apply Nat.leb_le in H. rewrite H. reflexivity.
Qed.

Lemma sweepVideos_exhausted (env : Env) (tableName : string)
    (videos : list Video) (w : World) :
  MAX_API_CALLS <= apiCallsUsed (stats w) ->
  sweepVideos env tableName videos w = queueRemaining env tableName videos w.
Proof.
  intros H. destruct videos as [|video rest]; [reflexivity |].
  rewrite sweepVideos_cons.
  apply Nat.leb_le in H. rewrite H. reflexivity.
Qed.

(** C9. [testFacebookVideo] returns what the resolver returns and, in the
    world, does exactly what the resolver does: [stats.apiCallsUsed] goes up
    by one, so the calls remaining to a run that shares [stats] go down by
    one, while the database is untouched and the only request issued is the
    Graph lookup. A run that had one call left has none afterwards: its
    drain loop stops at the next task and its sweep queues every record it
    still had to look at. *)
Theorem testFacebookVideo_spends_run_budget (env : Env) (videoId : string) (w : World) :
  let w' := snd (testFacebookVideo env videoId w) in
  fst (testFacebookVideo env videoId w) = fst (getFacebookVideoUrl env videoId w) /\
  apiCallsUsed (stats w') = S (apiCallsUsed (stats w)) /\
  calls_remaining (stats w') = calls_remaining (stats w) - 1 /\
  db w' = db w /\
  trace w' = trace w ++ [EvGraphGet videoId] /\
  List.filter is_database (issued w w') = [] /\
  (calls_remaining (stats w) = 1 ->
   (forall items, processQueueItems env items w' = (tt, w')) /\
   (forall tableName videos,
      sweepVideos env tableName videos w' =
      queueRemaining env tableName videos w')).
Proof.
  assert (E : testFacebookVideo env videoId w = getFacebookVideoUrl env videoId w).
  { unfold testFacebookVideo, bind, ret.
    destruct (getFacebookVideoUrl env videoId w). reflexivity. }
  cbv zeta. rewrite E, getFacebookVideoUrl_world.
  unfold calls_remaining. simpl.
  split; [reflexivity |]. split; [reflexivity |]. split; [lia |].
  split; [reflexivity |]. split; [reflexivity |].
  split; [unfold issued; simpl; rewrite drop_app_length; reflexivity |].
  intros Hone. split.
  - intros items. apply processQueueItems_exhausted. simpl. lia.
  - intros tableName videos. apply sweepVideos_exhausted. simpl. lia.
Qed.

Lemma testFacebookVideo_spends_run_budget_witness :
  calls_remaining (stats (Sample.world 189 Sample.db_one_task)) = 1 /\
  processQueueItems Sample.env (url_update_queue Sample.db_one_task)
    (snd (testFacebookVideo Sample.env "v1" (Sample.world 189 Sample.db_one_task))) =
  (tt, snd (testFacebookVideo Sample.env "v1" (Sample.world 189 Sample.db_one_task))).
Proof.
  split; [vm_compute; reflexivity |].
  apply (testFacebookVideo_spends_run_budget Sample.env "v1"
           (Sample.world 189 Sample.db_one_task)).
  vm_compute; reflexivity.
Defined.

(** ** Deferred-work store: the drain query *)

Global Instance created_le_transitive : Transitive created_le.
Proof. intros a b c. unfold created_le. lia. Qed.

Global Instance created_le_total : Total created_le.
Proof. intros a b. unfold created_le. lia. Qed.

Lemma Status_eqb_eq (a b : Status.t) : Status.eqb a b = true <-> a = b.
Proof. destruct a, b; simpl; split; congruence. Qed.

Lemma pending_sorted (q : list QueueRow) :
  let sorted := merge_sort created_le (List.filter is_pending q) in
  StronglySorted created_le sorted /\
  sorted ≡ₚ List.filter is_pending q /\
  Forall (fun r => status r = Status.pending /\ In r q) sorted.
Proof.
  cbv zeta. split; [apply StronglySorted_merge_sort; apply _ |].
  split; [apply merge_sort_Permutation |].
  apply Forall_forall. intros r Hr.
  rewrite merge_sort_Permutation in Hr.
  apply list_elem_of_In, filter_In in Hr as [Hin Hp].
  split; [apply Status_eqb_eq; exact Hp | exact Hin].
Qed.

(** C3. Whatever the limit and whatever the queue holds, the drain query
    [selectPendingQueue] returns at most [limit] rows (exactly [limit] when
    that many are pending, all of them otherwise); the rows are pending
    rows of the queue, in ascending [created_at] order; and every pending
    row left out was created no earlier than every row returned. *)
Theorem selectPendingQueue_bounded_oldest_first (limit : nat) (q : list QueueRow) :
  let tasks := selectPendingQueue limit q in
  length tasks <= limit /\
  length tasks = Nat.min limit (length (List.filter is_pending q)) /\
  Forall (fun r => status r = Status.pending /\ In r q) tasks /\
  StronglySorted created_le tasks /\
  exists later,
    tasks ++ later ≡ₚ List.filter is_pending q /\
    Forall (fun r' => Forall (fun r => created_le r r') tasks) later.
Proof.
  cbv zeta. unfold selectPendingQueue.
  destruct (pending_sorted q) as (Hsorted & Hperm & Hall).
  set (sorted := merge_sort created_le (List.filter is_pending q)) in *.
  assert (Hlen : length (take limit sorted) =
                 Nat.min limit (length (List.filter is_pending q))).
  { rewrite length_take, Hperm. reflexivity. }
  split; [rewrite Hlen; lia |].
  split; [exact Hlen |].
  split; [apply Forall_take; exact Hall |].
  rewrite <- (take_drop limit sorted) in Hsorted.
  split; [apply (StronglySorted_app_1_l _ _ _ Hsorted) |].
  exists (drop limit sorted).
  split; [rewrite take_drop; exact Hperm |].
  apply Forall_forall. intros r' Hr'. apply Forall_forall. intros r Hr.
  exact (StronglySorted_app_1_elem_of _ _ _ _ _ Hsorted Hr Hr').
Qed.

(** ** Effects of the remaining operations *)

Section MoreEffects.

Variable env : Env.

Lemma isUrlValid_world url w :
  stats (snd (isUrlValid env url w)) = stats w /\
  db (snd (isUrlValid env url w)) = db w /\
  (trace (snd (isUrlValid env url w)) = trace w \/
   exists u, url = Some u /\
             trace (snd (isUrlValid env url w)) = trace w ++ [EvHead u]).
Proof.
  unfold isUrlValid. destruct url as [u|]; [| simpl; auto].
  destruct (negb (Js.truthy (Some u)) || String.eqb u "NULL" || String.eqb u "");
    [simpl; auto |].
  io.
  assert (Hev : stats w = stats w /\ db w = db w /\
            (trace w ++ [EvHead u] = trace w \/
             exists u0, Some u = Some u0 /\
                        trace w ++ [EvHead u] = trace w ++ [EvHead u0])).
  { split; [reflexivity |]. split; [reflexivity |].
    right. exists u. split; reflexivity. }
  destruct (http_head env (length (trace w)) u) as [st|]; simpl.
  - destruct (Z.eqb st 200); exact Hev.
  - exact Hev.
Qed.

(** A record update that reports failure changed nothing. *)
Lemma updateVideoUrl_failed tableName rowId newUrl w :
  fst (updateVideoUrl env tableName rowId newUrl w) = false ->
  stats (snd (updateVideoUrl env tableName rowId newUrl w)) = stats w /\
  db (snd (updateVideoUrl env tableName rowId newUrl w)) = db w /\
  (trace (snd (updateVideoUrl env tableName rowId newUrl w)) = trace w \/
   trace (snd (updateVideoUrl env tableName rowId newUrl w)) =
   trace w ++ [EvTableUpdate tableName rowId newUrl]).
Proof.
  unfold updateVideoUrl.
  destruct (String.eqb tableName "episodes").
  - io. destruct (table_update_ok env (length (trace w)) tableName); simpl;
      [discriminate | auto].
  - destruct (String.eqb tableName "movies").
    + io. destruct (table_update_ok env (length (trace w)) tableName); simpl;
        [discriminate | auto].
    + simpl. auto.
Qed.

(** A record update never touches the queue or the call counter. *)
Lemma updateVideoUrl_frame tableName rowId newUrl w :
  let w' := snd (updateVideoUrl env tableName rowId newUrl w) in
  url_update_queue (db w') = url_update_queue (db w) /\
  queue_next_id (db w') = queue_next_id (db w) /\
  apiCallsUsed (stats w') = apiCallsUsed (stats w) /\
  queued (stats w') = queued (stats w) /\
  (trace w' = trace w \/
   trace w' = trace w ++ [EvTableUpdate tableName rowId newUrl]).
Proof.
  cbv zeta. unfold updateVideoUrl.
  destruct (String.eqb tableName "episodes").
  - io. destruct (table_update_ok env (length (trace w)) tableName); simpl; auto 6.
  - destruct (String.eqb tableName "movies").
    + io. destruct (table_update_ok env (length (trace w)) tableName); simpl; auto 6.
    + simpl. auto 6.
Qed.

Lemma markQueueProcessed_world queueId st msg w :
  snd (markQueueProcessed env queueId st msg w) =
  {| stats := stats w;
     db := if queue_update_ok env (length (trace w))
           then with_queue
                  (map (mark_row queueId st (clock env (length (trace w))) msg)
                       (url_update_queue (db w)))
                  (queue_next_id (db w)) (db w)
           else db w;
     trace := trace w ++ [EvQueueUpdate queueId st msg] |}.
Proof.
  unfold markQueueProcessed. io.
  destruct (queue_update_ok env (length (trace w))); reflexivity.
Qed.

End MoreEffects.

Lemma mark_row_same_task queueId st now msg r :
  same_task r (mark_row queueId st now msg r).
Proof.
  unfold mark_row, same_task. destruct (Z.eqb (q_id r) queueId); simpl; tauto.
Qed.

Lemma mark_row_hit queueId st now msg r :
  q_id r = queueId ->
  status (mark_row queueId st now msg r) = st /\
  error_message (mark_row queueId st now msg r) = msg /\
  processed_at (mark_row queueId st now msg r) = Some now.
Proof.
  intros <-. unfold mark_row. rewrite Z.eqb_refl. simpl. tauto.
Qed.

Lemma mark_row_miss queueId st now msg r :
  q_id r <> queueId -> mark_row queueId st now msg r = r.
Proof.
  intros H. unfold mark_row. apply Z.eqb_neq in H. rewrite H. reflexivity.
Qed.

Lemma issued_app (w w' : World) (l : list Event) :
  trace w' = trace w ++ l -> issued w w' = l.
Proof. intros H. unfold issued. rewrite H. apply drop_app_length. Qed.

(** ** Sweep phase: a resolved URL that cannot be written *)

Lemma append_assoc (a b c : string) : ((a +:+ b) +:+ c = a +:+ (b +:+ c))%string.
Proof.
  induction a as [|x a IH]; [reflexivity |].
  change ((String x a +:+ b) +:+ c) with (String x ((a +:+ b) +:+ c)).
  change (String x a +:+ (b +:+ c)) with (String x (a +:+ (b +:+ c))).
  f_equal. exact IH.
Qed.

(** The report, piece by piece. *)
Lemma generateReport_pieces (date : string) (now : Z) (s : Stats) :
  Report.generateReport date now s =
  (report_top date ++ Report.summary s ++ Report.by_table s ++
   Report.usage now s ++ report_lists (failures s) ++
   Report.closing_line s ++ report_foot)%string.
Proof.
  unfold Report.generateReport, report_top, report_lists, report_foot.
  rewrite !append_assoc. reflexivity.
Qed.

(** What the turn does to the statistics, the database and the log. *)
Lemma sweepVideo_write_failure_core (env : Env) (tableName : string)
    (video : Video) (w : World) (url : string) :
  let w1 := snd (isUrlValid env (Some (video_url_of video)) (checked w)) in
  let w2 := snd (getFacebookVideoUrl env (video_id_of video) w1) in
  fst (isUrlValid env (Some (video_url_of video)) (checked w)) = false ->
  fst (getFacebookVideoUrl env (video_id_of video) w1) = Success url ->
  fst (updateVideoUrl env tableName (id video) url w2) = false ->
  let w' := snd (sweepVideo env tableName video w) in
  stats w' =
    set_failed (S (failed (stats w)))
      (set_apiCallsUsed (S (apiCallsUsed (stats w)))
         (set_totalChecked (S (totalChecked (stats w))) (stats w))) /\
  failed (stats w') = S (failed (stats w)) /\
  failures (stats w') = failures (stats w) /\
  queued (stats w') = queued (stats w) /\
  db w' = db w /\
  Forall (fun e => is_queue_insert e = false) (issued w w').
Proof.
  intros w1 w2 Hprobe Hres Hupd w'.
  set (w3 := snd (updateVideoUrl env tableName (id video) url w2)).
  assert (Hw' : w' = {| stats := set_failed (S (failed (stats w3))) (stats w3);
                        db := db w3; trace := trace w3 |}).
  { subst w' w3 w2 w1. unfold checked in *.
    unfold sweepVideo, bind, modify_stats in *. simpl in *.
    destruct (isUrlValid env (Some (video_url_of video)) _)
      as [valid u1]. simpl in *. subst valid.
    destruct (getFacebookVideoUrl env (video_id_of video) u1) as [res u2].
    simpl in *. subst res.
    destruct (updateVideoUrl env tableName (id video) url u2) as [ok u3].
    simpl in *. subst ok. reflexivity. }
  destruct (isUrlValid_world env (Some (video_url_of video)) (checked w))
    as (Hs1 & Hd1 & Ht1).
  fold w1 in Hs1, Hd1, Ht1.
  pose proof (getFacebookVideoUrl_world env (video_id_of video) w1) as Hw2.
  fold w2 in Hw2.
  destruct (updateVideoUrl_failed env tableName (id video) url w2 Hupd)
    as (Hs3 & Hd3 & Ht3).
  fold w3 in Hs3, Hd3, Ht3.
  assert (Hstats : stats w3 =
                   incr_apiCallsUsed
                     (set_totalChecked (S (totalChecked (stats w))) (stats w))).
  { rewrite Hs3, Hw2. simpl. rewrite Hs1. reflexivity. }
  assert (Hdb : db w3 = db w).
  { rewrite Hd3, Hw2. simpl. exact Hd1. }
  assert (Htr : exists l, trace w3 = trace w ++ l /\
                          Forall (fun e => is_queue_insert e = false) l).
  { rewrite Hw2 in Ht3. simpl in Ht3.
    destruct Ht1 as [Ht1 | (u & _ & Ht1)], Ht3 as [Ht3 | Ht3];
      rewrite Ht3, Ht1; simpl; rewrite <- ?app_assoc;
      eexists; (split; [reflexivity |]); repeat constructor. }
  clearbody w' w3. subst w'. simpl. rewrite Hstats, Hdb. simpl.
  repeat (split; [reflexivity |]).
  destruct Htr as (l & Hl & Hall).
  erewrite issued_app; [exact Hall | exact Hl].
Qed.

(** C10. In a turn of the sweep where the probe says invalid, the resolver
    succeeds and [updateVideoUrl] reports failure, the statistics change in
    three counters only: [totalChecked], [apiCallsUsed] and [failed] each go
    up by one. In particular no failure bucket gets an entry. The database
    is as before (no queue row is created, the record keeps its URL), and
    no insert into the queue is even attempted. In the report made from
    these statistics the failure shows as a count and nowhere else: the
    summary's [Failed] line reads one more than before, and the two lists of
    titles are made from the buckets as they were before the turn, so the
    record is not named. *)
Theorem sweepVideo_write_failure_anonymous (env : Env) (tableName : string)
    (video : Video) (w : World) (url : string) :
  let w1 := snd (isUrlValid env (Some (video_url_of video)) (checked w)) in
  let w2 := snd (getFacebookVideoUrl env (video_id_of video) w1) in
  fst (isUrlValid env (Some (video_url_of video)) (checked w)) = false ->
  fst (getFacebookVideoUrl env (video_id_of video) w1) = Success url ->
  fst (updateVideoUrl env tableName (id video) url w2) = false ->
  let w' := snd (sweepVideo env tableName video w) in
  stats w' =
    set_failed (S (failed (stats w)))
      (set_apiCallsUsed (S (apiCallsUsed (stats w)))
         (set_totalChecked (S (totalChecked (stats w))) (stats w))) /\
  failed (stats w') = S (failed (stats w)) /\
  failures (stats w') = failures (stats w) /\
  queued (stats w') = queued (stats w) /\
  db w' = db w /\
  Forall (fun e => is_queue_insert e = false) (issued w w') /\
  (forall date now,
     Report.generateReport date now (stats w') =
     (report_top date ++ Report.summary (stats w') ++
      Report.by_table (stats w') ++ Report.usage now (stats w') ++
      report_lists (failures (stats w)) ++
      Report.closing_line (stats w') ++ report_foot)%string) /\
  Report.summary (stats w') =
    ("📊 <b>Summary:</b>" ++ Report.nl ++
     "✅ Total Checked: " ++ pretty (S (totalChecked (stats w))) ++ Report.nl ++
     "🟢 Already Valid: " ++ pretty (alreadyValid (stats w)) ++ Report.nl ++
     "🔄 Successfully Updated: " ++ pretty (updated (stats w)) ++ Report.nl ++
     "❌ Failed: " ++ pretty (S (failed (stats w))) ++ Report.nl ++
     (if (0 <? queued (stats w))%nat
      then "⏳ Queued for Next Run: " ++ pretty (queued (stats w)) ++ Report.nl
      else ""))%string.
Proof.
  intros w1 w2 Hprobe Hres Hupd w'.
  destruct (sweepVideo_write_failure_core env tableName video w url
              Hprobe Hres Hupd) as (Hs & Hf & Hb & Hq & Hd & Hi).
  fold w' in Hs, Hf, Hb, Hq, Hd, Hi.
  repeat (split; [assumption |]).
  split.
  - intros date now. rewrite generateReport_pieces, Hb. reflexivity.
  - rewrite Hs. reflexivity.
Qed.

(** The turn for episode 1 of [Sample.db_expired] when the database rejects
    writes: probe 403, resolver success, update refused. *)
Lemma sweepVideo_write_failure_anonymous_witness :
  let video := {| id := 1; video_title_of := Some "Pilot";
                  video_url_of := "https://cdn/e1"; video_id_of := "v1" |} in
  let w := Sample.world 0 Sample.db_expired in
  failed (stats (snd (sweepVideo Sample.env_db_down "episodes" video w))) = 1 /\
  failures (stats (snd (sweepVideo Sample.env_db_down "episodes" video w))) =
    no_failures /\
  db (snd (sweepVideo Sample.env_db_down "episodes" video w)) = Sample.db_expired.
Proof.
  cbv zeta.
  pose proof (sweepVideo_write_failure_anonymous Sample.env_db_down "episodes"
                {| id := 1; video_title_of := Some "Pilot";
                   video_url_of := "https://cdn/e1"; video_id_of := "v1" |}
                (Sample.world 0 Sample.db_expired) "https://cdn/new"
                eq_refl eq_refl eq_refl) as H.
  cbv zeta in H. destruct H as (_ & Hf & Hb & _ & Hd & _).
  split; [exact Hf |]. split; [exact Hb | exact Hd].
Defined.

(** ** Drain phase: a resolved URL that cannot be written *)

(** C7, as the specification states it, fails in two ways. When the store
    that refused the record update also refuses the queue update, the task
    stays [pending] (the result of the queue update is never looked at).
    And when the queue update goes through, the message stored is
    ["Database update failed"], with a capital letter. *)
Lemma drain_write_failure_left_pending :
  let item := Sample.task 1 Status.pending 10 in
  let w := Sample.world 0 Sample.db_one_task in
  let orphan :=
    {| q_id := 1; table_name := "series"; row_id := 1;
       facebook_video_id := "v1"; old_url := None; video_title := None;
       status := Status.pending; error_message := None; created_at := 10;
       processed_at := None |} in
  let w_orphan :=
    Sample.world 0 (with_queue [orphan] 2 Sample.empty_db) in
  (fst (getFacebookVideoUrl Sample.env_db_down "v1" w) = Success "https://cdn/new" /\
   fst (updateVideoUrl Sample.env_db_down "episodes" 1 "https://cdn/new"
          (snd (getFacebookVideoUrl Sample.env_db_down "v1" w))) = false /\
   map status
       (url_update_queue (db (snd (processQueueItem Sample.env_db_down item w)))) =
   [Status.pending]) /\
  (fst (getFacebookVideoUrl Sample.env "v1" w_orphan) = Success "https://cdn/new" /\
   fst (updateVideoUrl Sample.env "series" 1 "https://cdn/new"
          (snd (getFacebookVideoUrl Sample.env "v1" w_orphan))) = false /\
   map error_message
       (url_update_queue (db (snd (processQueueItem Sample.env orphan w_orphan)))) =
   [Some "Database update failed"] /\
   "Database update failed" <> "database update failed").
Proof.
  cbv zeta. repeat split; try (vm_compute; reflexivity).
  discriminate.
Qed.

(** C7 (amended). In a turn of the drain where the resolver succeeds and
    [updateVideoUrl] reports failure, [markQueueProcessed] is called for the
    task with status [failed] and message ["Database update failed"], and
    [stats.failed] goes up by one; no failure bucket gets an entry. If the
    queue store applies that update, every row with the task's id is
    [failed] with that message and a processed time, so the task, if it was
    in the queue, is no longer pending; if the store refuses the update,
    the database is left as it was. *)
Theorem processQueueItem_write_failure (env : Env) (item : QueueRow)
    (w : World) (url : string) :
  let w1 := snd (getFacebookVideoUrl env (facebook_video_id item) w) in
  let w2 := snd (updateVideoUrl env (table_name item) (row_id item) url w1) in
  let now := clock env (length (trace w2)) in
  let mark := mark_row (q_id item) Status.failed now
                (Some "Database update failed") in
  fst (getFacebookVideoUrl env (facebook_video_id item) w) = Success url ->
  fst (updateVideoUrl env (table_name item) (row_id item) url w1) = false ->
  let w' := snd (processQueueItem env item w) in
  failed (stats w') = S (failed (stats w)) /\
  failures (stats w') = failures (stats w) /\
  trace w' =
    trace w2 ++ [EvQueueUpdate (q_id item) Status.failed
                   (Some "Database update failed")] /\
  (queue_update_ok env (length (trace w2)) = true ->
   url_update_queue (db w') = map mark (url_update_queue (db w)) /\
   (forall r, In r (url_update_queue (db w')) -> q_id r = q_id item ->
      status r = Status.failed /\
      error_message r = Some "Database update failed" /\
      processed_at r = Some now) /\
   (In item (url_update_queue (db w)) ->
    In (mark item) (url_update_queue (db w')) /\
    status (mark item) = Status.failed)) /\
  (queue_update_ok env (length (trace w2)) = false -> db w' = db w).
Proof.
  intros w1 w2 now mark Hres Hupd w'.
  assert (Hw' : w' =
                snd (modify_stats (fun s => set_failed (S (failed s)) s)
                       (snd (markQueueProcessed env (q_id item) Status.failed
                               (Some "Database update failed") w2)))).
  { subst w' w2 w1. unfold processQueueItem, bind.
    destruct (getFacebookVideoUrl env (facebook_video_id item) w) as [res u1].
    simpl in *. subst res.
    destruct (updateVideoUrl env (table_name item) (row_id item) url u1)
      as [ok u2].
    simpl in *. subst ok.
    destruct (markQueueProcessed env (q_id item) Status.failed
                (Some "Database update failed") u2) as [[] u3].
    reflexivity. }
  pose proof (getFacebookVideoUrl_world env (facebook_video_id item) w) as Hw1.
  fold w1 in Hw1.
  destruct (updateVideoUrl_failed env (table_name item) (row_id item) url w1 Hupd)
    as (Hs2 & Hd2 & _).
  fold w2 in Hs2, Hd2.
  assert (Hdb2 : db w2 = db w) by (rewrite Hd2, Hw1; reflexivity).
  assert (Hst2 : stats w2 = incr_apiCallsUsed (stats w))
    by (rewrite Hs2, Hw1; reflexivity).
  rewrite markQueueProcessed_world in Hw'. fold now in Hw'.
  clearbody w' w2. subst w'. simpl. rewrite Hst2, Hdb2. simpl.
  split; [reflexivity |]. split; [reflexivity |]. split; [reflexivity |].
  split.
  - intros Hok. rewrite Hok. simpl. fold mark.
    split; [reflexivity |]. split.
    + intros r Hin Hid. apply in_map_iff in Hin as (r0 & <- & _).
      apply mark_row_hit.
      destruct (mark_row_same_task (q_id item) Status.failed now
                  (Some "Database update failed") r0) as (Hq & _).
      fold mark in Hq. congruence.
    + intros Hin. split; [apply in_map; exact Hin |].
      apply mark_row_hit. reflexivity.
  - intros Hno. rewrite Hno. reflexivity.
Qed.

(** The amended C7 for the pending task of [Sample.db_one_task] renamed to
    an unknown table: the resolver succeeds, the record update fails, the
    queue store is up. *)
Lemma processQueueItem_write_failure_witness :
  let orphan :=
    {| q_id := 1; table_name := "series"; row_id := 1;
       facebook_video_id := "v1"; old_url := None; video_title := None;
       status := Status.pending; error_message := None; created_at := 10;
       processed_at := None |} in
  let w := Sample.world 0 (with_queue [orphan] 2 Sample.empty_db) in
  failed (stats (snd (processQueueItem Sample.env orphan w))) = 1 /\
  map status (url_update_queue (db (snd (processQueueItem Sample.env orphan w)))) =
  [Status.failed].
Proof.
  cbv zeta.
  pose proof (processQueueItem_write_failure Sample.env
                {| q_id := 1; table_name := "series"; row_id := 1;
                   facebook_video_id := "v1"; old_url := None;
                   video_title := None; status := Status.pending;
                   error_message := None; created_at := 10;
                   processed_at := None |}
                (Sample.world 0
                   (with_queue
                      [{| q_id := 1; table_name := "series"; row_id := 1;
                          facebook_video_id := "v1"; old_url := None;
                          video_title := None; status := Status.pending;
                          error_message := None; created_at := 10;
                          processed_at := None |}] 2 Sample.empty_db))
                "https://cdn/new" eq_refl eq_refl) as H.
  cbv zeta in H. destruct H as (Hf & _ & _ & Hok & _).
  split; [exact Hf |].
  destruct (Hok eq_refl) as (Hq & _). rewrite Hq. reflexivity.
Defined.

(** ** Deferred-work store: marking a task processed *)

(** C4, as the specification states it, fails: [markQueueProcessed] does not
    look at the status a task has. Called on a completed task with
    [failed], it turns the task into a failed one; called a second time
    with the same status, it stamps a new processed time, so the stored row
    changes. *)
Lemma markQueueProcessed_overwrites_terminal :
  map status
      (url_update_queue
         (db (snd (markQueueProcessed Sample.env 1 Status.failed (Some "late")
                     (Sample.world 0 Sample.db_done_task))))) =
  [Status.failed] /\
  let w1 := snd (markQueueProcessed Sample.env 1 Status.completed None
                   (Sample.world 0 Sample.db_one_task)) in
  let w2 := snd (markQueueProcessed Sample.env 1 Status.completed None w1) in
  map status (url_update_queue (db w1)) = [Status.completed] /\
  map processed_at (url_update_queue (db w1)) = [Some 0%Z] /\
  map processed_at (url_update_queue (db w2)) = [Some 1000%Z] /\
  url_update_queue (db w2) <> url_update_queue (db w1).
Proof.
  cbv zeta. repeat split; try (vm_compute; reflexivity).
  vm_compute. discriminate.
Qed.

Lemma processQueueItem_queue (env : Env) (item : QueueRow) (w : World) :
  exists st now msg,
    (st = Status.completed \/ st = Status.failed) /\
    (url_update_queue (db (snd (processQueueItem env item w))) =
       url_update_queue (db w) \/
     url_update_queue (db (snd (processQueueItem env item w))) =
       map (mark_row (q_id item) st now msg) (url_update_queue (db w))).
Proof.
  unfold processQueueItem, bind.
  pose proof (getFacebookVideoUrl_world env (facebook_video_id item) w) as Hw1.
  destruct (getFacebookVideoUrl env (facebook_video_id item) w) as [res w1].
  simpl in Hw1.
  assert (Hq1 : url_update_queue (db w1) = url_update_queue (db w))
    by (rewrite Hw1; reflexivity).
  assert (Hmark : forall st msg (f : Stats -> Stats) w2,
            url_update_queue (db w2) = url_update_queue (db w) ->
            (st = Status.completed \/ st = Status.failed) ->
            exists st' now msg',
              (st' = Status.completed \/ st' = Status.failed) /\
              (url_update_queue
                 (db (snd (modify_stats f
                             (snd (markQueueProcessed env (q_id item) st msg w2))))) =
               url_update_queue (db w) \/
               url_update_queue
                 (db (snd (modify_stats f
                             (snd (markQueueProcessed env (q_id item) st msg w2))))) =
               map (mark_row (q_id item) st' now msg') (url_update_queue (db w)))).
  { intros st msg f w2 Hq2 Hst. rewrite markQueueProcessed_world. simpl.
    exists st, (clock env (length (trace w2))), msg. split; [exact Hst |].
    destruct (queue_update_ok env (length (trace w2))); simpl;
      rewrite Hq2; auto. }
  destruct res as [url | error message].
  - destruct (updateVideoUrl_frame env (table_name item) (row_id item) url w1)
      as (Hq2 & _).
    destruct (updateVideoUrl env (table_name item) (row_id item) url w1)
      as [ok w2]. simpl in Hq2. rewrite Hq1 in Hq2.
    destruct ok.
    + destruct (Hmark Status.completed None
                  (fun s => set_updated (S (updated s)) s) w2 Hq2)
        as (st & now & msg & Hst & H); [auto |].
      exists st, now, msg. split; [exact Hst |].
      destruct (markQueueProcessed env (q_id item) Status.completed None w2)
        as [[] w3]. exact H.
    + destruct (Hmark Status.failed (Some "Database update failed"%string)
                  (fun s => set_failed (S (failed s)) s) w2 Hq2)
        as (st & now & msg & Hst & H); [auto |].
      exists st, now, msg. split; [exact Hst |].
      destruct (markQueueProcessed env (q_id item) Status.failed
                  (Some "Database update failed"%string) w2) as [[] w3].
      exact H.
  - destruct (Hmark Status.failed (Some message)
                (fun s => set_failed (S (failed s)) s) w1 Hq1)
      as (st & now & msg & Hst & H); [auto |].
    exists st, now, msg. split; [exact Hst |].
    destruct (markQueueProcessed env (q_id item) Status.failed (Some message) w1)
      as [[] w3]. simpl in *.
    unfold record_failure.
    destruct error; exact H.
Qed.

Lemma drain_transition_mark (q0 q : list QueueRow) queueId st now msg :
  (st = Status.completed \/ st = Status.failed) ->
  (forall r, In r q0 -> q_id r = queueId -> status r = Status.pending) ->
  Forall2 drain_transition q0 q ->
  Forall2 drain_transition q0 (map (mark_row queueId st now msg) q).
Proof.
  intros Hst Hpend H.
  induction H as [|r r' q0 q Hr H IH]; simpl; constructor.
  - assert (Hsame : same_task r r').
    { destruct Hr as [-> | (Hs & _)]; [| exact Hs].
      unfold same_task. tauto. }
    destruct (Z.eq_dec (q_id r') queueId) as [Hid | Hid].
    + right.
      destruct (mark_row_hit queueId st now msg r' Hid) as (Hs' & _).
      destruct (mark_row_same_task queueId st now msg r') as
        (m1 & m2 & m3 & m4 & m5 & m6 & m7).
      destruct Hsame as (s1 & s2 & s3 & s4 & s5 & s6 & s7).
      split; [unfold same_task; repeat split; congruence |].
      split; [apply Hpend; [left; reflexivity | congruence] |].
      rewrite Hs'. exact Hst.
    + rewrite mark_row_miss by exact Hid. exact Hr.
  - apply IH. intros r0 Hin. apply Hpend. right. exact Hin.
Qed.

Lemma processQueueItems_transitions (env : Env) (q0 items : list QueueRow) :
  (forall item, In item items ->
     forall r, In r q0 -> q_id r = q_id item -> status r = Status.pending) ->
  forall w,
    Forall2 drain_transition q0 (url_update_queue (db w)) ->
    Forall2 drain_transition q0
      (url_update_queue (db (snd (processQueueItems env items w)))).
Proof.
  induction items as [|item rest IH]; intros Hpend w Hw; [exact Hw |].
  rewrite processQueueItems_cons.
  destruct (MAX_API_CALLS <=? apiCallsUsed (stats w)); [exact Hw |].
  apply IH.
  - intros item' Hin. apply Hpend. right. exact Hin.
  - destruct (processQueueItem_queue env item w)
      as (st & now & msg & Hst & [Hq | Hq]); rewrite Hq; [exact Hw |].
    apply drain_transition_mark; [exact Hst | | exact Hw].
    apply Hpend. left. reflexivity.
Qed.

Lemma NoDup_map_inj {A B : Type} (f : A -> B) (l : list A) (a b : A) :
  List.NoDup (map f l) -> In a l -> In b l -> f a = f b -> a = b.
Proof.
  induction l as [|x l IH]; simpl; intros Hnd Ha Hb Hf; [contradiction |].
  inversion Hnd as [|? ? Hnotin Hnd']; subst.
  destruct Ha as [-> | Ha], Hb as [-> | Hb].
  - reflexivity.
  - exfalso. apply Hnotin. rewrite Hf. apply in_map. exact Hb.
  - exfalso. apply Hnotin. rewrite <- Hf. apply in_map. exact Ha.
  - apply IH; assumption.
Qed.

Lemma Forall2_drain_refl (q : list QueueRow) : Forall2 drain_transition q q.
Proof. induction q; constructor; [left; reflexivity | assumption]. Qed.

Lemma processQueue_transitions (env : Env) (w : World) :
  List.NoDup (map q_id (url_update_queue (db w))) ->
  Forall2 drain_transition (url_update_queue (db w))
    (url_update_queue (db (snd (processQueue env w)))).
Proof.
  intros Hnd. unfold processQueue. io.
  set (w0 := {| stats := stats w; db := db w;
                trace := trace w ++ [EvQueueSelect MAX_API_CALLS] |}).
  set (items := if queue_select_ok env (length (trace w))
                then selectPendingQueue MAX_API_CALLS (url_update_queue (db w))
                else []).
  assert (Hitems : forall item, In item items ->
            status item = Status.pending /\ In item (url_update_queue (db w))).
  { subst items. destruct (queue_select_ok env (length (trace w)));
      [| intros item []].
    intros item Hin. unfold selectPendingQueue in Hin.
    destruct (pending_sorted (url_update_queue (db w))) as (_ & _ & Hall).
    assert (Hcut := Hall). apply Forall_take with (n := MAX_API_CALLS) in Hcut.
    rewrite Forall_forall in Hcut. apply Hcut. apply list_elem_of_In. exact Hin. }
  assert (H : Forall2 drain_transition (url_update_queue (db w))
                (url_update_queue (db (snd (processQueueItems env items w0))))).
  { apply processQueueItems_transitions; [| apply Forall2_drain_refl].
    intros item Hin r Hr Hid. destruct (Hitems item Hin) as (Hp & Hin').
    rewrite (NoDup_map_inj q_id _ r item Hnd Hr Hin' Hid). exact Hp. }
  destruct items as [|item rest]; [apply Forall2_drain_refl | exact H].
Qed.

Lemma mark_row_again queueId st t1 t2 msg r :
  mark_row queueId st t2 msg (mark_row queueId st t1 msg r) =
  mark_row queueId st t2 msg r.
Proof.
  unfold mark_row. destruct (Z.eqb (q_id r) queueId) eqn:E; simpl; rewrite E;
    reflexivity.
Qed.

Lemma mark_row_status_again queueId st t1 t2 msg r :
  status (mark_row queueId st t2 msg r) = status (mark_row queueId st t1 msg r) /\
  error_message (mark_row queueId st t2 msg r) =
  error_message (mark_row queueId st t1 msg r).
Proof.
  unfold mark_row. destruct (Z.eqb (q_id r) queueId); simpl; split; reflexivity.
Qed.

(** C4 (amended). [markQueueProcessed] does not check the status a task
    has: when the store applies the update, every row with the given id
    gets the given status and message and the current time as processed
    time, whatever its status was. Within a run it is only called by the
    drain, with [completed] or [failed], for tasks the drain query returned
    as pending; so on a queue whose ids are unique, a drain leaves each row
    as it was or takes it from [pending] to [completed] or [failed], and
    never changes a row that was already terminal. A second call with the
    same status and message leaves statuses and messages as the first call
    left them, and stamps the time of the second call; the database is the
    same after both calls only if the clock read the same both times. *)
Theorem markQueueProcessed_transitions (env : Env) :
  (forall queueId st msg w,
     queue_update_ok env (length (trace w)) = true ->
     let w' := snd (markQueueProcessed env queueId st msg w) in
     url_update_queue (db w') =
       map (mark_row queueId st (clock env (length (trace w))) msg)
           (url_update_queue (db w)) /\
     forall r, In r (url_update_queue (db w')) -> q_id r = queueId ->
       status r = st /\ error_message r = msg /\
       processed_at r = Some (clock env (length (trace w)))) /\
  (forall w,
     List.NoDup (map q_id (url_update_queue (db w))) ->
     Forall2 drain_transition (url_update_queue (db w))
       (url_update_queue (db (snd (processQueue env w))))) /\
  (forall queueId st msg w,
     let w1 := snd (markQueueProcessed env queueId st msg w) in
     let w2 := snd (markQueueProcessed env queueId st msg w1) in
     queue_update_ok env (length (trace w)) = true ->
     queue_update_ok env (length (trace w1)) = true ->
     url_update_queue (db w2) =
       map (mark_row queueId st (clock env (length (trace w1))) msg)
           (url_update_queue (db w)) /\
     map status (url_update_queue (db w2)) =
       map status (url_update_queue (db w1)) /\
     map error_message (url_update_queue (db w2)) =
       map error_message (url_update_queue (db w1)) /\
     (clock env (length (trace w1)) = clock env (length (trace w)) ->
      db w2 = db w1)).
Proof.
  split; [| split].
  - intros queueId st msg w Hok w'. subst w'.
    rewrite markQueueProcessed_world. simpl. rewrite Hok. simpl.
    split; [reflexivity |].
    intros r Hin Hid. apply in_map_iff in Hin as (r0 & <- & _).
    apply mark_row_hit.
    destruct (mark_row_same_task queueId st (clock env (length (trace w))) msg r0)
      as (Hq & _). congruence.
  - apply processQueue_transitions.
  - intros queueId st msg w w1 w2 Hok Hok1.
    assert (Hq2 : url_update_queue (db w2) =
                  map (mark_row queueId st (clock env (length (trace w1))) msg)
                      (url_update_queue (db w1))).
    { subst w2. rewrite markQueueProcessed_world. simpl. rewrite Hok1.
      reflexivity. }
    assert (Hq1 : url_update_queue (db w1) =
                  map (mark_row queueId st (clock env (length (trace w))) msg)
                      (url_update_queue (db w))).
    { subst w1. rewrite markQueueProcessed_world. simpl. rewrite Hok.
      reflexivity. }
    assert (Hq : url_update_queue (db w2) =
                 map (mark_row queueId st (clock env (length (trace w1))) msg)
                     (url_update_queue (db w))).
    { rewrite Hq2, Hq1, map_map. apply map_ext. intros r.
      apply mark_row_again. }
    split; [exact Hq |].
    split; [| split].
    + rewrite Hq, Hq1, !map_map. apply map_ext. intros r.
      apply mark_row_status_again.
    + rewrite Hq, Hq1, !map_map. apply map_ext. intros r.
      apply mark_row_status_again.
    + intros Hclock. rewrite Hclock in Hq.
      assert (Hsame : url_update_queue (db w2) = url_update_queue (db w1))
        by (rewrite Hq, Hq1; reflexivity).
      clear Hq Hq1 Hq2. revert Hsame. subst w2.
      rewrite markQueueProcessed_world. simpl. rewrite Hok1. simpl.
      intros Hsame. rewrite Hsame.
      destruct (db w1); reflexivity.
Qed.

(** The amended C4 on the one-task queue of [Sample.db_one_task]: its ids
    are unique, and a drain completes the task. *)
Lemma markQueueProcessed_transitions_witness :
  List.NoDup (map q_id (url_update_queue Sample.db_one_task)) /\
  Forall2 drain_transition (url_update_queue Sample.db_one_task)
    (url_update_queue
       (db (snd (processQueue Sample.env (Sample.world 0 Sample.db_one_task))))).
Proof.
  assert (Hnd : List.NoDup (map q_id (url_update_queue Sample.db_one_task))).
  { simpl. constructor; [intros [] | constructor]. }
  split; [exact Hnd |].
  exact (proj1 (proj2 (markQueueProcessed_transitions Sample.env))
           (Sample.world 0 Sample.db_one_task) Hnd).
Defined.

(** ** A run with nothing to do *)


Lemma sendTelegram_world (env : Env) (text : string) (w : World) :
  snd (sendTelegram env text w) =
  {| stats := stats w; db := db w;
     trace := if telegram_configured env then trace w ++ [EvTelegram text]
              else trace w |}.
Proof.
  unfold sendTelegram. destruct (telegram_configured env); [reflexivity |].
  destruct w; reflexivity.
Qed.



(** A turn of the sweep in terms of the worlds its steps produce. *)
Lemma sweepVideo_eq (env : Env) (tableName : string) (video : Video) (w : World) :
  snd (sweepVideo env tableName video w) =
  let r1 := isUrlValid env (Some (video_url_of video)) (checked w) in
  if fst r1
  then snd (modify_stats (fun s => set_alreadyValid (S (alreadyValid s)) s) (snd r1))
  else
    let r2 := getFacebookVideoUrl env (video_id_of video) (snd r1) in
    match fst r2 with
    | Success url =>
        let r3 := updateVideoUrl env tableName (id video) url (snd r2) in
        if fst r3
        then snd (modify_stats (fun s => set_updated (S (updated s)) s) (snd r3))
        else snd (modify_stats (fun s => set_failed (S (failed s)) s) (snd r3))
    | Failure error _ =>
        snd (record_failure error
               {| fi_id := video_id_of video; fi_title := video_title_of video |}
               (snd (modify_stats (fun s => set_failed (S (failed s)) s) (snd r2))))
    end.
Proof.
  unfold sweepVideo, bind, checked. cbv zeta.
  destruct (modify_stats (fun s => set_totalChecked (S (totalChecked s)) s) w)
    as [[] w0]. cbn [snd].
  destruct (isUrlValid env (Some (video_url_of video)) w0) as [[|] w1];
    cbn [fst snd]; [reflexivity |].
  destruct (getFacebookVideoUrl env (video_id_of video) w1) as [[url | e m] w2];
    cbn [fst snd].
  - destruct (updateVideoUrl env tableName (id video) url w2) as [[|] w3];
      reflexivity.
  - destruct (modify_stats (fun s => set_failed (S (failed s)) s) w2) as [[] w3].
    reflexivity.
Qed.









(** ** Sweep phase: the budget splits the listing *)

Section SweepEffect.

Variable env : Env.

Lemma sweep_effect_refl w : sweep_effect env w w [] [].
Proof.
  exists [], []. rewrite !app_nil_r. simpl.
  repeat split; try reflexivity; try lia; try constructor.
Qed.

Lemma sweep_effect_trans w1 w2 w3 r1 r2 o1 o2 :
  sweep_effect env w1 w2 r1 o1 ->
  sweep_effect env w2 w3 r2 o2 ->
  sweep_effect env w1 w3 (r1 ++ r2) (o1 ++ o2).
Proof.
  intros (l1 & a1 & Ht1 & Hg1 & Hi1 & Hc1 & Hq1 & Hn1 & Hs1 & He1)
         (l2 & a2 & Ht2 & Hg2 & Hi2 & Hc2 & Hq2 & Hn2 & Hs2 & He2).
  exists (l1 ++ l2), (a1 ++ a2).
  split; [rewrite Ht2, Ht1, app_assoc; reflexivity |].
  split; [rewrite List.filter_app, Hg1, Hg2, map_app; reflexivity |].
  split; [rewrite List.filter_app, Hi1, Hi2, map_app; reflexivity |].
  split; [rewrite Hc2, Hc1, length_app; lia |].
  split; [rewrite Hq2, Hq1, app_assoc; reflexivity |].
  split; [rewrite Hn2, Hn1, length_app; lia |].
  split; [rewrite !map_app; apply sublist_app; assumption |].
  intros Hok. rewrite !map_app, He1, He2 by exact Hok. reflexivity.
Qed.

(** A step that issues one request which is neither a lookup nor an
    insert, and leaves the counters and the queue alone. *)
Lemma sweep_effect_silent w w' l :
  trace w' = trace w ++ l ->
  List.filter is_graph_get l = [] ->
  List.filter is_queue_insert l = [] ->
  apiCallsUsed (stats w') = apiCallsUsed (stats w) ->
  queued (stats w') = queued (stats w) ->
  url_update_queue (db w') = url_update_queue (db w) ->
  sweep_effect env w w' [] [].
Proof.
  intros Ht Hg Hi Hc Hn Hq. exists l, []. rewrite app_nil_r. simpl.
  repeat split; try assumption; try lia; try reflexivity; try constructor.
Qed.

Lemma addToQueue_world tableName rowId videoId oldUrl title w :
  addToQueue env tableName rowId videoId oldUrl title w =
  (queue_insert_ok env (length (trace w)),
   {| stats := stats w;
      db := if queue_insert_ok env (length (trace w))
            then with_queue
                   (url_update_queue (db w) ++
                    [{| q_id := queue_next_id (db w); table_name := tableName;
                        row_id := rowId; facebook_video_id := videoId;
                        old_url := oldUrl; video_title := title;
                        status := Status.pending; error_message := None;
                        created_at := clock env (length (trace w));
                        processed_at := None |}])
                   (queue_next_id (db w) + 1)%Z (db w)
            else db w;
      trace := trace w ++
               [EvQueueInsert tableName rowId videoId oldUrl title] |}).
Proof.
  unfold addToQueue. io.
  destruct (queue_insert_ok env (length (trace w))); reflexivity.
Qed.

(** One turn of the overflow loop: the record is offered, and the queue
    gains its row exactly when the store accepts the insert. *)
Lemma queueRemaining_step tableName v w :
  let r := addToQueue env tableName (id v) (video_id_of v)
             (Some (video_url_of v)) (video_title_of v) w in
  let w' := if fst r
            then snd (modify_stats (fun s => set_queued (S (queued s)) s) (snd r))
            else snd r in
  sweep_effect env w w' [] [(tableName, v)] /\
  episodes (db w') = episodes (db w) /\ movies (db w') = movies (db w).
Proof.
  cbv zeta. rewrite addToQueue_world. cbn [fst snd].
  destruct (queue_insert_ok env (length (trace w))) eqn:Hok.
  - split; [| split; reflexivity].
    eexists _, [_]. simpl.
    split; [reflexivity |]. split; [reflexivity |]. split; [reflexivity |].
    split; [lia |]. split; [reflexivity |]. split; [lia |].
    split; [reflexivity |]. intros _. reflexivity.
  - split; [| split; reflexivity].
    exists [EvQueueInsert tableName (id v) (video_id_of v)
              (Some (video_url_of v)) (video_title_of v)], [].
    simpl. rewrite app_nil_r.
    split; [reflexivity |]. split; [reflexivity |]. split; [reflexivity |].
    split; [lia |]. split; [reflexivity |]. split; [lia |].
    split; [apply sublist_nil_l |].
    intros Hall. rewrite Hall in Hok. discriminate.
Qed.

Lemma queueRemaining_effect tableName videos :
  forall w,
    let w' := snd (queueRemaining env tableName videos w) in
    sweep_effect env w w' [] (map (pair tableName) videos) /\
    episodes (db w') = episodes (db w) /\ movies (db w') = movies (db w).
Proof.
  induction videos as [|v rest IH]; intros w.
  - simpl. split; [apply sweep_effect_refl | split; reflexivity].
  - cbv zeta. rewrite queueRemaining_cons. cbv zeta.
    destruct (queueRemaining_step tableName v w) as (H1 & He1 & Hm1).
    cbv zeta in H1, He1, Hm1.
    set (w1 := if fst (addToQueue env tableName (id v) (video_id_of v)
                         (Some (video_url_of v)) (video_title_of v) w)
               then _ else _) in *.
    destruct (IH w1) as (H2 & He2 & Hm2). cbv zeta in H2, He2, Hm2.
    split; [| split; congruence].
    change (map (pair tableName) (v :: rest))
      with ([(tableName, v)] ++ map (pair tableName) rest).
    change (@nil (string * Video)) with (@nil (string * Video) ++ []).
    eapply sweep_effect_trans; eassumption.
Qed.

End SweepEffect.

Section SweepLoop.

Variable env : Env.

Lemma updateVideoUrl_keeps_movies rowId newUrl w :
  movies (db (snd (updateVideoUrl env "episodes" rowId newUrl w))) =
  movies (db w).
Proof.
  unfold updateVideoUrl. simpl. io.
  destruct (table_update_ok env (length (trace w)) "episodes"); reflexivity.
Qed.

Lemma record_failure_world error info w :
  snd (record_failure error info w) =
  {| stats := stats (snd (record_failure error info w));
     db := db w; trace := trace w |} /\
  apiCallsUsed (stats (snd (record_failure error info w))) =
    apiCallsUsed (stats w) /\
  queued (stats (snd (record_failure error info w))) = queued (stats w).
Proof. destruct error; simpl; auto. Qed.

(** A turn of the sweep on a record that probes invalid: one lookup, no
    insert, the queue untouched. *)
Lemma sweepVideo_effect tableName video w :
  never_valid env (video_url_of video) ->
  let w' := snd (sweepVideo env tableName video w) in
  sweep_effect env w w' [(tableName, video)] [] /\
  (tableName = "episodes"%string -> movies (db w') = movies (db w)).
Proof.
  intros Hnever w'. subst w'. rewrite sweepVideo_eq. cbv zeta.
  rewrite (Hnever (checked w)).
  destruct (isUrlValid_world env (Some (video_url_of video)) (checked w))
    as (Hs1 & Hd1 & Ht1).
  set (w1 := snd (isUrlValid env (Some (video_url_of video)) (checked w))) in *.
  pose proof (getFacebookVideoUrl_world env (video_id_of video) w1) as Hw2.
  set (r2 := getFacebookVideoUrl env (video_id_of video) w1) in *.
  assert (H01 : exists l1, trace w1 = trace w ++ l1 /\
                List.filter is_graph_get l1 = [] /\
                List.filter is_queue_insert l1 = []).
  { destruct Ht1 as [Ht1 | (u & _ & Ht1)].
    - exists []. rewrite app_nil_r. auto.
    - exists [EvHead u]. auto. }
  destruct H01 as (l1 & Hl1 & Hg1 & Hi1).
  assert (Hfin : forall (w3 wf : World) (l3 : list Event),
            trace w3 = trace (snd r2) ++ l3 ->
            List.filter is_graph_get l3 = [] ->
            List.filter is_queue_insert l3 = [] ->
            apiCallsUsed (stats wf) = apiCallsUsed (stats (snd r2)) ->
            queued (stats wf) = queued (stats (snd r2)) ->
            url_update_queue (db wf) = url_update_queue (db (snd r2)) ->
            trace wf = trace w3 ->
            sweep_effect env w wf [(tableName, video)] []).
  { intros w3 wf l3 Ht3 Hg3 Hi3 Hc Hn Hq Htf.
    exists (l1 ++ [EvGraphGet (video_id_of video)] ++ l3), [].
    rewrite Htf, Ht3, Hw2, Hc, Hn, Hq, Hw2. simpl. rewrite Hl1, Hs1, Hd1.
    unfold checked. simpl.
    rewrite !List.filter_app, Hg1, Hi1. simpl. rewrite Hg3, Hi3.
    rewrite app_nil_r, <- !app_assoc. simpl.
    repeat split; try reflexivity; try lia; try constructor. }
  destruct (fst r2) as [url | error message] eqn:Er2.
  - destruct (updateVideoUrl_frame env tableName (id video) url (snd r2))
      as (Hq3 & _ & Hc3 & Hn3 & Ht3). cbv zeta in Hq3, Hc3, Hn3, Ht3.
    pose proof (updateVideoUrl_keeps_movies (id video) url (snd r2)) as Hm3.
    set (r3 := updateVideoUrl env tableName (id video) url (snd r2)) in *.
    assert (H3 : exists l3, trace (snd r3) = trace (snd r2) ++ l3 /\
                  List.filter is_graph_get l3 = [] /\
                  List.filter is_queue_insert l3 = []).
    { destruct Ht3 as [Ht3 | Ht3].
      - exists []. rewrite app_nil_r. auto.
      - eexists [_]. split; [exact Ht3 |]. auto. }
    destruct H3 as (l3 & Hl3 & Hg3 & Hi3).
    split.
    + destruct (fst r3); simpl;
        (eapply Hfin; [exact Hl3 | exact Hg3 | exact Hi3 | simpl; exact Hc3
                      | simpl; exact Hn3 | simpl; exact Hq3 | reflexivity]).
    + intros ->. subst r3.
      assert (Hm : movies (db (snd (updateVideoUrl env "episodes" (id video)
                                      url (snd r2)))) = movies (db w)).
      { rewrite Hm3, Hw2. simpl. rewrite Hd1. reflexivity. }
      destruct (fst (updateVideoUrl env "episodes" (id video) url (snd r2)));
        simpl; exact Hm.
  - set (w3 := snd (modify_stats (fun s => set_failed (S (failed s)) s) (snd r2))).
    destruct (record_failure_world error
                {| fi_id := video_id_of video;
                   fi_title := video_title_of video |} w3)
      as (Hwf & Hcf & Hnf).
    split.
    + eapply (Hfin w3 _ []).
      * subst w3. simpl. rewrite app_nil_r. reflexivity.
      * reflexivity.
      * reflexivity.
      * rewrite Hcf. reflexivity.
      * rewrite Hnf. reflexivity.
      * rewrite Hwf. reflexivity.
      * rewrite Hwf. reflexivity.
    + intros _. rewrite Hwf. subst w3. simpl. rewrite Hw2. simpl.
      rewrite Hd1. reflexivity.
Qed.

End SweepLoop.

Section SweepBudget.

Variable env : Env.

Lemma sweep_effect_calls w w' resolved offered :
  sweep_effect env w w' resolved offered ->
  apiCallsUsed (stats w') = apiCallsUsed (stats w) + length resolved.
Proof. intros (l & a & _ & _ & _ & H & _). exact H. Qed.

(** The loop over one listing with [n] calls left: the first [n] records
    are resolved, the rest are offered to the queue. *)
Lemma sweepVideos_effect tableName videos :
  Forall (fun v => never_valid env (video_url_of v)) videos ->
  forall n w,
    apiCallsUsed (stats w) + n = MAX_API_CALLS ->
    let w' := snd (sweepVideos env tableName videos w) in
    sweep_effect env w w'
      (map (pair tableName) (take n videos))
      (map (pair tableName) (drop n videos)) /\
    (tableName = "episodes"%string -> movies (db w') = movies (db w)).
Proof.
  induction 1 as [|v rest Hv _ IH]; intros n w Hn.
  - rewrite take_nil, drop_nil. simpl.
    split; [apply sweep_effect_refl | reflexivity].
  - cbv zeta. rewrite sweepVideos_cons. destruct n as [|n].
    + assert (Hb : (MAX_API_CALLS <=? apiCallsUsed (stats w)) = true)
        by (apply Nat.leb_le; lia).
      rewrite Hb. rewrite take_0, drop_0.
      destruct (queueRemaining_effect env tableName (v :: rest) w)
        as (H & _ & Hm).
      split; [exact H | intros _; exact Hm].
    + assert (Hb : (MAX_API_CALLS <=? apiCallsUsed (stats w)) = false)
        by (apply Nat.leb_gt; lia).
      rewrite Hb.
      destruct (sweepVideo_effect env tableName v w Hv) as (H1 & Hm1).
      cbv zeta in H1, Hm1.
      set (w1 := snd (sweepVideo env tableName v w)) in *.
      pose proof (sweep_effect_calls _ _ _ _ H1) as Hc1. simpl in Hc1.
      destruct (IH n w1) as (H2 & Hm2); [lia |]. cbv zeta in H2, Hm2.
      split.
      * change (map (pair tableName) (take (S n) (v :: rest)))
          with ([(tableName, v)] ++ map (pair tableName) (take n rest)).
        change (map (pair tableName) (drop (S n) (v :: rest)))
          with ([] ++ map (pair tableName) (drop n rest)).
        eapply sweep_effect_trans; eassumption.
      * intros He. rewrite (Hm2 He). apply Hm1. exact He.
Qed.

Lemma sweepTable_effect tableName w n :
  table_select_ok env (length (trace w)) tableName = true ->
  Forall (fun v => never_valid env (video_url_of v))
    (select_videos tableName (db w)) ->
  apiCallsUsed (stats w) + n = MAX_API_CALLS ->
  let w' := snd (sweepTable env tableName w) in
  sweep_effect env w w'
    (map (pair tableName) (take n (select_videos tableName (db w))))
    (map (pair tableName) (drop n (select_videos tableName (db w)))) /\
  (tableName = "episodes"%string -> movies (db w') = movies (db w)).
Proof.
  intros Hok Hall Hn w'.
  set (w0 := {| stats := stats w; db := db w;
                trace := trace w ++ [EvTableSelect tableName] |}).
  assert (Hw' : w' = snd (sweepVideos env tableName
                            (select_videos tableName (db w)) w0)).
  { subst w'. unfold sweepTable. io. rewrite Hok. fold w0.
    destruct (select_videos tableName (db w)); reflexivity. }
  rewrite Hw'.
  destruct (sweepVideos_effect tableName _ Hall n w0 Hn) as (H & Hm).
  cbv zeta in H, Hm. split; [| exact Hm].
  assert (H0 : sweep_effect env w w0 [] []).
  { apply (sweep_effect_silent env w w0 [EvTableSelect tableName]);
      reflexivity. }
  exact (sweep_effect_trans env _ _ _ [] _ [] _ H0 H).
Qed.

Lemma processFreshVideos_effect w n :
  (forall t tableName, table_select_ok env t tableName = true) ->
  (forall r, In r (listed (db w)) -> never_valid env (video_url_of (snd r))) ->
  apiCallsUsed (stats w) + n = MAX_API_CALLS ->
  sweep_effect env w (snd (processFreshVideos env w))
    (take n (listed (db w))) (drop n (listed (db w))).
Proof.
  intros Hsel Hnever Hn.
  set (E := select_videos "episodes" (db w)).
  set (V := select_videos "movies" (db w)).
  assert (HE : Forall (fun v => never_valid env (video_url_of v)) E).
  { apply Forall_forall. intros v Hin.
    apply (Hnever ("episodes"%string, v)). unfold listed.
    apply in_or_app. left. apply in_map. apply list_elem_of_In. exact Hin. }
  assert (HV : Forall (fun v => never_valid env (video_url_of v)) V).
  { apply Forall_forall. intros v Hin.
    apply (Hnever ("movies"%string, v)). unfold listed.
    apply in_or_app. right. apply in_map. apply list_elem_of_In. exact Hin. }
  destruct (sweepTable_effect "episodes" w n (Hsel _ _) HE Hn) as (H1 & Hm1).
  cbv zeta in H1, Hm1. specialize (Hm1 eq_refl).
  set (w1 := snd (sweepTable env "episodes" w)) in *.
  pose proof (sweep_effect_calls _ _ _ _ H1) as Hc1.
  rewrite length_map, length_take in Hc1. fold E in Hc1.
  assert (HV1 : select_videos "movies" (db w1) = V).
  { unfold select_videos, rows_of. simpl. rewrite Hm1. reflexivity. }
  destruct (sweepTable_effect "movies" w1 (n - length E) (Hsel _ _)) as (H2 & _);
    [rewrite HV1; exact HV | lia |].
  cbv zeta in H2. rewrite HV1 in H2.
  assert (Hw' : snd (processFreshVideos env w) =
                snd (sweepTable env "movies" w1)).
  { unfold processFreshVideos, tables, forTables, bind. subst w1.
    destruct (sweepTable env "episodes" w) as [[] u1]. cbn [snd].
    destruct (sweepTable env "movies" u1) as [[] u2]. reflexivity. }
  rewrite Hw'. unfold listed. fold E V.
  rewrite take_app, drop_app, !length_map, !firstn_map, !skipn_map.
  eapply sweep_effect_trans; eassumption.
Qed.

End SweepBudget.

(** C2, as the specification states it, fails when the queue refuses an
    insert: with one call left and three expired records, one record is
    resolved and the other two are offered to the queue, but none is
    enqueued and the queued counter stays at zero, not two. *)
Lemma sweep_overflow_not_enqueued :
  let w := Sample.world 189 Sample.db_expired in
  let w' := snd (processFreshVideos Sample.env_queue_down w) in
  calls_remaining (stats w) = 1 /\
  length (listed (db w)) = 3 /\
  (forall r, In r (listed (db w)) ->
     never_valid Sample.env_queue_down (video_url_of (snd r))) /\
  length (List.filter is_graph_get (trace w')) = 1 /\
  length (List.filter is_queue_insert (trace w')) = 2 /\
  url_update_queue (db w') = [] /\
  queued (stats w') = 0.
Proof.
  cbv zeta.
  split; [vm_compute; reflexivity |]. split; [vm_compute; reflexivity |].
  split.
  { intros r Hin. simpl in Hin.
    destruct Hin as [<- | [<- | [<- | []]]]; intros w; reflexivity. }
  repeat split; vm_compute; reflexivity.
Qed.

(** C2 (amended). Enter the sweep with [n] calls left and a listing of
    [M > n] records that all probe invalid, both tables being listed. Then
    exactly the first [n] records in sweep order (episodes, then movies) are
    resolved, using up the budget, and each of the remaining [M - n]
    records is offered to the queue, whichever table it is in. The queue
    gains a pending row for each offer the store accepts and the queued
    counter goes up by the number of rows gained; when the store accepts
    every insert that is all [M - n] records. *)
Theorem processFreshVideos_budget_split (env : Env) (w : World) (n : nat) :
  apiCallsUsed (stats w) + n = MAX_API_CALLS ->
  (forall t tableName, table_select_ok env t tableName = true) ->
  (forall r, In r (listed (db w)) -> never_valid env (video_url_of (snd r))) ->
  n < length (listed (db w)) ->
  let w' := snd (processFreshVideos env w) in
  let resolved := take n (listed (db w)) in
  let overflow := drop n (listed (db w)) in
  exists added,
    List.filter is_graph_get (issued w w') = map lookup_of resolved /\
    length (List.filter is_graph_get (issued w w')) = n /\
    apiCallsUsed (stats w') = MAX_API_CALLS /\
    List.filter is_queue_insert (issued w w') = map offer_of overflow /\
    length overflow = length (listed (db w)) - n /\
    url_update_queue (db w') = url_update_queue (db w) ++ added /\
    queued (stats w') = queued (stats w) + length added /\
    sublist (map payload added) (map payload_of overflow) /\
    ((forall t, queue_insert_ok env t = true) ->
     map payload added = map payload_of overflow /\
     queued (stats w') = queued (stats w) + (length (listed (db w)) - n)).
Proof.
  intros Hn Hsel Hnever Hlt w' resolved overflow.
  destruct (processFreshVideos_effect env w n Hsel Hnever Hn)
    as (l & added & Ht & Hg & Hi & Hc & Hq & Hd & Hs & He).
  fold w' in Ht, Hc, Hq, Hd. fold resolved in Hg, Hc. fold overflow in Hi, Hs, He.
  assert (Hres : length resolved = n)
    by (subst resolved; rewrite length_take; lia).
  assert (Hover : length overflow = length (listed (db w)) - n)
    by (subst overflow; apply length_drop).
  exists added. rewrite (issued_app w w' l Ht).
  split; [exact Hg |].
  split; [rewrite Hg, length_map; exact Hres |].
  split; [rewrite Hc, Hres; exact Hn |].
  split; [exact Hi |].
  split; [exact Hover |].
  split; [exact Hq |].
  split; [exact Hd |].
  split; [exact Hs |].
  intros Hok. specialize (He Hok). split; [exact He |].
  rewrite Hd. f_equal.
  rewrite <- Hover, <- (length_map payload_of overflow), <- He, length_map.
  reflexivity.
Qed.

Lemma Sample_expired_never_valid :
  forall r, In r (listed Sample.db_expired) ->
            never_valid Sample.env (video_url_of (snd r)).
Proof.
  intros r Hin. simpl in Hin.
  destruct Hin as [<- | [<- | [<- | []]]]; intros w; reflexivity.
Defined.

(** The amended C2 on [Sample.db_expired] with one call left: episode 1 is
    resolved, episode 2 and movie 7 are enqueued. *)
Lemma processFreshVideos_budget_split_witness :
  let w := Sample.world 189 Sample.db_expired in
  let w' := snd (processFreshVideos Sample.env w) in
  apiCallsUsed (stats w) + 1 = MAX_API_CALLS /\
  1 < length (listed (db w)) /\
  length (List.filter is_graph_get (issued w w')) = 1 /\
  queued (stats w') = 2.
Proof.
  cbv zeta.
  assert (H1 : apiCallsUsed (stats (Sample.world 189 Sample.db_expired)) + 1 =
               MAX_API_CALLS) by (vm_compute; reflexivity).
  assert (H2 : 1 < length (listed (db (Sample.world 189 Sample.db_expired))))
    by (vm_compute; lia).
  split; [exact H1 |]. split; [exact H2 |].
  destruct (processFreshVideos_budget_split Sample.env
              (Sample.world 189 Sample.db_expired) 1 H1
              (fun _ _ => eq_refl) Sample_expired_never_valid H2)
    as (added & _ & Hg & _ & _ & _ & _ & _ & _ & Hall).
  split; [exact Hg |].
  destruct (Hall (fun _ => eq_refl)) as (_ & Hq). exact Hq.
Defined.

(** * Further properties of the engine *)

(** ** The phases, step by step *)

(** A turn of the drain in terms of the worlds its steps produce. *)
Lemma processQueueItem_eq (env : Env) (item : QueueRow) (w : World) :
  snd (processQueueItem env item w) =
  let r1 := getFacebookVideoUrl env (facebook_video_id item) w in
  match fst r1 with
  | Success url =>
      let r2 := updateVideoUrl env (table_name item) (row_id item) url (snd r1) in
      if fst r2
      then snd (modify_stats (fun s => set_updated (S (updated s)) s)
                  (snd (markQueueProcessed env (q_id item) Status.completed None
                          (snd r2))))
      else snd (modify_stats (fun s => set_failed (S (failed s)) s)
                  (snd (markQueueProcessed env (q_id item) Status.failed
                          (Some "Database update failed"%string) (snd r2))))
  | Failure error message =>
      snd (record_failure error
             {| fi_id := facebook_video_id item;
                fi_title := Some (Js.or_else (video_title item) "Unknown") |}
             (snd (modify_stats (fun s => set_failed (S (failed s)) s)
                     (snd (markQueueProcessed env (q_id item) Status.failed
                             (Some message) (snd r1))))))
  end.
Proof.
  unfold processQueueItem, bind. cbv zeta.
  destruct (getFacebookVideoUrl env (facebook_video_id item) w)
    as [[url | e m] w1]; cbn [fst snd].
  - destruct (updateVideoUrl env (table_name item) (row_id item) url w1)
      as [[|] w2]; cbn [fst snd].
    + destruct (markQueueProcessed env (q_id item) Status.completed None w2)
        as [[] w3]. reflexivity.
    + destruct (markQueueProcessed env (q_id item) Status.failed
                  (Some "Database update failed"%string) w2) as [[] w3].
      reflexivity.
  - destruct (markQueueProcessed env (q_id item) Status.failed (Some m) w1)
      as [[] w2]. cbn [fst snd].
    destruct (modify_stats (fun s => set_failed (S (failed s)) s) w2) as [[] w3].
    reflexivity.
Qed.

(** The run as the composition of its phases. *)
Lemma processUrlUpdates_eq (env : Env) (w : World) :
  snd (processUrlUpdates env w) =
  let w1 := snd (sendTelegram env start_message (reset env w)) in
  let w2 := snd (processQueue env w1) in
  let w3 := if apiCallsUsed (stats w2) <? MAX_API_CALLS
            then snd (processFreshVideos env w2) else w2 in
  snd (sendTelegram env
         (Report.generateReport
            (locale_date env (clock env (length (trace w3))))
            (clock env (length (trace w3))) (stats w3)) w3).
Proof.
  unfold processUrlUpdates, reset, bind. cbv zeta.
  unfold tick at 1. cbn beta iota.
  destruct (modify_stats
              (fun _ => fresh_stats (Some (clock env (length (trace w))))) w)
    as [[] u1]. cbn [snd].
  destruct (sendTelegram env start_message u1) as [[] u2]. cbn [snd].
  destruct (processQueue env u2) as [[] u3]. cbn [snd].
  unfold get_stats at 1. cbn beta iota.
  destruct (apiCallsUsed (stats u3) <? MAX_API_CALLS).
  - destruct (processFreshVideos env u3) as [[] u4]. cbn [snd].
    unfold tick, get_stats. cbn beta iota. reflexivity.
  - unfold ret at 1. unfold tick, get_stats. cbn beta iota. reflexivity.
Qed.

(** A relation between worlds that every primitive step of the engine
    respects is respected by the loops and phases built from them. The
    lookup is only ever reached with budget left, a mark only with a
    terminal status, and a record update only for the tables [touched]. *)
Section Steps.

Variable env : Env.
Variable touched : string -> Prop.
Variable R : World -> World -> Prop.

Hypothesis R_refl : forall w, R w w.
Hypothesis R_trans : forall a b c, R a b -> R b c -> R a c.
Variable bump_ok : (Stats -> Stats) -> Prop.
Hypothesis R_bump :
  forall f w, bump_ok f -> R w (snd (modify_stats f w)).
Hypothesis ok_checked :
  bump_ok (fun s => set_totalChecked (S (totalChecked s)) s).
Hypothesis ok_valid :
  bump_ok (fun s => set_alreadyValid (S (alreadyValid s)) s).
Hypothesis ok_updated : bump_ok (fun s => set_updated (S (updated s)) s).
Hypothesis ok_failed : bump_ok (fun s => set_failed (S (failed s)) s).
Hypothesis ok_notFound : forall info, bump_ok (push_notFound info).
Hypothesis ok_permissionDenied :
  forall info, bump_ok (push_permissionDenied info).
Hypothesis ok_apiError : forall info, bump_ok (push_apiError info).
Hypothesis R_queue_select :
  forall w, R w (snd (emit (EvQueueSelect MAX_API_CALLS) w)).
Hypothesis R_table_select :
  forall tableName w, R w (snd (emit (EvTableSelect tableName) w)).
Hypothesis R_probe :
  forall url w, R w (snd (isUrlValid env url w)).
Hypothesis R_lookup :
  forall videoId w,
    apiCallsUsed (stats w) < MAX_API_CALLS ->
    R w (snd (getFacebookVideoUrl env videoId w)).
Hypothesis R_mark :
  forall queueId st msg w,
    st = Status.completed \/ st = Status.failed ->
    R w (snd (markQueueProcessed env queueId st msg w)).
Hypothesis R_update :
  forall tableName rowId newUrl w,
    touched tableName ->
    R w (snd (updateVideoUrl env tableName rowId newUrl w)).
Hypothesis R_enqueue :
  forall tableName v w, R w (enqueued env tableName v w).

Lemma record_failure_respects error info w :
  R w (snd (record_failure error info w)).
Proof.
  destruct error; apply R_bump;
    first [apply ok_notFound | apply ok_permissionDenied | apply ok_apiError].
Qed.

Lemma sweepVideo_respects tableName video w :
  touched tableName ->
  apiCallsUsed (stats w) < MAX_API_CALLS ->
  R w (snd (sweepVideo env tableName video w)).
Proof.
  intros Htouched Hbudget. rewrite sweepVideo_eq. cbv zeta.
  assert (H0 : R w (checked w)) by (apply R_bump, ok_checked).
  pose proof (R_probe (Some (video_url_of video)) (checked w)) as H1.
  destruct (isUrlValid_world env (Some (video_url_of video)) (checked w))
    as (Hs1 & _).
  set (r1 := isUrlValid env (Some (video_url_of video)) (checked w)) in *.
  assert (Hb1 : apiCallsUsed (stats (snd r1)) < MAX_API_CALLS)
    by (rewrite Hs1; exact Hbudget).
  assert (H01 : R w (snd r1)) by (eapply R_trans; eassumption).
  destruct (fst r1).
  - eapply R_trans; [exact H01 |]. apply R_bump, ok_valid.
  - pose proof (R_lookup (video_id_of video) (snd r1) Hb1) as H2.
    set (r2 := getFacebookVideoUrl env (video_id_of video) (snd r1)) in *.
    assert (H02 : R w (snd r2)) by (eapply R_trans; eassumption).
    destruct (fst r2) as [url | error message].
    + pose proof (R_update tableName (id video) url (snd r2) Htouched) as H3.
      set (r3 := updateVideoUrl env tableName (id video) url (snd r2)) in *.
      assert (H03 : R w (snd r3)) by (eapply R_trans; eassumption).
      destruct (fst r3); (eapply R_trans; [exact H03 |]); apply R_bump;
        [apply ok_updated | apply ok_failed].
    + eapply R_trans; [exact H02 |].
      eapply R_trans; [apply R_bump, ok_failed |].
      apply record_failure_respects.
Qed.

Lemma queueRemaining_respects tableName videos :
  forall w, R w (snd (queueRemaining env tableName videos w)).
Proof.
  induction videos as [|v rest IH]; intros w; [apply R_refl |].
  rewrite queueRemaining_cons. cbv zeta.
  eapply R_trans; [apply (R_enqueue tableName v w) |]. apply IH.
Qed.

Lemma sweepVideos_respects tableName videos :
  touched tableName ->
  forall w, R w (snd (sweepVideos env tableName videos w)).
Proof.
  intros Htouched. induction videos as [|v rest IH]; intros w; [apply R_refl |].
  rewrite sweepVideos_cons.
  destruct (MAX_API_CALLS <=? apiCallsUsed (stats w)) eqn:Hb.
  - apply queueRemaining_respects.
  - apply Nat.leb_gt in Hb.
    eapply R_trans; [apply (sweepVideo_respects tableName v w Htouched Hb) |].
    apply IH.
Qed.

Lemma sweepTable_eq tableName w :
  snd (sweepTable env tableName w) =
  snd (sweepVideos env tableName
         (if table_select_ok env (length (trace w)) tableName
          then select_videos tableName (db w) else [])
         (snd (emit (EvTableSelect tableName) w))).
Proof.
  unfold sweepTable. io.
  destruct (if table_select_ok env (length (trace w)) tableName
            then select_videos tableName (db w) else []); reflexivity.
Qed.

Lemma sweepTable_respects tableName w :
  touched tableName -> R w (snd (sweepTable env tableName w)).
Proof.
  intros Htouched. rewrite sweepTable_eq.
  eapply R_trans; [apply R_table_select |].
  apply sweepVideos_respects. exact Htouched.
Qed.

Lemma processFreshVideos_eq w :
  snd (processFreshVideos env w) =
  snd (sweepTable env "movies" (snd (sweepTable env "episodes" w))).
Proof.
  unfold processFreshVideos, tables, forTables, bind.
  destruct (sweepTable env "episodes" w) as [[] u1]. cbn [snd].
  destruct (sweepTable env "movies" u1) as [[] u2]. reflexivity.
Qed.

Lemma processFreshVideos_respects w :
  touched "episodes"%string -> touched "movies"%string ->
  R w (snd (processFreshVideos env w)).
Proof.
  intros He Hm. rewrite processFreshVideos_eq.
  eapply R_trans; apply sweepTable_respects; assumption.
Qed.

Lemma processQueueItem_respects item w :
  touched (table_name item) ->
  apiCallsUsed (stats w) < MAX_API_CALLS ->
  R w (snd (processQueueItem env item w)).
Proof.
  intros Htouched Hbudget. rewrite processQueueItem_eq. cbv zeta.
  pose proof (R_lookup (facebook_video_id item) w Hbudget) as H1.
  set (r1 := getFacebookVideoUrl env (facebook_video_id item) w) in *.
  destruct (fst r1) as [url | error message].
  - pose proof (R_update (table_name item) (row_id item) url (snd r1) Htouched)
      as H2.
    set (r2 := updateVideoUrl env (table_name item) (row_id item) url (snd r1))
      in *.
    assert (H02 : R w (snd r2)) by (eapply R_trans; eassumption).
    destruct (fst r2).
    + eapply R_trans; [exact H02 |].
      eapply R_trans; [apply R_mark; left; reflexivity |].
      apply R_bump, ok_updated.
    + eapply R_trans; [exact H02 |].
      eapply R_trans; [apply R_mark; right; reflexivity |].
      apply R_bump, ok_failed.
  - eapply R_trans; [exact H1 |].
    eapply R_trans; [apply R_mark; right; reflexivity |].
    eapply R_trans; [apply R_bump, ok_failed |].
    apply record_failure_respects.
Qed.

Lemma processQueueItems_respects items :
  Forall (fun item => touched (table_name item)) items ->
  forall w, R w (snd (processQueueItems env items w)).
Proof.
  induction 1 as [|item rest Ht _ IH]; intros w; [apply R_refl |].
  rewrite processQueueItems_cons.
  destruct (MAX_API_CALLS <=? apiCallsUsed (stats w)) eqn:Hb; [apply R_refl |].
  apply Nat.leb_gt in Hb.
  eapply R_trans; [apply (processQueueItem_respects item w Ht Hb) |]. apply IH.
Qed.

Lemma processQueue_eq w :
  snd (processQueue env w) =
  snd (processQueueItems env (drained env (length (trace w)) (db w))
         (snd (emit (EvQueueSelect MAX_API_CALLS) w))).
Proof.
  unfold processQueue, drained. io.
  destruct (if queue_select_ok env (length (trace w))
            then selectPendingQueue MAX_API_CALLS (url_update_queue (db w))
            else []); reflexivity.
Qed.

Lemma processQueue_respects w :
  (forall tableName, touched tableName) ->
  R w (snd (processQueue env w)).
Proof.
  intros Hall. rewrite processQueue_eq.
  eapply R_trans; [apply R_queue_select |].
  apply processQueueItems_respects. apply Forall_forall. intros item _.
  apply Hall.
Qed.

(** Drain, gate and sweep together, as [processUrlUpdates] runs them. *)
Lemma phases_respect w :
  (forall tableName, touched tableName) ->
  let w2 := snd (processQueue env w) in
  R w (if apiCallsUsed (stats w2) <? MAX_API_CALLS
       then snd (processFreshVideos env w2) else w2).
Proof.
  intros Hall w2.
  assert (H2 : R w w2) by (apply processQueue_respects; exact Hall).
  destruct (apiCallsUsed (stats w2) <? MAX_API_CALLS); [| exact H2].
  eapply R_trans; [exact H2 |]. apply processFreshVideos_respects; apply Hall.
Qed.

End Steps.

(** ** What the primitive steps do to the world *)

Lemma plain_bump_checked : plain_bump (fun s => set_totalChecked (S (totalChecked s)) s).
Proof. intros s. split; reflexivity. Qed.

Lemma plain_bump_valid : plain_bump (fun s => set_alreadyValid (S (alreadyValid s)) s).
Proof. intros s. split; reflexivity. Qed.

Lemma plain_bump_updated : plain_bump (fun s => set_updated (S (updated s)) s).
Proof. intros s. split; reflexivity. Qed.

Lemma plain_bump_failed : plain_bump (fun s => set_failed (S (failed s)) s).
Proof. intros s. split; reflexivity. Qed.

Lemma plain_bump_notFound info : plain_bump (push_notFound info).
Proof. intros s. split; reflexivity. Qed.

Lemma plain_bump_permissionDenied info : plain_bump (push_permissionDenied info).
Proof. intros s. split; reflexivity. Qed.

Lemma plain_bump_apiError info : plain_bump (push_apiError info).
Proof. intros s. split; reflexivity. Qed.

(** [updateVideoUrl] in full: nothing for an unknown table; otherwise one
    request, and on success the rows with that id rewritten and the
    table's counter bumped. *)
Lemma updateVideoUrl_world (env : Env) tableName rowId newUrl w :
  updateVideoUrl env tableName rowId newUrl w =
  if String.eqb tableName "episodes" then
    (table_update_ok env (length (trace w)) tableName,
     {| stats := if table_update_ok env (length (trace w)) tableName
                 then set_episodesUpdated (S (episodesUpdated (stats w))) (stats w)
                 else stats w;
        db := if table_update_ok env (length (trace w)) tableName
              then {| url_update_queue := url_update_queue (db w);
                      queue_next_id := queue_next_id (db w);
                      episodes := map (set_url rowId newUrl) (episodes (db w));
                      movies := movies (db w) |}
              else db w;
        trace := trace w ++ [EvTableUpdate tableName rowId newUrl] |})
  else if String.eqb tableName "movies" then
    (table_update_ok env (length (trace w)) tableName,
     {| stats := if table_update_ok env (length (trace w)) tableName
                 then set_moviesUpdated (S (moviesUpdated (stats w))) (stats w)
                 else stats w;
        db := if table_update_ok env (length (trace w)) tableName
              then {| url_update_queue := url_update_queue (db w);
                      queue_next_id := queue_next_id (db w);
                      episodes := episodes (db w);
                      movies := map (set_url rowId newUrl) (movies (db w)) |}
              else db w;
        trace := trace w ++ [EvTableUpdate tableName rowId newUrl] |})
  else (false, w).
Proof.
  unfold updateVideoUrl.
  destruct (String.eqb tableName "episodes").
  - io. destruct (table_update_ok env (length (trace w)) tableName); reflexivity.
  - destruct (String.eqb tableName "movies"); [| reflexivity].
    io. destruct (table_update_ok env (length (trace w)) tableName); reflexivity.
Qed.

Lemma enqueued_world (env : Env) tableName v w :
  enqueued env tableName v w =
  {| stats := if queue_insert_ok env (length (trace w))
              then set_queued (S (queued (stats w))) (stats w) else stats w;
     db := if queue_insert_ok env (length (trace w))
           then with_queue
                  (url_update_queue (db w) ++
                   [{| q_id := queue_next_id (db w); table_name := tableName;
                       row_id := id v; facebook_video_id := video_id_of v;
                       old_url := Some (video_url_of v);
                       video_title := video_title_of v;
                       status := Status.pending; error_message := None;
                       created_at := clock env (length (trace w));
                       processed_at := None |}])
                  (queue_next_id (db w) + 1)%Z (db w)
           else db w;
     trace := trace w ++
              [EvQueueInsert tableName (id v) (video_id_of v)
                 (Some (video_url_of v)) (video_title_of v)] |}.
Proof.
  unfold enqueued. rewrite addToQueue_world. cbn [fst snd].
  destruct (queue_insert_ok env (length (trace w))); reflexivity.
Qed.

(** ** The call budget *)

Lemma spends_refl w : spends w w.
Proof. exists []. rewrite app_nil_r. unfold lookups. simpl. split; [| split]; auto. Qed.

Lemma lookups_app l1 l2 : lookups (l1 ++ l2) = lookups l1 + lookups l2.
Proof. unfold lookups. rewrite List.filter_app, length_app. reflexivity. Qed.

Lemma spends_trans a b c : spends a b -> spends b c -> spends a c.
Proof.
  intros (l1 & Ht1 & Hc1 & Hm1) (l2 & Ht2 & Hc2 & Hm2).
  exists (l1 ++ l2). rewrite Ht2, Ht1, app_assoc, lookups_app.
  split; [reflexivity |]. split; [lia | auto].
Qed.

(** A step that issues requests other than lookups and keeps the counter. *)
Lemma spends_quiet w w' l :
  trace w' = trace w ++ l -> lookups l = 0 ->
  apiCallsUsed (stats w') = apiCallsUsed (stats w) ->
  spends w w'.
Proof.
  intros Ht Hl Hc. exists l. rewrite Hl, Hc.
  split; [exact Ht |]. split; [lia | auto].
Qed.

Lemma spends_phases (env : Env) (w : World) :
  let w2 := snd (processQueue env w) in
  spends w (if apiCallsUsed (stats w2) <? MAX_API_CALLS
            then snd (processFreshVideos env w2) else w2).
Proof.
  apply (phases_respect env (fun _ => True) spends spends_refl spends_trans
           plain_bump).
  - intros f w0 Hf. apply (spends_quiet _ _ []); simpl;
      [rewrite app_nil_r; reflexivity | reflexivity | apply Hf].
  - apply plain_bump_checked.
  - apply plain_bump_valid.
  - apply plain_bump_updated.
  - apply plain_bump_failed.
  - apply plain_bump_notFound.
  - apply plain_bump_permissionDenied.
  - apply plain_bump_apiError.
  - intros w0. apply (spends_quiet _ _ [EvQueueSelect MAX_API_CALLS]); reflexivity.
  - intros tableName w0.
    apply (spends_quiet _ _ [EvTableSelect tableName]); reflexivity.
  - intros url w0. destruct (isUrlValid_world env url w0) as (Hs & _ & [Ht | (u & _ & Ht)]).
    + apply (spends_quiet _ _ []); [rewrite app_nil_r; exact Ht | reflexivity |].
      rewrite Hs. reflexivity.
    + apply (spends_quiet _ _ [EvHead u]); [exact Ht | reflexivity |].
      rewrite Hs. reflexivity.
  - intros videoId w0 Hb. rewrite getFacebookVideoUrl_world.
    exists [EvGraphGet videoId]. simpl. unfold lookups. simpl.
    split; [reflexivity |]. split; lia.
  - intros queueId st msg w0 _. rewrite markQueueProcessed_world.
    apply (spends_quiet _ _ [EvQueueUpdate queueId st msg]); reflexivity.
  - intros tableName rowId newUrl w0 _.
    destruct (updateVideoUrl_frame env tableName rowId newUrl w0)
      as (_ & _ & Hc & _ & [Ht | Ht]).
    + apply (spends_quiet _ _ []); [rewrite app_nil_r; exact Ht | reflexivity | exact Hc].
    + apply (spends_quiet _ _ [EvTableUpdate tableName rowId newUrl]);
        [exact Ht | reflexivity | exact Hc].
  - intros tableName v w0. rewrite enqueued_world.
    eapply spends_quiet; [reflexivity | reflexivity |].
    simpl. destruct (queue_insert_ok env (length (trace w0))); reflexivity.
  - intros tableName. exact I.
Qed.

(** The call counter of a run and the lookups it issued. *)
Lemma spends_run (env : Env) (w : World) :
  let w' := snd (processUrlUpdates env w) in
  apiCallsUsed (stats w') = lookups (issued w w') /\
  lookups (issued w w') <= MAX_API_CALLS.
Proof.
  intros w'. subst w'. rewrite processUrlUpdates_eq. cbv zeta.
  set (w1 := snd (sendTelegram env start_message (reset env w))).
  assert (H1 : exists l1, trace w1 = trace w ++ l1 /\ lookups l1 = 0 /\
                          apiCallsUsed (stats w1) = 0).
  { subst w1. rewrite sendTelegram_world. unfold reset. simpl.
    destruct (telegram_configured env).
    - exists [EvTelegram start_message]. auto.
    - exists []. rewrite app_nil_r. auto. }
  destruct H1 as (l1 & Ht1 & Hl1 & Hc1).
  destruct (spends_phases env w1) as (l2 & Ht2 & Hc2 & Hm2). cbv zeta in *.
  set (w3 := if apiCallsUsed (stats (snd (processQueue env w1))) <? MAX_API_CALLS
             then snd (processFreshVideos env (snd (processQueue env w1)))
             else snd (processQueue env w1)) in *.
  rewrite sendTelegram_world. cbn [stats].
  assert (H3 : exists l3, (if telegram_configured env
                           then trace w3 ++
                                [EvTelegram
                                   (Report.generateReport
                                      (locale_date env (clock env (length (trace w3))))
                                      (clock env (length (trace w3))) (stats w3))]
                           else trace w3) = trace w3 ++ l3 /\ lookups l3 = 0).
  { destruct (telegram_configured env); [eexists [_] | exists []];
      rewrite ?app_nil_r; auto. }
  destruct H3 as (l3 & Ht3 & Hl3).
  unfold issued. cbn [trace]. rewrite Ht3, Ht2, Ht1, <- !app_assoc.
  rewrite drop_app_length, !lookups_app, Hl1, Hl3.
  rewrite Hc1 in Hc2, Hm2. split; [lia |].
  specialize (Hm2 ltac:(lia)). lia.
Qed.

(** X1. In every run the call counter counts exactly the Graph lookups the
    run issued, and a run never issues more than [MAX_API_CALLS] of them,
    whatever the tables hold and whatever the outside answers. *)
Theorem processUrlUpdates_within_budget (env : Env) (w : World) :
  let w' := snd (processUrlUpdates env w) in
  apiCallsUsed (stats w') = lookups (issued w w') /\
  lookups (issued w w') <= MAX_API_CALLS.
Proof. exact (spends_run env w). Qed.

(** ** The record tables *)

Lemma same_record_refl (rows : list VideoRow) : Forall2 same_record rows rows.
Proof.
  induction rows; constructor; [unfold same_record; auto | assumption].
Qed.

Lemma same_record_trans (a b c : list VideoRow) :
  Forall2 same_record a b -> Forall2 same_record b c -> Forall2 same_record a c.
Proof.
  intros Hab. revert c. induction Hab as [|x y a b Hxy _ IH]; intros c Hbc.
  - inversion Hbc. constructor.
  - inversion Hbc as [|y' z b' c' Hyz Hbc']; subst. constructor; [| apply IH; exact Hbc'].
    destruct Hxy as (h1 & h2 & h3), Hyz as (k1 & k2 & k3).
    unfold same_record. repeat split; congruence.
Qed.

Lemma same_record_set_url rowId newUrl (rows : list VideoRow) :
  Forall2 same_record rows (map (set_url rowId newUrl) rows).
Proof.
  induction rows as [|r rows IH]; simpl; constructor; [| exact IH].
  unfold set_url, same_record. destruct (Z.eqb (v_id r) rowId); simpl; auto.
Qed.

Lemma keeps_records_refl w : keeps_records w w.
Proof. split; apply same_record_refl. Qed.

Lemma keeps_records_trans a b c :
  keeps_records a b -> keeps_records b c -> keeps_records a c.
Proof.
  intros (H1 & H2) (H3 & H4). split; eapply same_record_trans; eassumption.
Qed.

Lemma keeps_records_db w w' : db w' = db w -> keeps_records w w'.
Proof. intros H. unfold keeps_records. rewrite H. apply keeps_records_refl. Qed.

Lemma keeps_records_tables w w' :
  episodes (db w') = episodes (db w) -> movies (db w') = movies (db w) ->
  keeps_records w w'.
Proof.
  intros He Hm. unfold keeps_records. rewrite He, Hm. apply keeps_records_refl.
Qed.

Lemma keeps_records_phases (env : Env) (w : World) :
  let w2 := snd (processQueue env w) in
  keeps_records w (if apiCallsUsed (stats w2) <? MAX_API_CALLS
                   then snd (processFreshVideos env w2) else w2).
Proof.
  apply (phases_respect env (fun _ => True) keeps_records keeps_records_refl
           keeps_records_trans (fun _ => True)); try exact I; try (intros; exact I).
  - intros f w0 _. apply keeps_records_db. reflexivity.
  - intros w0. apply keeps_records_db. reflexivity.
  - intros tableName w0. apply keeps_records_db. reflexivity.
  - intros url w0. apply keeps_records_db.
    apply (isUrlValid_world env url w0).
  - intros videoId w0 _. rewrite getFacebookVideoUrl_world.
    apply keeps_records_db. reflexivity.
  - intros queueId st msg w0 _. rewrite markQueueProcessed_world.
    apply keeps_records_tables; simpl;
      destruct (queue_update_ok env (length (trace w0))); reflexivity.
  - intros tableName rowId newUrl w0 _. rewrite updateVideoUrl_world.
    destruct (String.eqb tableName "episodes");
      [| destruct (String.eqb tableName "movies")]; cbn [snd];
      try apply keeps_records_refl;
      (destruct (table_update_ok env (length (trace w0)) tableName);
       [| apply keeps_records_db; reflexivity]);
      split; simpl; first [apply same_record_set_url | apply same_record_refl].
  - intros tableName v w0. rewrite enqueued_world.
    apply keeps_records_tables; simpl;
      destruct (queue_insert_ok env (length (trace w0))); reflexivity.
Qed.

(** X2. A run never adds, removes or reorders a row of [episodes] or
    [movies], and never changes a row's id, title or Facebook video id:
    after the run each table holds the same records in the same order, and
    only URLs can differ. *)
Theorem processUrlUpdates_keeps_records (env : Env) (w : World) :
  let w' := snd (processUrlUpdates env w) in
  Forall2 same_record (episodes (db w)) (episodes (db w')) /\
  Forall2 same_record (movies (db w)) (movies (db w')) /\
  length (episodes (db w')) = length (episodes (db w)) /\
  length (movies (db w')) = length (movies (db w)).
Proof.
  intros w'.
  assert (H : keeps_records w w').
  { subst w'. rewrite processUrlUpdates_eq. cbv zeta.
    set (w1 := snd (sendTelegram env start_message (reset env w))).
    assert (H1 : keeps_records w w1).
    { apply keeps_records_db. subst w1. rewrite sendTelegram_world. reflexivity. }
    pose proof (keeps_records_phases env w1) as H2. cbv zeta in H2.
    eapply keeps_records_trans; [exact H1 |].
    eapply keeps_records_trans; [exact H2 |].
    apply keeps_records_db. rewrite sendTelegram_world. reflexivity. }
  destruct H as (He & Hm).
  split; [exact He |]. split; [exact Hm |].
  split; symmetry; eapply Forall2_length; eassumption.
Qed.

(** ** The queue over a run *)

Lemma same_task_refl (q : list QueueRow) : Forall2 same_task q q.
Proof.
  induction q; constructor; [unfold same_task; tauto | assumption].
Qed.

Lemma same_task_trans (a b c : list QueueRow) :
  Forall2 same_task a b -> Forall2 same_task b c -> Forall2 same_task a c.
Proof.
  intros Hab. revert c. induction Hab as [|x y a b Hxy _ IH]; intros c Hbc.
  - inversion Hbc. constructor.
  - inversion Hbc as [|y' z b' c' Hyz Hbc']; subst.
    constructor; [| apply IH; exact Hbc'].
    destruct Hxy as (h1 & h2 & h3 & h4 & h5 & h6 & h7),
             Hyz as (k1 & k2 & k3 & k4 & k5 & k6 & k7).
    unfold same_task. repeat split; congruence.
Qed.

Lemma same_task_mark queueId st now msg (q : list QueueRow) :
  Forall2 same_task q (map (mark_row queueId st now msg) q).
Proof.
  induction q as [|r q IH]; simpl; constructor; [| exact IH].
  apply mark_row_same_task.
Qed.

Lemma queue_kept_refl w : queue_kept w w.
Proof. split; [apply same_task_refl | reflexivity]. Qed.

Lemma queue_kept_trans a b c : queue_kept a b -> queue_kept b c -> queue_kept a c.
Proof.
  intros (H1 & H2) (H3 & H4).
  split; [eapply same_task_trans; eassumption | congruence].
Qed.

Lemma queue_kept_same w w' :
  url_update_queue (db w') = url_update_queue (db w) ->
  queued (stats w') = queued (stats w) -> queue_kept w w'.
Proof.
  intros Hq Hn. split; [rewrite Hq; apply same_task_refl | exact Hn].
Qed.

Lemma queue_kept_drain (env : Env) (w : World) :
  queue_kept w (snd (processQueue env w)).
Proof.
  apply (processQueue_respects env (fun _ => True) queue_kept queue_kept_refl
           queue_kept_trans plain_bump).
  - intros f w0 Hf. apply queue_kept_same; [reflexivity | apply Hf].
  - apply plain_bump_updated.
  - apply plain_bump_failed.
  - apply plain_bump_notFound.
  - apply plain_bump_permissionDenied.
  - apply plain_bump_apiError.
  - intros w0. apply queue_kept_same; reflexivity.
  - intros videoId w0 _. rewrite getFacebookVideoUrl_world.
    apply queue_kept_same; reflexivity.
  - intros queueId st msg w0 _. rewrite markQueueProcessed_world.
    split; [| reflexivity]. simpl.
    destruct (queue_update_ok env (length (trace w0))); simpl;
      [apply same_task_mark | apply same_task_refl].
  - intros tableName rowId newUrl w0 _.
    destruct (updateVideoUrl_frame env tableName rowId newUrl w0)
      as (Hq & _ & _ & Hn & _).
    apply queue_kept_same; assumption.
  - intros tableName. exact I.
Qed.

Lemma queue_grows_refl w : queue_grows w w.
Proof. exists []. rewrite app_nil_r. simpl. split; [| split]; auto. Qed.

Lemma queue_grows_trans a b c :
  queue_grows a b -> queue_grows b c -> queue_grows a c.
Proof.
  intros (a1 & Hq1 & Hf1 & Hn1) (a2 & Hq2 & Hf2 & Hn2).
  exists (a1 ++ a2). rewrite Hq2, Hq1, app_assoc, Hn2, Hn1, length_app.
  split; [reflexivity |]. split; [apply Forall_app; auto | lia].
Qed.

Lemma queue_grows_same w w' :
  url_update_queue (db w') = url_update_queue (db w) ->
  queued (stats w') = queued (stats w) -> queue_grows w w'.
Proof.
  intros Hq Hn. exists []. rewrite app_nil_r, Hq, Hn. simpl.
  split; [| split]; auto.
Qed.

Lemma queue_grows_sweep (env : Env) (w : World) :
  queue_grows w (snd (processFreshVideos env w)).
Proof.
  apply (processFreshVideos_respects env (fun _ => True) queue_grows
           queue_grows_refl queue_grows_trans plain_bump).
  - intros f w0 Hf. apply queue_grows_same; [reflexivity | apply Hf].
  - apply plain_bump_checked.
  - apply plain_bump_valid.
  - apply plain_bump_updated.
  - apply plain_bump_failed.
  - apply plain_bump_notFound.
  - apply plain_bump_permissionDenied.
  - apply plain_bump_apiError.
  - intros tableName w0. apply queue_grows_same; reflexivity.
  - intros url w0. destruct (isUrlValid_world env url w0) as (Hs & Hd & _).
    apply queue_grows_same; [rewrite Hd | rewrite Hs]; reflexivity.
  - intros videoId w0 _. rewrite getFacebookVideoUrl_world.
    apply queue_grows_same; reflexivity.
  - intros tableName rowId newUrl w0 _.
    destruct (updateVideoUrl_frame env tableName rowId newUrl w0)
      as (Hq & _ & _ & Hn & _).
    apply queue_grows_same; assumption.
  - intros tableName v w0. rewrite enqueued_world.
    destruct (queue_insert_ok env (length (trace w0))).
    + eexists [_]. simpl. split; [reflexivity |].
      split; [repeat constructor | lia].
    + apply queue_grows_same; reflexivity.
  - exact I.
  - exact I.
Qed.

(** X3. Over a run the queue never loses a task: the rows it held are still
    there, in order, with the same id, table, record, video id, old URL,
    title and creation time. Whatever the run added comes after them, is
    pending with no error and no processed time, and the queued counter of
    the run's statistics is exactly the number of rows added. *)
Theorem processUrlUpdates_queue (env : Env) (w : World) :
  let w' := snd (processUrlUpdates env w) in
  exists kept added,
    url_update_queue (db w') = kept ++ added /\
    Forall2 same_task (url_update_queue (db w)) kept /\
    Forall fresh_task added /\
    queued (stats w') = length added.
Proof.
  intros w'. subst w'. rewrite processUrlUpdates_eq. cbv zeta.
  set (w1 := snd (sendTelegram env start_message (reset env w))).
  assert (H1 : url_update_queue (db w1) = url_update_queue (db w) /\
               queued (stats w1) = 0).
  { subst w1. rewrite sendTelegram_world. split; reflexivity. }
  destruct H1 as (Hq1 & Hn1).
  destruct (queue_kept_drain env w1) as (Hk2 & Hn2).
  set (w2 := snd (processQueue env w1)) in *.
  rewrite Hq1 in Hk2. rewrite Hn1 in Hn2.
  rewrite sendTelegram_world. cbn [db stats].
  destruct (apiCallsUsed (stats w2) <? MAX_API_CALLS).
  - destruct (queue_grows_sweep env w2) as (added & Hq3 & Hf3 & Hn3).
    exists (url_update_queue (db w2)), added.
    split; [exact Hq3 |]. split; [exact Hk2 |]. split; [exact Hf3 |].
    rewrite Hn3, Hn2. reflexivity.
  - exists (url_update_queue (db w2)), []. rewrite app_nil_r.
    split; [reflexivity |]. split; [exact Hk2 |]. split; [constructor |].
    exact Hn2.
Qed.

Lemma keeps_ids_fresh_same w w' :
  map q_id (url_update_queue (db w')) = map q_id (url_update_queue (db w)) ->
  queue_next_id (db w') = queue_next_id (db w) ->
  keeps_ids_fresh w w'.
Proof.
  intros Hq Hn (Hnd & Hlt). split; [rewrite Hq; exact Hnd |].
  rewrite Hn.
  apply Forall_forall. intros r Hr.
  assert (Hin : In (q_id r) (map q_id (url_update_queue (db w)))).
  { rewrite <- Hq. apply in_map. apply list_elem_of_In. exact Hr. }
  apply in_map_iff in Hin as (r0 & Hid & Hr0). rewrite <- Hid.
  rewrite Forall_forall in Hlt. apply Hlt. apply list_elem_of_In. exact Hr0.
Qed.

Lemma map_q_id_mark queueId st now msg (q : list QueueRow) :
  map q_id (map (mark_row queueId st now msg) q) = map q_id q.
Proof.
  rewrite map_map. apply map_ext. intros r.
  apply (mark_row_same_task queueId st now msg r).
Qed.

Lemma keeps_ids_fresh_phases (env : Env) (w : World) :
  let w2 := snd (processQueue env w) in
  keeps_ids_fresh w (if apiCallsUsed (stats w2) <? MAX_API_CALLS
                     then snd (processFreshVideos env w2) else w2).
Proof.
  apply (phases_respect env (fun _ => True) keeps_ids_fresh
           (fun w0 H => H) (fun a b c H1 H2 H => H2 (H1 H)) (fun _ => True));
    try exact I; try (intros; exact I).
  - intros f w0 _. apply keeps_ids_fresh_same; reflexivity.
  - intros w0. apply keeps_ids_fresh_same; reflexivity.
  - intros tableName w0. apply keeps_ids_fresh_same; reflexivity.
  - intros url w0. destruct (isUrlValid_world env url w0) as (_ & Hd & _).
    apply keeps_ids_fresh_same; rewrite Hd; reflexivity.
  - intros videoId w0 _. rewrite getFacebookVideoUrl_world.
    apply keeps_ids_fresh_same; reflexivity.
  - intros queueId st msg w0 _. rewrite markQueueProcessed_world.
    apply keeps_ids_fresh_same; simpl;
      destruct (queue_update_ok env (length (trace w0))); simpl;
      rewrite ?map_q_id_mark; reflexivity.
  - intros tableName rowId newUrl w0 _.
    destruct (updateVideoUrl_frame env tableName rowId newUrl w0)
      as (Hq & Hn & _).
    apply keeps_ids_fresh_same; [rewrite Hq; reflexivity | exact Hn].
  - intros tableName v w0. rewrite enqueued_world.
    destruct (queue_insert_ok env (length (trace w0)));
      [| apply keeps_ids_fresh_same; reflexivity].
    intros (Hnd & Hlt). unfold queue_ids_fresh. simpl.
    rewrite map_app. simpl. split.
    + apply NoDup_ListNoDup, NoDup_app. split; [apply NoDup_ListNoDup; exact Hnd |].
      split; [| apply NoDup_singleton].
      intros i Hi Hi'. apply list_elem_of_In in Hi'. destruct Hi' as [<- | []].
      apply list_elem_of_In, in_map_iff in Hi as (r & Hid & Hr).
      rewrite Forall_forall in Hlt.
      specialize (Hlt r (proj2 (list_elem_of_In _ _) Hr)). lia.
    + apply Forall_app. split; [| repeat constructor; simpl; lia].
      eapply Forall_impl; [exact Hlt |]. intros r Hr. simpl in Hr. lia.
Qed.

(** X4. If the queue's ids are pairwise distinct and below the next value
    of its id sequence before a run, they are so after it: the rows a run
    enqueues get ids no task has, and nothing else touches an id. *)
Theorem processUrlUpdates_keeps_ids_fresh (env : Env) (w : World) :
  queue_ids_fresh (db w) ->
  queue_ids_fresh (db (snd (processUrlUpdates env w))).
Proof.
  intros H. rewrite processUrlUpdates_eq. cbv zeta.
  rewrite sendTelegram_world. cbn [db].
  apply keeps_ids_fresh_phases.
  rewrite sendTelegram_world. exact H.
Qed.

(** ** The drain, task by task *)

Lemma drain_effect_refl w : drain_effect w w [].
Proof.
  exists []. rewrite app_nil_r. simpl. repeat split; try reflexivity; lia.
Qed.

Lemma drain_effect_trans a b c d1 d2 :
  drain_effect a b d1 -> drain_effect b c d2 -> drain_effect a c (d1 ++ d2).
Proof.
  intros (l1 & Ht1 & Hg1 & Hm1 & Hc1 & Hs1 & Hh1 & Hi1 & Hk1 & Hq1)
         (l2 & Ht2 & Hg2 & Hm2 & Hc2 & Hs2 & Hh2 & Hi2 & Hk2 & Hq2).
  exists (l1 ++ l2).
  rewrite Ht2, Ht1, app_assoc, !List.filter_app, omap_app, !map_app, length_app.
  rewrite Hg1, Hg2, Hm1, Hm2, Hs1, Hs2, Hh1, Hh2, Hi1, Hi2.
  repeat split; try reflexivity; try lia; congruence.
Qed.

(** One turn of the drain processes its task. *)
Lemma processQueueItem_effect (env : Env) (item : QueueRow) (w : World) :
  drain_effect w (snd (processQueueItem env item w)) [item].
Proof.
  rewrite processQueueItem_eq. cbv zeta.
  pose proof (getFacebookVideoUrl_world env (facebook_video_id item) w) as H1.
  set (r1 := getFacebookVideoUrl env (facebook_video_id item) w) in *.
  assert (Hfin : forall (w2 wf : World) (l2 : list Event) st msg,
            trace w2 = trace (snd r1) ++ l2 ->
            List.filter is_graph_get l2 = [] -> omap marked_id l2 = [] ->
            List.filter is_table_select l2 = [] -> List.filter is_head l2 = [] ->
            List.filter is_queue_insert l2 = [] ->
            apiCallsUsed (stats wf) = apiCallsUsed (stats (snd r1)) ->
            totalChecked (stats wf) = totalChecked (stats (snd r1)) ->
            queued (stats wf) = queued (stats (snd r1)) ->
            trace wf = trace w2 ++ [EvQueueUpdate (q_id item) st msg] ->
            drain_effect w wf [item]).
  { intros w2 wf l2 st msg Ht2 Hg2 Hm2 Hs2 Hh2 Hi2 Hc Hk Hq Htf.
    exists ([EvGraphGet (facebook_video_id item)] ++ l2 ++
            [EvQueueUpdate (q_id item) st msg]).
    rewrite Htf, Ht2, Hc, Hk, Hq, H1. simpl.
    rewrite !List.filter_app, omap_app, Hg2, Hm2, Hs2, Hh2, Hi2. simpl.
    rewrite <- !app_assoc. simpl.
    repeat split; try reflexivity; lia. }
  destruct (fst r1) as [url | error message].
  - rewrite updateVideoUrl_world.
    assert (Hupd : forall (ok : bool) (s : Stats) (d : Database),
              apiCallsUsed s = apiCallsUsed (stats (snd r1)) ->
              totalChecked s = totalChecked (stats (snd r1)) ->
              queued s = queued (stats (snd r1)) ->
              drain_effect w
                (if ok
                 then snd (modify_stats (fun s => set_updated (S (updated s)) s)
                             (snd (markQueueProcessed env (q_id item)
                                     Status.completed None
                                     {| stats := s; db := d;
                                        trace := trace (snd r1) ++
                                          [EvTableUpdate (table_name item)
                                             (row_id item) url] |})))
                 else snd (modify_stats (fun s => set_failed (S (failed s)) s)
                             (snd (markQueueProcessed env (q_id item)
                                     Status.failed
                                     (Some "Database update failed"%string)
                                     {| stats := s; db := d;
                                        trace := trace (snd r1) ++
                                          [EvTableUpdate (table_name item)
                                             (row_id item) url] |}))))
                [item]).
    { intros ok s d Hc Hk Hq.
      destruct ok; rewrite markQueueProcessed_world;
        (eapply (Hfin {| stats := s; db := d;
                         trace := trace (snd r1) ++
                                  [EvTableUpdate (table_name item) (row_id item) url] |}
                      _ [EvTableUpdate (table_name item) (row_id item) url]);
         try reflexivity; simpl; assumption). }
    destruct (String.eqb (table_name item) "episodes");
      [| destruct (String.eqb (table_name item) "movies")]; cbn [fst snd].
    + apply Hupd;
        destruct (table_update_ok env (length (trace (snd r1))) (table_name item));
        reflexivity.
    + apply Hupd;
        destruct (table_update_ok env (length (trace (snd r1))) (table_name item));
        reflexivity.
    + rewrite markQueueProcessed_world.
      eapply (Hfin (snd r1) _ []); try reflexivity.
      rewrite app_nil_r. reflexivity.
  - rewrite markQueueProcessed_world.
    destruct (record_failure_world error
                {| fi_id := facebook_video_id item;
                   fi_title := Some (Js.or_else (video_title item) "Unknown") |}
                (snd (modify_stats (fun s => set_failed (S (failed s)) s)
                        {| stats := stats (snd r1);
                           db := if queue_update_ok env (length (trace (snd r1)))
                                 then with_queue
                                        (map (mark_row (q_id item) Status.failed
                                                (clock env (length (trace (snd r1))))
                                                (Some message))
                                             (url_update_queue (db (snd r1))))
                                        (queue_next_id (db (snd r1))) (db (snd r1))
                                 else db (snd r1);
                           trace := trace (snd r1) ++
                                    [EvQueueUpdate (q_id item) Status.failed
                                       (Some message)] |})))
      as (Hwf & Hcf & Hqf).
    eapply (Hfin (snd r1) _ []); try reflexivity.
    + rewrite app_nil_r. reflexivity.
    + rewrite Hcf. reflexivity.
    + destruct error; reflexivity.
    + rewrite Hqf. reflexivity.
    + rewrite Hwf. reflexivity.
Qed.

Lemma drain_effect_calls w w' done :
  drain_effect w w' done ->
  apiCallsUsed (stats w') = apiCallsUsed (stats w) + length done.
Proof. intros (l & _ & _ & _ & H & _). exact H. Qed.

(** The loop with [n] calls left processes the first [n] tasks it is given. *)
Lemma processQueueItems_effect (env : Env) (items : list QueueRow) :
  forall n w,
    apiCallsUsed (stats w) + n = MAX_API_CALLS ->
    drain_effect w (snd (processQueueItems env items w)) (take n items).
Proof.
  induction items as [|item rest IH]; intros n w Hn.
  - rewrite take_nil. apply drain_effect_refl.
  - rewrite processQueueItems_cons. destruct n as [|n].
    + assert (Hb : (MAX_API_CALLS <=? apiCallsUsed (stats w)) = true)
        by (apply Nat.leb_le; lia).
      rewrite Hb. apply drain_effect_refl.
    + assert (Hb : (MAX_API_CALLS <=? apiCallsUsed (stats w)) = false)
        by (apply Nat.leb_gt; lia).
      rewrite Hb.
      pose proof (processQueueItem_effect env item w) as H1.
      pose proof (drain_effect_calls _ _ _ H1) as Hc1. simpl in Hc1.
      change (take (S n) (item :: rest)) with ([item] ++ take n rest).
      eapply drain_effect_trans; [exact H1 |]. apply IH. lia.
Qed.

Lemma processQueue_effect (env : Env) (w : World) (n : nat) :
  apiCallsUsed (stats w) + n = MAX_API_CALLS ->
  drain_effect w (snd (processQueue env w))
    (take n (drained env (length (trace w)) (db w))).
Proof.
  intros Hn. rewrite processQueue_eq.
  assert (H0 : drain_effect w (snd (emit (EvQueueSelect MAX_API_CALLS) w)) []).
  { exists [EvQueueSelect MAX_API_CALLS]. simpl.
    repeat split; try reflexivity; lia. }
  change (take n (drained env (length (trace w)) (db w)))
    with ([] ++ take n (drained env (length (trace w)) (db w))).
  eapply drain_effect_trans; [exact H0 |].
  apply processQueueItems_effect. exact Hn.
Qed.

(** X5. A drain entered with [n] calls left processes exactly the first [n]
    of the tasks it read, oldest first: it issues one lookup and one queue
    update for each of them, in that order, spends one call on each, and
    does nothing for the tasks beyond the first [n]. It lists no table,
    probes no URL and enqueues nothing. *)
Theorem processQueue_fifo_prefix (env : Env) (w : World) (n : nat) :
  apiCallsUsed (stats w) + n = MAX_API_CALLS ->
  let tasks := take n (drained env (length (trace w)) (db w)) in
  let w' := snd (processQueue env w) in
  List.filter is_graph_get (issued w w') = map lookup_of_task tasks /\
  omap marked_id (issued w w') = map q_id tasks /\
  apiCallsUsed (stats w') = apiCallsUsed (stats w) + length tasks /\
  List.filter is_table_select (issued w w') = [] /\
  List.filter is_head (issued w w') = [] /\
  List.filter is_queue_insert (issued w w') = [].
Proof.
  intros Hn tasks w'.
  destruct (processQueue_effect env w n Hn)
    as (l & Ht & Hg & Hm & Hc & Hs & Hh & Hi & _).
  fold tasks in Hg, Hm, Hc. fold w' in Ht, Hc.
  rewrite (issued_app w w' l Ht). auto 10.
Qed.

(** ** The gate between drain and sweep *)

Lemma sweeps_quietly_refl w : sweeps_quietly w w.
Proof. exists []. rewrite app_nil_r. auto. Qed.

Lemma sweeps_quietly_trans a b c :
  sweeps_quietly a b -> sweeps_quietly b c -> sweeps_quietly a c.
Proof.
  intros (l1 & Ht1 & Hm1 & Hs1) (l2 & Ht2 & Hm2 & Hs2).
  exists (l1 ++ l2).
  rewrite Ht2, Ht1, app_assoc, omap_app, List.filter_app, Hm1, Hm2, Hs1, Hs2.
  auto.
Qed.

Lemma sweeps_quietly_step w w' l :
  trace w' = trace w ++ l -> omap marked_id l = [] ->
  List.filter is_table_select l = [] -> sweeps_quietly w w'.
Proof. intros Ht Hm Hs. exists l. auto. Qed.

Lemma sweepVideos_quietly (env : Env) tableName videos w :
  sweeps_quietly w (snd (sweepVideos env tableName videos w)).
Proof.
  apply (sweepVideos_respects env (fun _ => True) sweeps_quietly
           sweeps_quietly_refl sweeps_quietly_trans (fun _ => True));
    try exact I; try (intros; exact I).
  - intros f w0 _. apply (sweeps_quietly_step _ _ []); simpl;
      rewrite ?app_nil_r; reflexivity.
  - intros url w0.
    destruct (isUrlValid_world env url w0) as (_ & _ & [Ht | (u & _ & Ht)]).
    + apply (sweeps_quietly_step _ _ []); rewrite ?app_nil_r; auto.
    + apply (sweeps_quietly_step _ _ [EvHead u]); auto.
  - intros videoId w0 _. rewrite getFacebookVideoUrl_world.
    apply (sweeps_quietly_step _ _ [EvGraphGet videoId]); reflexivity.
  - intros tbl rowId newUrl w0 _.
    destruct (updateVideoUrl_frame env tbl rowId newUrl w0)
      as (_ & _ & _ & _ & [Ht | Ht]).
    + apply (sweeps_quietly_step _ _ []); rewrite ?app_nil_r; auto.
    + apply (sweeps_quietly_step _ _ [EvTableUpdate tbl rowId newUrl]); auto.
  - intros tbl v w0. rewrite enqueued_world.
    eapply sweeps_quietly_step; reflexivity.
Qed.

(** The sweep lists the two tables, episodes first, and marks no task. *)
Lemma processFreshVideos_listing (env : Env) (w : World) :
  exists l,
    trace (snd (processFreshVideos env w)) = trace w ++ l /\
    omap marked_id l = [] /\
    List.filter is_table_select l =
      [EvTableSelect "episodes"; EvTableSelect "movies"].
Proof.
  rewrite processFreshVideos_eq, !sweepTable_eq.
  set (w1 := snd (emit (EvTableSelect "episodes") w)).
  destruct (sweepVideos_quietly env "episodes"
              (if table_select_ok env (length (trace w)) "episodes"
               then select_videos "episodes" (db w) else []) w1)
    as (l1 & Ht1 & Hm1 & Hs1).
  set (w2 := snd (sweepVideos env "episodes" _ w1)) in *.
  set (w3 := snd (emit (EvTableSelect "movies") w2)).
  destruct (sweepVideos_quietly env "movies"
              (if table_select_ok env (length (trace w2)) "movies"
               then select_videos "movies" (db w2) else []) w3)
    as (l2 & Ht2 & Hm2 & Hs2).
  exists ([EvTableSelect "episodes"] ++ l1 ++ [EvTableSelect "movies"] ++ l2).
  split.
  { rewrite Ht2. subst w3. simpl. rewrite Ht1. subst w1. simpl.
    rewrite <- !app_assoc. reflexivity. }
  split.
  - rewrite !omap_app, Hm1, Hm2. reflexivity.
  - rewrite !List.filter_app, Hs1, Hs2. reflexivity.
Qed.

Lemma drained_length (env : Env) (t : nat) (d : Database) :
  length (drained env t d) <= MAX_API_CALLS.
Proof.
  unfold drained, selectPendingQueue.
  destruct (queue_select_ok env t); [| simpl; lia].
  rewrite length_take. lia.
Qed.

(** Over answers on the schema. In a run the drain processes every task it
    read, in the order read:
    the queue updates of the run are addressed to exactly those tasks. If it
    read as many tasks as the budget has calls, the sweep is skipped: no
    table is listed, no URL probed, nothing enqueued, and the run ends with
    [totalChecked] and [queued] at zero and the budget used up. If it read
    fewer, the sweep lists the episodes and then the movies. *)
Lemma drain_gate_on_schema (env : Env) (w : World) :
  let tasks := drained env (drain_tick env w) (db w) in
  let w' := snd (processUrlUpdates env w) in
  omap marked_id (issued w w') = map q_id tasks /\
  (length tasks = MAX_API_CALLS ->
   List.filter is_table_select (issued w w') = [] /\
   List.filter is_head (issued w w') = [] /\
   List.filter is_queue_insert (issued w w') = [] /\
   totalChecked (stats w') = 0 /\ queued (stats w') = 0 /\
   apiCallsUsed (stats w') = MAX_API_CALLS) /\
  (length tasks < MAX_API_CALLS ->
   List.filter is_table_select (issued w w') =
     [EvTableSelect "episodes"; EvTableSelect "movies"]).
Proof.
  intros tasks w'. subst w'. rewrite processUrlUpdates_eq. cbv zeta.
  set (w1 := snd (sendTelegram env start_message (reset env w))).
  assert (H1 : exists l1, trace w1 = trace w ++ l1 /\
                 length (trace w1) = drain_tick env w /\
                 omap marked_id l1 = [] /\
                 List.filter is_table_select l1 = [] /\
                 List.filter is_head l1 = [] /\
                 List.filter is_queue_insert l1 = [] /\
                 db w1 = db w /\ stats w1 = fresh_stats (startTime (stats w1))).
  { subst w1. rewrite sendTelegram_world. unfold reset, drain_tick. simpl.
    destruct (telegram_configured env).
    - exists [EvTelegram start_message]. rewrite length_app. simpl. auto 10.
    - exists []. rewrite app_nil_r. rewrite Nat.add_0_r. auto 10. }
  destruct H1 as (l1 & Ht1 & Hlen1 & Hm1 & Hs1 & Hh1 & Hi1 & Hd1 & Hst1).
  assert (Hc1 : apiCallsUsed (stats w1) + MAX_API_CALLS = MAX_API_CALLS)
    by (rewrite Hst1; reflexivity).
  destruct (processQueue_effect env w1 MAX_API_CALLS Hc1)
    as (l2 & Ht2 & _ & Hm2 & Hc2 & Hs2 & Hh2 & Hi2 & Hk2 & Hq2).
  rewrite Hlen1, Hd1 in Hm2, Hc2. fold tasks in Hm2, Hc2.
  rewrite take_ge in Hm2, Hc2 by apply drained_length.
  set (w2 := snd (processQueue env w1)) in *.
  assert (Hapi2 : apiCallsUsed (stats w2) = length tasks)
    by (rewrite Hc2, Hst1; reflexivity).
  assert (Hk2' : totalChecked (stats w2) = 0) by (rewrite Hk2, Hst1; reflexivity).
  assert (Hq2' : queued (stats w2) = 0) by (rewrite Hq2, Hst1; reflexivity).
  assert (Hfinal : forall w3 l3,
            trace w3 = trace w2 ++ l3 ->
            exists l4,
              issued w
                (snd (sendTelegram env
                        (Report.generateReport
                           (locale_date env (clock env (length (trace w3))))
                           (clock env (length (trace w3))) (stats w3)) w3)) =
              l1 ++ l2 ++ l3 ++ l4 /\
              omap marked_id l4 = [] /\ List.filter is_table_select l4 = [] /\
              List.filter is_head l4 = [] /\ List.filter is_queue_insert l4 = []).
  { intros w3 l3 Ht3. rewrite sendTelegram_world. unfold issued. cbn [trace].
    destruct (telegram_configured env).
    - eexists [_]. rewrite Ht3, Ht2, Ht1, <- !app_assoc, drop_app_length.
      split; [reflexivity | auto].
    - exists []. rewrite Ht3, Ht2, Ht1, <- !app_assoc, drop_app_length.
      rewrite app_nil_r. auto. }
  destruct (apiCallsUsed (stats w2) <? MAX_API_CALLS) eqn:Hgate.
  - apply Nat.ltb_lt in Hgate.
    destruct (processFreshVideos_listing env w2) as (l3 & Ht3 & Hm3 & Hs3).
    destruct (Hfinal _ l3 Ht3) as (l4 & -> & Hm4 & Hs4 & _).
    rewrite !omap_app, !List.filter_app, Hm1, Hm2, Hm3, Hm4, Hs1, Hs2, Hs3, Hs4.
    simpl. rewrite app_nil_r.
    split; [reflexivity |]. split; [intros Hfull; lia | intros _; reflexivity].
  - apply Nat.ltb_ge in Hgate.
    destruct (Hfinal w2 []) as (l4 & -> & Hm4 & Hs4 & Hh4 & Hi4);
      [rewrite app_nil_r; reflexivity |].
    rewrite !omap_app, !List.filter_app, Hm1, Hm2, Hm4, Hs1, Hs2, Hs4,
      Hh1, Hh2, Hh4, Hi1, Hi2, Hi4.
    simpl. rewrite app_nil_r. rewrite sendTelegram_world. cbn [stats].
    split; [reflexivity |]. split; [| intros Hlt; lia].
    intros Hfull. rewrite Hk2', Hq2', Hapi2. auto 10.
Qed.

(** ** What a drain leaves in the queue *)

Lemma leaves_unmarked_refl w : leaves_unmarked w w.
Proof. exists []. rewrite app_nil_r. auto. Qed.

Lemma leaves_unmarked_trans a b c :
  leaves_unmarked a b -> leaves_unmarked b c -> leaves_unmarked a c.
Proof.
  intros (l1 & Ht1 & H1) (l2 & Ht2 & H2). exists (l1 ++ l2).
  rewrite Ht2, Ht1, app_assoc. split; [reflexivity |].
  intros r Hr Hn. rewrite omap_app in Hn.
  assert (Hb : In r (url_update_queue (db b))).
  { apply H1; [exact Hr |]. intros Hin. apply Hn. apply in_or_app. auto. }
  apply H2; [exact Hb |]. intros Hin. apply Hn. apply in_or_app. auto.
Qed.

Lemma leaves_unmarked_same w w' l :
  trace w' = trace w ++ l ->
  url_update_queue (db w') = url_update_queue (db w) ->
  leaves_unmarked w w'.
Proof. intros Ht Hq. exists l. rewrite Hq. auto. Qed.

Lemma leaves_unmarked_drain (env : Env) (w : World) :
  leaves_unmarked w (snd (processQueue env w)).
Proof.
  apply (processQueue_respects env (fun _ => True) leaves_unmarked
           leaves_unmarked_refl leaves_unmarked_trans (fun _ => True));
    try exact I; try (intros; exact I).
  - intros f w0 _. apply (leaves_unmarked_same _ _ []); simpl;
      rewrite ?app_nil_r; reflexivity.
  - intros w0. apply (leaves_unmarked_same _ _ [EvQueueSelect MAX_API_CALLS]);
      reflexivity.
  - intros videoId w0 _. rewrite getFacebookVideoUrl_world.
    apply (leaves_unmarked_same _ _ [EvGraphGet videoId]); reflexivity.
  - intros queueId st msg w0 _. rewrite markQueueProcessed_world.
    exists [EvQueueUpdate queueId st msg]. split; [reflexivity |].
    simpl. intros r Hr Hn.
    destruct (queue_update_ok env (length (trace w0))); [| exact Hr].
    simpl. apply in_map_iff. exists r. split; [| exact Hr].
    apply mark_row_miss. intros Heq. apply Hn. left. symmetry. exact Heq.
  - intros tableName rowId newUrl w0 _.
    destruct (updateVideoUrl_frame env tableName rowId newUrl w0)
      as (Hq & _ & _ & _ & [Ht | Ht]).
    + apply (leaves_unmarked_same _ _ []); rewrite ?app_nil_r; assumption.
    + eapply leaves_unmarked_same; eassumption.
Qed.

Lemma keeps_settled_same queueId w w' :
  url_update_queue (db w') = url_update_queue (db w) ->
  keeps_settled queueId w w'.
Proof. intros Hq H r Hr. apply H. rewrite <- Hq. exact Hr. Qed.

Lemma settled_mark i queueId st now msg (q : list QueueRow) :
  st = Status.completed \/ st = Status.failed ->
  (forall r, In r q -> q_id r = i ->
     (status r = Status.completed \/ status r = Status.failed) /\
     processed_at r <> None) ->
  forall r, In r (map (mark_row queueId st now msg) q) -> q_id r = i ->
    (status r = Status.completed \/ status r = Status.failed) /\
    processed_at r <> None.
Proof.
  intros Hst H r Hr Hid. apply in_map_iff in Hr as (r0 & <- & Hr0).
  destruct (Z.eq_dec (q_id r0) queueId) as [Heq | Hne].
  - destruct (mark_row_hit queueId st now msg r0 Heq) as (Hs & _ & Hp).
    rewrite Hs, Hp. split; [exact Hst | discriminate].
  - rewrite mark_row_miss in * by exact Hne. apply H; assumption.
Qed.

Lemma keeps_settled_items (env : Env) (i : Z) (items : list QueueRow) (w : World) :
  keeps_settled i w (snd (processQueueItems env items w)).
Proof.
  apply (processQueueItems_respects env (fun _ => True) (keeps_settled i)
           (fun w0 H => H) (fun a b c H1 H2 H => H2 (H1 H)) (fun _ => True));
    try exact I; try (intros; exact I).
  - intros f w0 _. apply keeps_settled_same. reflexivity.
  - intros videoId w0 _. rewrite getFacebookVideoUrl_world.
    apply keeps_settled_same. reflexivity.
  - intros queueId st msg w0 Hst. rewrite markQueueProcessed_world.
    destruct (queue_update_ok env (length (trace w0)));
      [| apply keeps_settled_same; reflexivity].
    intros H. unfold settled. simpl. apply settled_mark; [exact Hst | exact H].
  - intros tableName rowId newUrl w0 _.
    destruct (updateVideoUrl_frame env tableName rowId newUrl w0) as (Hq & _).
    apply keeps_settled_same. exact Hq.
  - apply Forall_forall. intros; exact I.
Qed.

(** With a queue store that applies every update, one turn of the drain
    settles its task. *)
Lemma processQueueItem_settles (env : Env) (item : QueueRow) (w : World) :
  (forall t, queue_update_ok env t = true) ->
  settled (q_id item) (db (snd (processQueueItem env item w))).
Proof.
  intros Hok.
  assert (Hmark : forall st msg w0,
            st = Status.completed \/ st = Status.failed ->
            settled (q_id item)
              (db (snd (markQueueProcessed env (q_id item) st msg w0)))).
  { intros st msg w0 Hst. rewrite markQueueProcessed_world. simpl.
    rewrite Hok. intros r Hr Hid. simpl in Hr.
    apply in_map_iff in Hr as (r0 & <- & _).
    destruct (mark_row_same_task (q_id item) st
                (clock env (length (trace w0))) msg r0) as (Hq & _).
    rewrite Hq in Hid.
    destruct (mark_row_hit (q_id item) st (clock env (length (trace w0))) msg
                r0 Hid) as (Hs & _ & Hp).
    rewrite Hs, Hp. split; [exact Hst | discriminate]. }
  rewrite processQueueItem_eq. cbv zeta.
  destruct (fst (getFacebookVideoUrl env (facebook_video_id item) w))
    as [url | error message].
  - destruct (fst (updateVideoUrl env (table_name item) (row_id item) url _));
      simpl; apply Hmark; auto.
  - destruct (record_failure_world error
                {| fi_id := facebook_video_id item;
                   fi_title := Some (Js.or_else (video_title item) "Unknown") |}
                (snd (modify_stats (fun s => set_failed (S (failed s)) s)
                        (snd (markQueueProcessed env (q_id item) Status.failed
                                (Some message)
                                (snd (getFacebookVideoUrl env
                                        (facebook_video_id item) w)))))))
      as (Hwf & _).
    rewrite Hwf. simpl. apply Hmark. auto.
Qed.

Lemma processQueueItems_settle (env : Env) (items : list QueueRow) :
  (forall t, queue_update_ok env t = true) ->
  forall n w,
    apiCallsUsed (stats w) + n = MAX_API_CALLS ->
    forall task, In task (take n items) ->
      settled (q_id task) (db (snd (processQueueItems env items w))).
Proof.
  intros Hok. induction items as [|item rest IH]; intros n w Hn task Hin.
  - rewrite take_nil in Hin. destruct Hin.
  - destruct n as [|n]; [destruct Hin |].
    rewrite processQueueItems_cons.
    assert (Hb : (MAX_API_CALLS <=? apiCallsUsed (stats w)) = false)
      by (apply Nat.leb_gt; lia).
    rewrite Hb.
    pose proof (drain_effect_calls _ _ _ (processQueueItem_effect env item w))
      as Hc. simpl in Hc.
    destruct Hin as [<- | Hin].
    + apply keeps_settled_items. apply processQueueItem_settles. exact Hok.
    + apply (IH n); [lia | exact Hin].
Qed.

Lemma drained_in (env : Env) (t : nat) (d : Database) (task : QueueRow) :
  In task (drained env t d) ->
  status task = Status.pending /\ In task (url_update_queue d).
Proof.
  unfold drained, selectPendingQueue.
  destruct (queue_select_ok env t); [| intros []].
  intros Hin. destruct (pending_sorted (url_update_queue d)) as (_ & _ & Hall).
  assert (Hcut := Hall). apply Forall_take with (n := MAX_API_CALLS) in Hcut.
  rewrite Forall_forall in Hcut. apply Hcut. apply list_elem_of_In. exact Hin.
Qed.

Lemma filter_pending_sublist (q : list QueueRow) :
  List.filter is_pending q `sublist_of` q.
Proof.
  induction q as [|r q IH]; simpl; [constructor |].
  destruct (is_pending r); [apply sublist_skip | apply sublist_cons]; exact IH.
Qed.

Lemma drained_NoDup (env : Env) (t : nat) (d : Database) :
  List.NoDup (map q_id (url_update_queue d)) ->
  List.NoDup (map q_id (drained env t d)).
Proof.
  intros Hnd. unfold drained, selectPendingQueue.
  destruct (queue_select_ok env t); [| constructor].
  apply NoDup_ListNoDup.
  change (map q_id) with (fmap (M := list) q_id) in *.
  eapply sublist_NoDup; [| apply fmap_sublist, sublist_take].
  rewrite merge_sort_Permutation.
  eapply sublist_NoDup; [| apply fmap_sublist, filter_pending_sublist].
  apply NoDup_ListNoDup. exact Hnd.
Qed.

(** X7. After a drain entered with [n] calls left: every task that is not
    among the first [n] read is in the queue exactly as it was. If the
    queue's ids are distinct, that holds in particular for the tasks read
    beyond the first [n], which therefore stay pending for the next run.
    And if the queue store applies every update, each of the first [n]
    tasks read ends up completed or failed, with a processed time. *)
Theorem processQueue_outcome (env : Env) (w : World) (n : nat) :
  apiCallsUsed (stats w) + n = MAX_API_CALLS ->
  let read := drained env (length (trace w)) (db w) in
  let w' := snd (processQueue env w) in
  (forall r, In r (url_update_queue (db w)) ->
     ~ In (q_id r) (map q_id (take n read)) ->
     In r (url_update_queue (db w'))) /\
  (List.NoDup (map q_id (url_update_queue (db w))) ->
   forall task, In task (drop n read) ->
     In task (url_update_queue (db w')) /\ status task = Status.pending) /\
  ((forall t, queue_update_ok env t = true) ->
   forall task, In task (take n read) -> settled (q_id task) (db w')).
Proof.
  intros Hn read w'.
  destruct (leaves_unmarked_drain env w) as (l & Ht & Hkeep).
  destruct (processQueue_effect env w n Hn) as (l' & Ht' & _ & Hm & _).
  fold w' in Ht, Ht', Hkeep. fold read in Hm.
  assert (l' = l) by (rewrite Ht in Ht'; apply app_inv_head in Ht'; congruence).
  subst l'.
  assert (H1 : forall r, In r (url_update_queue (db w)) ->
                 ~ In (q_id r) (map q_id (take n read)) ->
                 In r (url_update_queue (db w'))).
  { intros r Hr Hnot. apply Hkeep; [exact Hr |]. rewrite Hm. exact Hnot. }
  split; [exact H1 |]. split.
  - intros Hnd task Hin.
    assert (Hread : In task read).
    { rewrite <- (take_drop n read). apply in_or_app. right. exact Hin. }
    destruct (drained_in env _ _ task Hread) as (Hp & Hq).
    split; [| exact Hp]. apply H1; [exact Hq |].
    pose proof (drained_NoDup env (length (trace w)) (db w) Hnd) as Hnd'.
    fold read in Hnd'.
    rewrite <- (take_drop n read), map_app in Hnd'.
    apply NoDup_ListNoDup, NoDup_app in Hnd' as (_ & Hdisj & _).
    intros Hin'. apply (Hdisj (q_id task)).
    + apply list_elem_of_In. exact Hin'.
    + apply list_elem_of_In, in_map. exact Hin.
  - intros Hok task Hin. subst w'. rewrite processQueue_eq.
    apply (processQueueItems_settle env _ Hok n); [exact Hn | exact Hin].
Qed.

(** ** Failures of the resolver in the sweep *)

(** X8. In a turn of the sweep where the probe says invalid and the
    resolver fails, [failed] goes up by one and [updated] stays; the record
    is filed, with its video id and title, in exactly one bucket:
    [notFound] for [not_found], [permissionDenied] for [permission_denied],
    and [apiError] for every other kind ([no_source], [rate_limit],
    [api_error], [network_error]). The database is untouched: no record
    update and no queue insert is issued. *)
Theorem sweepVideo_resolver_failure (env : Env) (tableName : string)
    (video : Video) (w : World) (kind : ErrorKind) (message : string) :
  let w1 := snd (isUrlValid env (Some (video_url_of video)) (checked w)) in
  fst (isUrlValid env (Some (video_url_of video)) (checked w)) = false ->
  fst (getFacebookVideoUrl env (video_id_of video) w1) = Failure kind message ->
  let w' := snd (sweepVideo env tableName video w) in
  let before := failures (stats w) in
  failed (stats w') = S (failed (stats w)) /\
  updated (stats w') = updated (stats w) /\
  failures (stats w') =
    match kind with
    | not_found =>
        {| notFound := notFound before ++ [failure_of video];
           permissionDenied := permissionDenied before;
           apiError := apiError before |}
    | permission_denied =>
        {| notFound := notFound before;
           permissionDenied := permissionDenied before ++ [failure_of video];
           apiError := apiError before |}
    | _ =>
        {| notFound := notFound before;
           permissionDenied := permissionDenied before;
           apiError := apiError before ++ [failure_of video] |}
    end /\
  db w' = db w /\
  omap updated_record (issued w w') = [] /\
  List.filter is_queue_insert (issued w w') = [].
Proof.
  intros w1 Hprobe Hres w' before. subst w'. rewrite sweepVideo_eq. cbv zeta.
  fold w1. rewrite Hprobe, Hres.
  destruct (isUrlValid_world env (Some (video_url_of video)) (checked w))
    as (Hs1 & Hd1 & Ht1). fold w1 in Hs1, Hd1, Ht1.
  pose proof (getFacebookVideoUrl_world env (video_id_of video) w1) as Hw2.
  set (w2 := snd (getFacebookVideoUrl env (video_id_of video) w1)) in *.
  assert (Hl : exists l, trace w2 = trace w ++ l /\ omap updated_record l = [] /\
                         List.filter is_queue_insert l = []).
  { rewrite Hw2. simpl. destruct Ht1 as [Ht1 | (u & _ & Ht1)]; rewrite Ht1.
    - exists [EvGraphGet (video_id_of video)]. auto.
    - exists [EvHead u; EvGraphGet (video_id_of video)].
      rewrite <- app_assoc. auto. }
  destruct Hl as (l & Hl & Hu & Hi).
  assert (Hst : stats w2 =
                incr_apiCallsUsed
                  (set_totalChecked (S (totalChecked (stats w))) (stats w)))
    by (rewrite Hw2; simpl; rewrite Hs1; reflexivity).
  assert (Hdb : db w2 = db w) by (rewrite Hw2; simpl; exact Hd1).
  unfold failure_of, issued.
  destruct kind; simpl; rewrite Hst, Hdb, Hl, drop_app_length; simpl; auto 10.
Qed.

(** ** The report and the third bucket *)

Lemma bucket_view (heading icon : string) (shown : nat)
    (items items' : list FailureInfo) :
  length items = length items' ->
  map fi_title (take shown items) = map fi_title (take shown items') ->
  Report.bucket heading icon shown items = Report.bucket heading icon shown items'.
Proof.
  intros Hlen Htitles. unfold Report.bucket. rewrite Hlen.
  assert (Hlines :
    map (fun item => ("  " ++ icon ++ " " ++ Report.show_title (fi_title item)
                      ++ Report.nl)%string) (take shown items) =
    map (fun item => ("  " ++ icon ++ " " ++ Report.show_title (fi_title item)
                      ++ Report.nl)%string) (take shown items')).
  { rewrite <- (map_map fi_title
                  (fun t => ("  " ++ icon ++ " " ++ Report.show_title t
                             ++ Report.nl)%string) (take shown items)).
    rewrite <- (map_map fi_title
                  (fun t => ("  " ++ icon ++ " " ++ Report.show_title t
                             ++ Report.nl)%string) (take shown items')).
    rewrite Htitles. reflexivity. }
  rewrite Hlines. reflexivity.
Qed.

(** X9. The report depends on the statistics only through the counters,
    the start time, the sizes of the [notFound] and [permissionDenied]
    buckets and the titles of their first five and first three entries:
    two statistics that agree on these give the same report. In particular
    the [apiError] bucket is never itemised (rate limits, network errors,
    missing sources and other provider errors show through the [Failed]
    count only), and no video id is ever shown. *)
Theorem generateReport_view (date : string) (now : Z) (s s' : Stats) :
  (report_view s = report_view s' ->
   Report.generateReport date now s = Report.generateReport date now s') /\
  (forall l, Report.generateReport date now (with_apiError l s) =
             Report.generateReport date now s).
Proof.
  split; [| reflexivity].
  unfold report_view. intros H.
  injection H as Htc Hav Hup Hfa Hqu Heu Hmu Hac Hst Hnl Hnt Hpl Hpt.
  unfold Report.generateReport, Report.summary, Report.by_table, Report.usage,
    Report.closing_line.
  rewrite Htc, Hav, Hup, Hfa, Hqu, Heu, Hmu, Hac, Hst.
  rewrite (bucket_view _ _ 5 _ _ Hnl Hnt), (bucket_view _ _ 3 _ _ Hpl Hpt).
  reflexivity.
Qed.

(** ** The record updater *)

Lemma set_url_miss rowId newUrl (rows : list VideoRow) :
  ~ In rowId (map v_id rows) -> map (set_url rowId newUrl) rows = rows.
Proof.
  induction rows as [|r rows IH]; simpl; intros Hnot; [reflexivity |].
  unfold set_url at 1.
  destruct (Z.eqb (v_id r) rowId) eqn:E.
  - apply Z.eqb_eq in E. exfalso. apply Hnot. left. exact E.
  - f_equal. apply IH. intros Hin. apply Hnot. right. exact Hin.
Qed.

Lemma set_url_rows rowId newUrl (rows : list VideoRow) :
  Forall (fun r => v_id r = rowId -> videoUrl r = Some newUrl)
         (map (set_url rowId newUrl) rows) /\
  (forall r, In r rows -> v_id r <> rowId ->
             In r (map (set_url rowId newUrl) rows)).
Proof.
  split.
  - apply Forall_forall. intros r Hr Hid.
    apply list_elem_of_In, in_map_iff in Hr as (r0 & <- & _).
    unfold set_url in *. destruct (Z.eqb (v_id r0) rowId) eqn:E; [reflexivity |].
    apply Z.eqb_neq in E. contradiction.
  - intros r Hr Hne. apply in_map_iff. exists r. split; [| exact Hr].
    unfold set_url. apply Z.eqb_neq in Hne. rewrite Hne. reflexivity.
Qed.

(** What a successful record update did. *)
Lemma updateVideoUrl_succeeded (env : Env) (tableName : string) (rowId : Z)
    (newUrl : string) (w : World) :
  let r := updateVideoUrl env tableName rowId newUrl w in
  fst r = true ->
  (tableName = "episodes"%string \/ tableName = "movies"%string) /\
  rows_of tableName (db (snd r)) =
    map (set_url rowId newUrl) (rows_of tableName (db w)) /\
  Forall (fun row => v_id row = rowId -> videoUrl row = Some newUrl)
         (rows_of tableName (db (snd r))) /\
  (forall row, In row (rows_of tableName (db w)) -> v_id row <> rowId ->
     In row (rows_of tableName (db (snd r)))) /\
  (forall other, other <> tableName ->
     rows_of other (db (snd r)) = rows_of other (db w)) /\
  url_update_queue (db (snd r)) = url_update_queue (db w) /\
  episodesUpdated (stats (snd r)) + moviesUpdated (stats (snd r)) =
    S (episodesUpdated (stats w) + moviesUpdated (stats w)) /\
  (~ In rowId (map v_id (rows_of tableName (db w))) -> db (snd r) = db w).
Proof.
  intros r. subst r. rewrite updateVideoUrl_world.
  destruct (String.eqb tableName "episodes") eqn:He.
  - apply String.eqb_eq in He. subst tableName. cbn [fst snd].
    intros Hok. rewrite Hok. unfold rows_of. simpl.
    split; [auto |]. split; [reflexivity |].
    destruct (set_url_rows rowId newUrl (episodes (db w))) as (Hall & Hkeep).
    split; [exact Hall |]. split; [exact Hkeep |].
    split.
    { intros other Hne. apply String.eqb_neq in Hne. rewrite Hne. reflexivity. }
    split; [reflexivity |]. split; [lia |].
    intros Hnot. rewrite set_url_miss by exact Hnot. destruct (db w); reflexivity.
  - destruct (String.eqb tableName "movies") eqn:Hm; [| discriminate].
    apply String.eqb_eq in Hm. subst tableName. cbn [fst snd].
    intros Hok. rewrite Hok. unfold rows_of. simpl.
    split; [auto |]. split; [reflexivity |].
    destruct (set_url_rows rowId newUrl (movies (db w))) as (Hall & Hkeep).
    split; [exact Hall |]. split; [exact Hkeep |].
    split.
    { intros other Hne. destruct (String.eqb other "episodes"); [reflexivity |].
      apply String.eqb_neq in Hne. rewrite Hne. reflexivity. }
    split; [reflexivity |]. split; [lia |].
    intros Hnot. rewrite set_url_miss by exact Hnot. destruct (db w); reflexivity.
Qed.

(** What a record update does to the statistics, the sequence and the log. *)
Lemma updateVideoUrl_stats (env : Env) (tableName : string) (rowId : Z)
    (newUrl : string) (w : World) :
  let r := updateVideoUrl env tableName rowId newUrl w in
  (fst r = true ->
   stats (snd r) =
     (if String.eqb tableName "episodes"
      then set_episodesUpdated (S (episodesUpdated (stats w))) (stats w)
      else set_moviesUpdated (S (moviesUpdated (stats w))) (stats w)) /\
   queue_next_id (db (snd r)) = queue_next_id (db w) /\
   trace (snd r) = trace w ++ [EvTableUpdate tableName rowId newUrl]) /\
  (fst r = false -> stats (snd r) = stats w /\ db (snd r) = db w).
Proof.
  cbv zeta. rewrite updateVideoUrl_world.
  destruct (String.eqb tableName "episodes");
    [| destruct (String.eqb tableName "movies")]; cbn [fst snd].
  - destruct (table_update_ok env (length (trace w)) tableName); cbn.
    + split; [intros _; repeat split | discriminate].
    + split; [discriminate | intros _; split; reflexivity].
  - destruct (table_update_ok env (length (trace w)) tableName); cbn.
    + split; [intros _; repeat split | discriminate].
    + split; [discriminate | intros _; split; reflexivity].
  - split; [discriminate | intros _; split; reflexivity].
Qed.

(** X10. [updateVideoUrl] on a table other than [episodes] and [movies]
    reports failure without issuing a request or changing anything, and
    whenever it reports failure the statistics and the database are as they
    were. When it reports success, the table is one of the two and one
    update was issued; every row of the table with the given id carries the
    new URL, its other rows, the other table and the queue are as before;
    the update counter of that table went up by one and every other
    statistic, the other table's counter included, is as before. Success
    does not mean a row was written: when no row has the id, the database
    is unchanged and the counter still goes up. *)
Theorem updateVideoUrl_outcome (env : Env) (tableName : string) (rowId : Z)
    (newUrl : string) (w : World) :
  let r := updateVideoUrl env tableName rowId newUrl w in
  (tableName <> "episodes"%string -> tableName <> "movies"%string ->
   r = (false, w)) /\
  (fst r = false -> stats (snd r) = stats w /\ db (snd r) = db w) /\
  (fst r = true ->
   (tableName = "episodes"%string \/ tableName = "movies"%string) /\
   rows_of tableName (db (snd r)) =
     map (set_url rowId newUrl) (rows_of tableName (db w)) /\
   Forall (fun row => v_id row = rowId -> videoUrl row = Some newUrl)
          (rows_of tableName (db (snd r))) /\
   (forall row, In row (rows_of tableName (db w)) -> v_id row <> rowId ->
      In row (rows_of tableName (db (snd r)))) /\
   (forall other, other <> tableName ->
      rows_of other (db (snd r)) = rows_of other (db w)) /\
   url_update_queue (db (snd r)) = url_update_queue (db w) /\
   queue_next_id (db (snd r)) = queue_next_id (db w) /\
   stats (snd r) =
     (if String.eqb tableName "episodes"
      then set_episodesUpdated (S (episodesUpdated (stats w))) (stats w)
      else set_moviesUpdated (S (moviesUpdated (stats w))) (stats w)) /\
   (tableName = "episodes"%string ->
    episodesUpdated (stats (snd r)) = S (episodesUpdated (stats w)) /\
    moviesUpdated (stats (snd r)) = moviesUpdated (stats w)) /\
   (tableName = "movies"%string ->
    moviesUpdated (stats (snd r)) = S (moviesUpdated (stats w)) /\
    episodesUpdated (stats (snd r)) = episodesUpdated (stats w)) /\
   trace (snd r) = trace w ++ [EvTableUpdate tableName rowId newUrl] /\
   (~ In rowId (map v_id (rows_of tableName (db w))) -> db (snd r) = db w)).
Proof.
  intros r.
  destruct (updateVideoUrl_stats env tableName rowId newUrl w) as (Hyes & Hno).
  fold r in Hyes, Hno.
  split.
  { intros He Hm. subst r. rewrite updateVideoUrl_world.
    apply String.eqb_neq in He, Hm. rewrite He, Hm. reflexivity. }
  split; [exact Hno |].
  intros Hok.
  destruct (updateVideoUrl_succeeded env tableName rowId newUrl w Hok)
    as (Htbl & Hrows & Hall & Hkeep & Hother & Hq & _ & Hmiss).
  fold r in Hrows, Hall, Hkeep, Hother, Hq, Hmiss.
  destruct (Hyes Hok) as (Hs & Hn & Ht).
  repeat (split; [assumption |]).
  split.
  { intros ->. rewrite Hs. split; reflexivity. }
  split.
  { intros ->. rewrite Hs. split; reflexivity. }
  split; assumption.
Qed.

(** ** The validity prober *)






(** ** The sweep spares what needs no refresh *)

Section Spares.

Variable env : Env.

Lemma rows_of_cases tableName (d : Database) :
  (tableName = "episodes"%string /\ rows_of tableName d = episodes d) \/
  (tableName = "movies"%string /\ rows_of tableName d = movies d) \/
  (tableName <> "episodes"%string /\ tableName <> "movies"%string /\
   rows_of tableName d = []).
Proof.
  unfold rows_of.
  destruct (String.eqb tableName "episodes") eqn:He.
  - apply String.eqb_eq in He. auto.
  - destruct (String.eqb tableName "movies") eqn:Hm.
    + apply String.eqb_eq in Hm. auto.
    + apply String.eqb_neq in He, Hm. auto.
Qed.

(** A record update leaves the other table and the rows with another id. *)
Lemma updateVideoUrl_spares tableName rowId newUrl w other r :
  In r (rows_of other (db w)) ->
  other <> tableName \/ v_id r <> rowId ->
  In r (rows_of other (db (snd (updateVideoUrl env tableName rowId newUrl w)))).
Proof.
  intros Hin Hcond.
  destruct (fst (updateVideoUrl env tableName rowId newUrl w)) eqn:Hok.
  - pose proof (updateVideoUrl_succeeded env tableName rowId newUrl w) as H.
    cbv zeta in H.
    destruct (H Hok) as (_ & _ & _ & Hkeep & Hother & _).
    destruct (String.eqb other tableName) eqn:E.
    + apply String.eqb_eq in E. subst other.
      destruct Hcond as [Hne | Hne]; [contradiction |].
      apply Hkeep; assumption.
    + apply String.eqb_neq in E. rewrite Hother by exact E. exact Hin.
  - destruct (updateVideoUrl_failed env tableName rowId newUrl w Hok)
      as (_ & Hd & _).
    rewrite Hd. exact Hin.
Qed.

Lemma sweepVideo_spares tableName video w other r :
  In r (rows_of other (db w)) ->
  other <> tableName \/ v_id r <> id video \/
    always_valid env (video_url_of video) ->
  In r (rows_of other (db (snd (sweepVideo env tableName video w)))).
Proof.
  intros Hin Hcond. rewrite sweepVideo_eq. cbv zeta.
  destruct (isUrlValid_world env (Some (video_url_of video)) (checked w))
    as (_ & Hd1 & _).
  set (r1 := isUrlValid env (Some (video_url_of video)) (checked w)) in *.
  assert (Hin1 : In r (rows_of other (db (snd r1)))) by (rewrite Hd1; exact Hin).
  destruct (fst r1) eqn:Hvalid; [exact Hin1 |].
  assert (Hcond' : other <> tableName \/ v_id r <> id video).
  { destruct Hcond as [H | [H | H]]; auto.
    specialize (H (checked w)). fold r1 in H. congruence. }
  pose proof (getFacebookVideoUrl_world env (video_id_of video) (snd r1)) as Hw2.
  set (r2 := getFacebookVideoUrl env (video_id_of video) (snd r1)) in *.
  assert (Hin2 : In r (rows_of other (db (snd r2))))
    by (rewrite Hw2; exact Hin1).
  destruct (fst r2) as [url | error message].
  - pose proof (updateVideoUrl_spares tableName (id video) url (snd r2) other r
                  Hin2 Hcond') as Hin3.
    destruct (fst (updateVideoUrl env tableName (id video) url (snd r2)));
      exact Hin3.
  - destruct (record_failure_world error (failure_of video)
                (snd (modify_stats (fun s => set_failed (S (failed s)) s)
                        (snd r2)))) as (Hwf & _).
    unfold failure_of in Hwf. rewrite Hwf. exact Hin2.
Qed.

Lemma queueRemaining_tables tableName videos w :
  episodes (db (snd (queueRemaining env tableName videos w))) = episodes (db w) /\
  movies (db (snd (queueRemaining env tableName videos w))) = movies (db w).
Proof. apply (queueRemaining_effect env tableName videos w). Qed.

Lemma rows_of_tables other (d d' : Database) :
  episodes d' = episodes d -> movies d' = movies d ->
  rows_of other d' = rows_of other d.
Proof. intros He Hm. unfold rows_of. rewrite He, Hm. reflexivity. Qed.

Lemma sweepVideos_spares tableName other r videos :
  other <> tableName \/
    Forall (fun v => v_id r <> id v \/ always_valid env (video_url_of v)) videos ->
  forall w,
    In r (rows_of other (db w)) ->
    In r (rows_of other (db (snd (sweepVideos env tableName videos w)))).
Proof.
  intros Hcond. induction videos as [|v rest IH]; intros w Hin; [exact Hin |].
  rewrite sweepVideos_cons.
  destruct (MAX_API_CALLS <=? apiCallsUsed (stats w)).
  - destruct (queueRemaining_tables tableName (v :: rest) w) as (He & Hm).
    rewrite (rows_of_tables other _ _ He Hm). exact Hin.
  - apply IH.
    + destruct Hcond as [H | H]; [left; exact H | right].
      inversion H; assumption.
    + apply sweepVideo_spares; [exact Hin |].
      destruct Hcond as [H | H]; [left; exact H | right].
      inversion H as [|? ? [Hv | Hv] _]; auto.
Qed.

(** The videos a listing shows for a row's id are that row's, when ids are
    distinct. *)
Lemma select_videos_of_row tableName (d : Database) r :
  List.NoDup (map v_id (rows_of tableName d)) ->
  In r (rows_of tableName d) ->
  needs_no_refresh env r ->
  Forall (fun v => v_id r <> id v \/ always_valid env (video_url_of v))
         (select_videos tableName d).
Proof.
  intros Hnd Hin Hfine. apply Forall_forall. intros v Hv.
  unfold select_videos in Hv. apply list_elem_of_omap in Hv as (r0 & Hr0 & Hsel).
  destruct (Z.eq_dec (v_id r) (id v)) as [Heq | Hne]; [right | left; exact Hne].
  assert (Hid : v_id r0 = id v).
  { unfold select_video in Hsel.
    destruct (videoUrl r0), (facebookVideoId r0); try discriminate.
    destruct (String.eqb _ "NULL"); [discriminate |].
    injection Hsel as <-. reflexivity. }
  assert (r0 = r).
  { apply (NoDup_map_inj v_id (rows_of tableName d)); try assumption.
    - apply list_elem_of_In. exact Hr0.
    - congruence. }
  subst r0. unfold needs_no_refresh in Hfine. rewrite Hsel in Hfine. exact Hfine.
Qed.

Lemma sweepTable_spares tableName other r w :
  In r (rows_of other (db w)) ->
  other <> tableName \/
    (List.NoDup (map v_id (rows_of tableName (db w))) /\
     In r (rows_of tableName (db w)) /\ needs_no_refresh env r) ->
  In r (rows_of other (db (snd (sweepTable env tableName w)))).
Proof.
  intros Hin Hcond. rewrite sweepTable_eq.
  apply sweepVideos_spares; [| exact Hin].
  destruct Hcond as [H | (Hnd & Hr & Hfine)]; [left; exact H | right].
  destruct (table_select_ok env (length (trace w)) tableName); [| constructor].
  apply select_videos_of_row; assumption.
Qed.

(** The sweep of the episodes leaves the movies as they are. *)
Lemma sweepTable_episodes_movies w :
  movies (db (snd (sweepTable env "episodes" w))) = movies (db w).
Proof.
  apply (sweepTable_respects env (fun t => t = "episodes"%string)
           (fun a b => movies (db b) = movies (db a))
           (fun a => eq_refl) (fun a b c H1 H2 => eq_trans H2 H1)
           (fun _ => True));
    try exact I; try (intros; exact I); try reflexivity.
  - intros url w0. destruct (isUrlValid_world env url w0) as (_ & Hd & _).
    rewrite Hd. reflexivity.
  - intros videoId w0 _. rewrite getFacebookVideoUrl_world. reflexivity.
  - intros tableName rowId newUrl w0 ->. apply updateVideoUrl_keeps_movies.
  - intros tableName v w0. rewrite enqueued_world. simpl.
    destruct (queue_insert_ok env (length (trace w0))); reflexivity.
Qed.

End Spares.

(** X12. The sweep changes no record that needs no refresh. If the ids of a
    table are distinct, a row of it that the listing leaves out (no URL, URL
    ['NULL'] or no video id) or whose URL probes valid whenever probed is in
    the table after the sweep exactly as it was before, whatever the sweep
    did to the other records. *)
Theorem processFreshVideos_spares_valid (env : Env) (w : World)
    (tableName : string) (r : VideoRow) :
  List.NoDup (map v_id (rows_of tableName (db w))) ->
  In r (rows_of tableName (db w)) ->
  needs_no_refresh env r ->
  In r (rows_of tableName (db (snd (processFreshVideos env w)))).
Proof.
  intros Hnd Hin Hfine. rewrite processFreshVideos_eq.
  destruct (rows_of_cases tableName (db w))
    as [(-> & _) | [(-> & _) | (_ & _ & Hnil)]].
  - apply sweepTable_spares; [| left; discriminate].
    apply sweepTable_spares; [exact Hin | right; auto].
  - assert (Hm : rows_of "movies" (db (snd (sweepTable env "episodes" w))) =
                 rows_of "movies" (db w)).
    { unfold rows_of. simpl. apply sweepTable_episodes_movies. }
    apply sweepTable_spares; [rewrite Hm; exact Hin | right].
    rewrite Hm. auto.
  - rewrite Hnil in Hin. destruct Hin.
Qed.

(** ** The outcomes of a turn of the drain *)

(** X13. In a turn of the drain where the resolver fails, the only requests
    are the lookup and a queue update marking the task [failed] with the
    resolver's message; [failed] goes up by one, and the task is filed, in
    the bucket of the failure's kind, under its title, or under ['Unknown']
    when its title is missing or empty. The record tables are untouched.
    If the queue store applies the update, the queue is the old one with
    the rows of that id marked. *)
Theorem processQueueItem_resolver_failure (env : Env) (item : QueueRow)
    (w : World) (kind : ErrorKind) (message : string) :
  fst (getFacebookVideoUrl env (facebook_video_id item) w) = Failure kind message ->
  let w' := snd (processQueueItem env item w) in
  issued w w' =
    [EvGraphGet (facebook_video_id item);
     EvQueueUpdate (q_id item) Status.failed (Some message)] /\
  failed (stats w') = S (failed (stats w)) /\
  updated (stats w') = updated (stats w) /\
  failures (stats w') = filed kind (failure_of_task item) (failures (stats w)) /\
  (video_title item = None \/ video_title item = Some ""%string ->
   fi_title (failure_of_task item) = Some "Unknown"%string) /\
  episodes (db w') = episodes (db w) /\ movies (db w') = movies (db w) /\
  (queue_update_ok env (S (length (trace w))) = true ->
   url_update_queue (db w') =
     map (mark_row (q_id item) Status.failed
            (clock env (S (length (trace w)))) (Some message))
         (url_update_queue (db w))).
Proof.
  intros Hres w'. subst w'. rewrite processQueueItem_eq. cbv zeta. rewrite Hres.
  fold (failure_of_task item).
  destruct (record_failure_world kind (failure_of_task item)
              (snd (modify_stats (fun s => set_failed (S (failed s)) s)
                      (snd (markQueueProcessed env (q_id item) Status.failed
                              (Some message)
                              (snd (getFacebookVideoUrl env
                                      (facebook_video_id item) w)))))))
    as (Hwf & _).
  rewrite Hwf. clear Hwf.
  rewrite markQueueProcessed_world, getFacebookVideoUrl_world. simpl.
  rewrite length_app. simpl. rewrite Nat.add_1_r.
  split.
  { unfold issued. simpl. rewrite <- app_assoc, drop_app_length. reflexivity. }
  split; [destruct kind; reflexivity |].
  split; [destruct kind; reflexivity |].
  split; [destruct kind; reflexivity |].
  split.
  { intros [H | H]; unfold failure_of_task; rewrite H; reflexivity. }
  split; [destruct (queue_update_ok env (S (length (trace w)))); reflexivity |].
  split; [destruct (queue_update_ok env (S (length (trace w)))); reflexivity |].
  intros Hok. rewrite Hok. reflexivity.
Qed.

(** X14. In a turn of the drain where the resolver succeeds and the record
    update succeeds, the record is written without being probed: the
    requests are the lookup, the record update and a queue update marking
    the task [completed] with no message. [updated] goes up by one,
    [failed] and the failure buckets stay. Every row of the task's table
    with the task's record id carries the resolved URL. If the queue store
    applies the update, every row with the task's id is completed. *)
Theorem processQueueItem_success (env : Env) (item : QueueRow) (w : World)
    (url : string) :
  let w1 := snd (getFacebookVideoUrl env (facebook_video_id item) w) in
  fst (getFacebookVideoUrl env (facebook_video_id item) w) = Success url ->
  fst (updateVideoUrl env (table_name item) (row_id item) url w1) = true ->
  let w' := snd (processQueueItem env item w) in
  issued w w' =
    [EvGraphGet (facebook_video_id item);
     EvTableUpdate (table_name item) (row_id item) url;
     EvQueueUpdate (q_id item) Status.completed None] /\
  updated (stats w') = S (updated (stats w)) /\
  failed (stats w') = failed (stats w) /\
  failures (stats w') = failures (stats w) /\
  Forall (fun row => v_id row = row_id item -> videoUrl row = Some url)
         (rows_of (table_name item) (db w')) /\
  (queue_update_ok env (S (S (length (trace w)))) = true ->
   forall r, In r (url_update_queue (db w')) -> q_id r = q_id item ->
     status r = Status.completed /\ error_message r = None).
Proof.
  intros w1 Hres Hupd w'. subst w'. rewrite processQueueItem_eq. cbv zeta.
  rewrite Hres. fold w1. rewrite Hupd.
  pose proof (updateVideoUrl_succeeded env (table_name item) (row_id item) url w1)
    as Hout.
  cbv zeta in Hout.
  destruct (Hout Hupd) as (Htbl & Hrows & Hall & _ & _ & Hq & _).
  pose proof (getFacebookVideoUrl_world env (facebook_video_id item) w) as Hw1.
  fold w1 in Hw1.
  assert (Hw2 : exists s2 d2,
            snd (updateVideoUrl env (table_name item) (row_id item) url w1) =
            {| stats := s2; db := d2;
               trace := trace w ++ [EvGraphGet (facebook_video_id item)] ++
                        [EvTableUpdate (table_name item) (row_id item) url] |} /\
            updated s2 = updated (stats w) /\ failed s2 = failed (stats w) /\
            failures s2 = failures (stats w)).
  { rewrite updateVideoUrl_world in *.
    destruct Htbl as [Ht | Ht]; rewrite Ht in *; simpl in *;
      rewrite Hupd; rewrite Hw1; simpl; rewrite <- app_assoc;
      eexists _, _; (split; [reflexivity |]); simpl; auto. }
  destruct Hw2 as (s2 & d2 & Hw2 & Hu2 & Hf2 & Hb2).
  set (w2 := snd (updateVideoUrl env (table_name item) (row_id item) url w1)) in *.
  rewrite markQueueProcessed_world. simpl.
  assert (Hlen : length (trace w2) = S (S (length (trace w)))).
  { rewrite Hw2. simpl. rewrite length_app. simpl. lia. }
  rewrite Hlen.
  split.
  { unfold issued. rewrite Hw2. simpl. rewrite <- app_assoc, drop_app_length.
    reflexivity. }
  assert (Hs2 : stats w2 = s2) by (rewrite Hw2; reflexivity).
  rewrite Hs2, Hu2, Hf2, Hb2.
  split; [reflexivity |]. split; [reflexivity |]. split; [reflexivity |].
  split.
  { assert (Hrw : rows_of (table_name item)
                    (if queue_update_ok env (S (S (length (trace w))))
                     then with_queue
                            (map (mark_row (q_id item) Status.completed
                                    (clock env (S (S (length (trace w))))) None)
                                 (url_update_queue (db w2)))
                            (queue_next_id (db w2)) (db w2)
                     else db w2) = rows_of (table_name item) (db w2))
      by (destruct (queue_update_ok env (S (S (length (trace w))))); reflexivity).
    rewrite Hrw. exact Hall. }
  intros Hok r Hin Hid. rewrite Hok in Hin. simpl in Hin.
  apply in_map_iff in Hin as (r0 & <- & _).
  destruct (mark_row_same_task (q_id item) Status.completed
              (clock env (S (S (length (trace w))))) None r0) as (Hq0 & _).
  rewrite Hq0 in Hid.
  destruct (mark_row_hit (q_id item) Status.completed
              (clock env (S (S (length (trace w))))) None r0 Hid)
    as (Hs & Hm & _).
  auto.
Qed.

(** ** The properties above on sample runs *)

Ltac nodup_ids :=
  vm_compute;
  repeat (apply List.NoDup_cons; [simpl; intuition discriminate |]);
  apply List.NoDup_nil.

(** X4 on [Cases.db_three_tasks]. *)
Lemma processUrlUpdates_keeps_ids_fresh_witness :
  let w := Sample.world 0 Cases.db_three_tasks in
  queue_ids_fresh (db w) /\
  queue_ids_fresh (db (snd (processUrlUpdates Sample.env w))).
Proof.
  cbv zeta.
  assert (H : queue_ids_fresh (db (Sample.world 0 Cases.db_three_tasks))).
  { split; [nodup_ids | repeat constructor; simpl; lia]. }
  split; [exact H |].
  exact (processUrlUpdates_keeps_ids_fresh Sample.env
           (Sample.world 0 Cases.db_three_tasks) H).
Defined.

(** X5 on [Cases.db_three_tasks] with one call left: of the two pending
    tasks only the older one, task 3, is processed. *)
Lemma processQueue_fifo_prefix_witness :
  let w := Sample.world 189 Cases.db_three_tasks in
  let w' := snd (processQueue Sample.env w) in
  apiCallsUsed (stats w) + 1 = MAX_API_CALLS /\
  List.filter is_graph_get (issued w w') = [EvGraphGet "v1"] /\
  omap marked_id (issued w w') = [3%Z] /\
  apiCallsUsed (stats w') = 190.
Proof.
  cbv zeta.
  assert (H1 : apiCallsUsed (stats (Sample.world 189 Cases.db_three_tasks)) + 1 =
               MAX_API_CALLS) by (vm_compute; reflexivity).
  split; [exact H1 |].
  destruct (processQueue_fifo_prefix Sample.env
              (Sample.world 189 Cases.db_three_tasks) 1 H1)
    as (Hg & Hm & Hc & _).
  split; [rewrite Hg; vm_compute; reflexivity |].
  split; [rewrite Hm; vm_compute; reflexivity |].
  rewrite Hc. vm_compute. reflexivity.
Defined.

(** X7 on [Cases.db_three_tasks] with one call left: task 3 is settled,
    task 1 is still in the queue, pending. *)
Lemma processQueue_outcome_witness :
  let w := Sample.world 189 Cases.db_three_tasks in
  let w' := snd (processQueue Sample.env w) in
  apiCallsUsed (stats w) + 1 = MAX_API_CALLS /\
  In (Sample.task 1 Status.pending 30) (url_update_queue (db w')) /\
  settled 3 (db w').
Proof.
  cbv zeta.
  assert (H1 : apiCallsUsed (stats (Sample.world 189 Cases.db_three_tasks)) + 1 =
               MAX_API_CALLS) by (vm_compute; reflexivity).
  split; [exact H1 |].
  destruct (processQueue_outcome Sample.env
              (Sample.world 189 Cases.db_three_tasks) 1 H1)
    as (_ & Hrest & Hfirst).
  split.
  - assert (Hnd : List.NoDup
                    (map q_id (url_update_queue
                                 (db (Sample.world 189 Cases.db_three_tasks)))))
      by nodup_ids.
    refine (proj1 (Hrest Hnd (Sample.task 1 Status.pending 30) _)).
    vm_compute. left. reflexivity.
  - refine (Hfirst (fun _ => eq_refl) (Sample.task 3 Status.pending 20) _).
    vm_compute. left. reflexivity.
Defined.

(** X8 on the movie of [Cases.db_mixed], whose video the provider does not
    know. *)
Lemma sweepVideo_resolver_failure_witness :
  let video := {| id := 7; video_title_of := Some "Pilot";
                  video_url_of := "https://cdn/m7"; video_id_of := "v2" |} in
  let w := Sample.world 0 Cases.db_mixed in
  let w' := snd (sweepVideo Sample.env "movies" video w) in
  failed (stats w') = 1 /\
  notFound (failures (stats w')) = [failure_of video] /\
  db w' = db w.
Proof.
  cbv zeta.
  destruct (sweepVideo_resolver_failure Sample.env "movies"
              {| id := 7; video_title_of := Some "Pilot";
                 video_url_of := "https://cdn/m7"; video_id_of := "v2" |}
              (Sample.world 0 Cases.db_mixed) not_found "Video not found"
              eq_refl eq_refl)
    as (Hf & _ & Hb & Hd & _).
  split; [exact Hf |]. split; [rewrite Hb; reflexivity | exact Hd].
Defined.

(** X9 on two statistics that differ in a video id only. *)
Lemma generateReport_view_witness :
  let s := push_notFound {| fi_id := "v2"; fi_title := Some "Pilot" |}
             (fresh_stats None) in
  let s' := push_notFound {| fi_id := "v3"; fi_title := Some "Pilot" |}
              (fresh_stats None) in
  s <> s' /\
  report_view s = report_view s' /\
  Report.generateReport "1/1/2025" 0 s = Report.generateReport "1/1/2025" 0 s'.
Proof.
  cbv zeta. split; [intros H; discriminate H |].
  split; [reflexivity |].
  exact (proj1 (generateReport_view "1/1/2025" 0
                  (push_notFound {| fi_id := "v2"; fi_title := Some "Pilot" |}
                     (fresh_stats None))
                  (push_notFound {| fi_id := "v3"; fi_title := Some "Pilot" |}
                     (fresh_stats None)))
               eq_refl).
Defined.

(** X10 on a table the engine does not know, and on an episode id that no
    row has. *)
Lemma updateVideoUrl_outcome_witness :
  let w := Sample.world 0 Sample.db_one_task in
  let r := updateVideoUrl Sample.env "episodes" 5 "https://cdn/new" w in
  updateVideoUrl Sample.env "series" 1 "https://cdn/new" w = (false, w) /\
  fst r = true /\
  db (snd r) = db w /\
  episodesUpdated (stats (snd r)) = 1 /\ moviesUpdated (stats (snd r)) = 0.
Proof.
  cbv zeta. split.
  - refine (proj1 (updateVideoUrl_outcome Sample.env "series" 1
                     "https://cdn/new" (Sample.world 0 Sample.db_one_task)) _ _);
      intros H; discriminate H.
  - split; [reflexivity |].
    destruct (proj2 (proj2 (updateVideoUrl_outcome Sample.env "episodes" 5
                              "https://cdn/new"
                              (Sample.world 0 Sample.db_one_task)))
                eq_refl)
      as (_ & _ & _ & _ & _ & _ & _ & _ & Hep & _ & _ & Hsame).
    split.
    + apply Hsame. vm_compute. intros [H | []]. discriminate H.
    + exact (Hep eq_refl).
Defined.


(** X12 on [Cases.db_mixed]: the live episode survives a sweep that
    rewrites the other one. *)
Lemma processFreshVideos_spares_valid_witness :
  let w := Sample.world 0 Cases.db_mixed in
  In (Sample.video_row 1 "ok" "v1")
     (rows_of "episodes" (db (snd (processFreshVideos Sample.env w)))) /\
  rows_of "episodes" (db (snd (processFreshVideos Sample.env w))) <>
  rows_of "episodes" (db w).
Proof.
  cbv zeta. split.
  - apply (processFreshVideos_spares_valid Sample.env
             (Sample.world 0 Cases.db_mixed) "episodes"
             (Sample.video_row 1 "ok" "v1")).
    + nodup_ids.
    + vm_compute. left. reflexivity.
    + intros w. reflexivity.
  - vm_compute. intros H. discriminate H.
Defined.

(** X13 on a task for a video the provider does not know and that has no
    title. *)
Lemma processQueueItem_resolver_failure_witness :
  let item :=
    {| q_id := 1; table_name := "movies"; row_id := 7;
       facebook_video_id := "v2"; old_url := None; video_title := None;
       status := Status.pending; error_message := None; created_at := 10;
       processed_at := None |} in
  let w := Sample.world 0 (with_queue [item] 2 Cases.db_mixed) in
  let w' := snd (processQueueItem Sample.env item w) in
  notFound (failures (stats w')) =
    [{| fi_id := "v2"; fi_title := Some "Unknown" |}] /\
  map status (url_update_queue (db w')) = [Status.failed] /\
  map error_message (url_update_queue (db w')) = [Some "Video not found"].
Proof.
  cbv zeta.
  destruct (processQueueItem_resolver_failure Sample.env
              {| q_id := 1; table_name := "movies"; row_id := 7;
                 facebook_video_id := "v2"; old_url := None;
                 video_title := None; status := Status.pending;
                 error_message := None; created_at := 10;
                 processed_at := None |}
              (Sample.world 0
                 (with_queue
                    [{| q_id := 1; table_name := "movies"; row_id := 7;
                        facebook_video_id := "v2"; old_url := None;
                        video_title := None; status := Status.pending;
                        error_message := None; created_at := 10;
                        processed_at := None |}] 2 Cases.db_mixed))
              not_found "Video not found" eq_refl)
    as (_ & _ & _ & Hb & _ & _ & _ & Hq).
  split; [rewrite Hb; reflexivity |].
  rewrite (Hq eq_refl). split; reflexivity.
Defined.

(** X14 on the pending task of [Sample.db_one_task]. *)
Lemma processQueueItem_success_witness :
  let item := Sample.task 1 Status.pending 10 in
  let w := Sample.world 0 Sample.db_one_task in
  let w' := snd (processQueueItem Sample.env item w) in
  updated (stats w') = 1 /\
  map videoUrl (rows_of "episodes" (db w')) = [Some "https://cdn/new"] /\
  map status (url_update_queue (db w')) = [Status.completed].
Proof.
  cbv zeta.
  destruct (processQueueItem_success Sample.env
              (Sample.task 1 Status.pending 10)
              (Sample.world 0 Sample.db_one_task) "https://cdn/new"
              eq_refl eq_refl)
    as (_ & Hu & _ & _ & _ & _).
  split; [exact Hu |]. split; vm_compute; reflexivity.
Defined.

(** * Queue status *)

Lemma count_status_total (q : list QueueRow) :
  count_status Status.pending q + count_status Status.completed q +
  count_status Status.failed q = length q.
Proof.
  unfold count_status.
  induction q as [|r q IH]; [reflexivity |].
  simpl. destruct (status r); simpl; lia.
Qed.

Lemma selectPendingQueue_length (limit : nat) (q : list QueueRow) :
  length (selectPendingQueue limit q) =
  Nat.min limit (count_status Status.pending q).
Proof.
  unfold selectPendingQueue, count_status.
  rewrite length_take.
  rewrite (Permutation_length
             (merge_sort_Permutation created_le (List.filter is_pending q))).
  reflexivity.
Qed.

(** X15. The three counts of [getQueueStatus] never add up to more than the
    queue holds, and a count that cannot be read shows as 0. When all three
    are read they add up to the size of the queue (every row having one of
    the three statuses the engine writes), and the pending count tells what
    the next drain reads: that many tasks, or [MAX_API_CALLS] if there are
    more. *)
Theorem getQueueStatus_counts (ok : Status.t -> bool) (now : Z) (d : Database) :
  let st := getQueueStatus ok now d in
  qs_pending st + qs_completed st + qs_failed st <= length (url_update_queue d) /\
  (ok Status.pending = false -> qs_pending st = 0) /\
  (ok Status.completed = false -> qs_completed st = 0) /\
  (ok Status.failed = false -> qs_failed st = 0) /\
  ((forall s, ok s = true) ->
   qs_pending st + qs_completed st + qs_failed st = length (url_update_queue d) /\
   forall env t, queue_select_ok env t = true ->
     length (drained env t d) = Nat.min MAX_API_CALLS (qs_pending st)).
Proof.
  intros st. subst st. unfold getQueueStatus. cbn [qs_pending qs_completed qs_failed].
  pose proof (count_status_total (url_update_queue d)) as Htot.
  split.
  { destruct (ok Status.pending), (ok Status.completed), (ok Status.failed); lia. }
  split; [intros ->; reflexivity |].
  split; [intros ->; reflexivity |].
  split; [intros ->; reflexivity |].
  intros Hall. rewrite !Hall. split; [exact Htot |].
  intros env t Hsel. unfold drained. rewrite Hsel.
  apply selectPendingQueue_length.
Qed.

(** X15 on [Cases.db_three_tasks]: two pending, one completed, and a drain
    that reads two tasks. *)
Lemma getQueueStatus_counts_witness :
  let st := getQueueStatus (fun _ => true) 0 Cases.db_three_tasks in
  (qs_pending st, qs_completed st, qs_failed st) = (2, 1, 0) /\
  length (drained Sample.env 0 Cases.db_three_tasks) = 2.
Proof.
  cbv zeta. split; [reflexivity |].
  destruct (getQueueStatus_counts (fun _ => true) 0 Cases.db_three_tasks)
    as (_ & _ & _ & _ & H).
  destruct (H (fun _ => eq_refl)) as (_ & Hd).
  rewrite (Hd Sample.env 0 eq_refl). vm_compute. reflexivity.
Defined.

(** ** The status over a run *)

Lemma status_advances_refl w : status_advances w w.
Proof. unfold status_advances. lia. Qed.

Lemma status_advances_trans a b c :
  status_advances a b -> status_advances b c -> status_advances a c.
Proof. unfold status_advances. lia. Qed.

Lemma status_advances_same w w' :
  url_update_queue (db w') = url_update_queue (db w) ->
  queued (stats w') = queued (stats w) ->
  status_advances w w'.
Proof.
  intros Hq Hs. unfold status_advances, settled_count. rewrite Hq, Hs. lia.
Qed.

Lemma count_status_mark queueId st now msg (q : list QueueRow) :
  st = Status.completed \/ st = Status.failed ->
  let q' := map (mark_row queueId st now msg) q in
  count_status Status.completed q + count_status Status.failed q <=
  count_status Status.completed q' + count_status Status.failed q' /\
  count_status Status.pending q' <= count_status Status.pending q.
Proof.
  intros Hst. unfold count_status.
  induction q as [|r q IH]; [simpl; lia |].
  cbn [map List.filter] in *. unfold mark_row in *.
  destruct (Z.eqb (q_id r) queueId).
  - cbn [status]. destruct Hst as [-> | ->]; destruct (status r); simpl in *; lia.
  - destruct (status r); simpl in *; lia.
Qed.

Lemma count_status_app st (a b : list QueueRow) :
  count_status st (a ++ b) = count_status st a + count_status st b.
Proof. unfold count_status. rewrite List.filter_app, length_app. reflexivity. Qed.

Lemma count_status_one st (r : QueueRow) :
  count_status st [r] = if Status.eqb (status r) st then 1 else 0.
Proof. unfold count_status. simpl. destruct (Status.eqb (status r) st); reflexivity. Qed.

Lemma status_advances_phases (env : Env) (w : World) :
  let w2 := snd (processQueue env w) in
  status_advances w (if apiCallsUsed (stats w2) <? MAX_API_CALLS
                     then snd (processFreshVideos env w2) else w2).
Proof.
  apply (phases_respect env (fun _ => True) status_advances status_advances_refl
           status_advances_trans plain_bump);
    try apply plain_bump_checked; try apply plain_bump_valid;
    try apply plain_bump_updated; try apply plain_bump_failed;
    try apply plain_bump_notFound; try apply plain_bump_permissionDenied;
    try apply plain_bump_apiError; try (intros; exact I).
  - intros f w0 Hf. apply status_advances_same; [reflexivity |].
    simpl. apply Hf.
  - intros w0. apply status_advances_same; reflexivity.
  - intros tableName w0. apply status_advances_same; reflexivity.
  - intros url w0. destruct (isUrlValid_world env url w0) as (Hs & Hd & _).
    apply status_advances_same; [rewrite Hd | rewrite Hs]; reflexivity.
  - intros videoId w0 _. rewrite getFacebookVideoUrl_world.
    apply status_advances_same; reflexivity.
  - intros queueId st msg w0 Hst. rewrite markQueueProcessed_world.
    destruct (queue_update_ok env (length (trace w0)));
      [| apply status_advances_same; reflexivity].
    pose proof (count_status_mark queueId st (clock env (length (trace w0))) msg
                  (url_update_queue (db w0)) Hst) as H.
    unfold status_advances, settled_count. simpl in *. lia.
  - intros tableName rowId newUrl w0 _. rewrite updateVideoUrl_world.
    destruct (String.eqb tableName "episodes");
      [| destruct (String.eqb tableName "movies")]; cbn [snd];
      try apply status_advances_refl;
      destruct (table_update_ok env (length (trace w0)) tableName);
      apply status_advances_same; reflexivity.
  - intros tableName v w0. rewrite enqueued_world.
    destruct (queue_insert_ok env (length (trace w0)));
      [| apply status_advances_same; reflexivity].
    unfold status_advances, settled_count. simpl.
    rewrite !count_status_app, !count_status_one. simpl. lia.
Qed.

(** X16. Seen through the status, a run only moves forward: the completed
    and failed counts together never go down, so no settled task is made
    pending again, and the pending count after the run is at most the
    pending count before it plus the rows the run enqueued. *)
Theorem processUrlUpdates_status_advances (env : Env) (w : World) (now now' : Z) :
  let w' := snd (processUrlUpdates env w) in
  let st := getQueueStatus (fun _ => true) now (db w) in
  let st' := getQueueStatus (fun _ => true) now' (db w') in
  qs_completed st + qs_failed st <= qs_completed st' + qs_failed st' /\
  qs_pending st' <= qs_pending st + queued (stats w').
Proof.
  intros w' st st'. subst st st'. unfold getQueueStatus.
  cbn [qs_pending qs_completed qs_failed].
  assert (H : status_advances (reset env w) w').
  { subst w'. rewrite processUrlUpdates_eq. cbv zeta.
    set (w1 := snd (sendTelegram env start_message (reset env w))).
    assert (H1 : status_advances (reset env w) w1).
    { apply status_advances_same; subst w1; rewrite sendTelegram_world; reflexivity. }
    pose proof (status_advances_phases env w1) as H2. cbv zeta in H2.
    eapply status_advances_trans; [exact H1 |].
    eapply status_advances_trans; [exact H2 |].
    apply status_advances_same; rewrite sendTelegram_world; reflexivity. }
  unfold status_advances, settled_count in H.
  change (db (reset env w)) with (db w) in H.
  change (queued (stats (reset env w))) with 0 in H.
  lia.
Qed.

(** * The chat commands *)

Section Chat.

Variable cfg : BotConfig.
Variable env : Env.

Lemma sendMessage_replies chatId text b :
  replies_only chatId b (sendMessage chatId text b).
Proof.
  unfold replies_only, sendMessage. cbn.
  repeat split. exists text. reflexivity.
Qed.

Lemma handleUpdateCommand_busy chatId b :
  isProcessing b = true ->
  handleUpdateCommand env chatId b = sendMessage chatId Texts.already_running b.
Proof. intros H. unfold handleUpdateCommand. rewrite H. reflexivity. Qed.

Lemma handleUpdateCommand_idle chatId b :
  isProcessing b = false ->
  ran_update env chatId b (handleUpdateCommand env chatId b).
Proof.
  intros H. unfold handleUpdateCommand, ran_update. rewrite H.
  unfold sendMessage. cbn [engine isProcessing lastUpdateInfo sent].
  repeat split. rewrite <- app_assoc. reflexivity.
Qed.

(** What the [switch] does with a command, for an authorised chat: one full
    run for [/update] while no update is in progress, one reply in every
    other case. *)
Lemma dispatch_forced (command : string) chatId b :
  let b' :=
    if String.eqb command "/start" then handleStart chatId b
    else if String.eqb command "/update" then handleUpdateCommand env chatId b
    else if String.eqb command "/status" then handleStatus cfg env chatId b
    else if String.eqb command "/help" then handleHelp chatId b
    else if String.eqb command "/info" then handleInfo cfg chatId b
    else sendMessage chatId Texts.unknown_command b in
  if String.eqb command "/update" && negb (isProcessing b)
  then ran_update env chatId b b'
  else replies_only chatId b b'.
Proof.
  cbv zeta.
  destruct (String.eqb_spec command "/update") as [-> | Hne]; cbn [andb].
  - cbn [String.eqb Ascii.eqb Bool.eqb].
    destruct (isProcessing b) eqn:Hp; cbn [negb].
    + rewrite handleUpdateCommand_busy by exact Hp. apply sendMessage_replies.
    + apply handleUpdateCommand_idle. exact Hp.
  - destruct (String.eqb command "/start"); [apply sendMessage_replies |].
    destruct (String.eqb command "/status"); [apply sendMessage_replies |].
    destruct (String.eqb command "/help"); [apply sendMessage_replies |].
    destruct (String.eqb command "/info"); [| apply sendMessage_replies].
    unfold handleInfo. destruct (lastUpdateInfo b); apply sendMessage_replies.
Qed.

End Chat.

(** X17. What a chat update does, case by case. Without a message, or
    without a text, it is ignored. With a text, exactly one of two things
    happens. If the chat is authorised, the first word is [/update] and no
    update is in progress, one full run is made: the chat is told of the
    start and of the completion, the run is put on record as a success
    whatever happened in it, and the flag is down again at the end. In every
    other case the chat gets exactly one reply and nothing else changes:
    not the database, not the statistics, not the flag, not the record of
    the last update. *)
Theorem handleTelegramUpdate_cases (cfg : BotConfig) (env : Env)
    (update : Update) (b : Bot) :
  let b' := handleTelegramUpdate cfg env update b in
  (upd_message update = None -> b' = b) /\
  (forall m, upd_message update = Some m -> Js.truthy (msg_text m) = false ->
     b' = b) /\
  (forall m text, upd_message update = Some m -> msg_text m = Some text ->
     text <> ""%string ->
     if isAuthorized cfg (msg_chat_id m)
        && String.eqb (command_of text) "/update"
        && negb (isProcessing b)
     then ran_update env (msg_chat_id m) b b'
     else replies_only (msg_chat_id m) b b').
Proof.
  intros b'. subst b'. unfold handleTelegramUpdate.
  split; [intros ->; reflexivity |].
  split.
  { intros m -> Ht. destruct (msg_text m) as [text |]; [| reflexivity].
    rewrite Ht. reflexivity. }
  intros m text -> -> Hne.
  assert (Htr : Js.truthy (Some text) = true).
  { simpl. apply String.eqb_neq in Hne. rewrite Hne. reflexivity. }
  rewrite Htr. cbn [negb].
  destruct (isAuthorized cfg (msg_chat_id m)); cbn [negb andb].
  - apply dispatch_forced.
  - apply sendMessage_replies.
Qed.

(** X17 on a fresh bot over [Sample.db_one_task]: [/status] gets one reply
    and leaves the task pending, [/update] runs and completes it. *)
Lemma handleTelegramUpdate_cases_witness :
  let cfg := {| admin_ids := None; local_date := fun _ => "";
                count_ok := fun _ => true |} in
  let b := fresh_bot (Sample.world 0 Sample.db_one_task) in
  let ask text :=
    handleTelegramUpdate cfg Sample.env
      {| upd_message := Some {| msg_chat_id := 56; msg_text := Some text |} |} b in
  (engine (ask "/status") = engine b /\ length (sent (ask "/status")) = 1) /\
  (map status (url_update_queue (db (engine (ask "/update")))) =
     [Status.completed] /\
   length (sent (ask "/update")) = 2).
Proof.
  cbv zeta. split.
  - pose proof (proj2 (proj2 (handleTelegramUpdate_cases
                                {| admin_ids := None; local_date := fun _ => "";
                                   count_ok := fun _ => true |}
                                Sample.env
                                {| upd_message :=
                                     Some {| msg_chat_id := 56;
                                             msg_text := Some "/status" |} |}
                                (fresh_bot (Sample.world 0 Sample.db_one_task))))
                  {| msg_chat_id := 56; msg_text := Some "/status" |} "/status"
                  eq_refl eq_refl) as H.
    cbv zeta in H.
    assert (Hne : "/status"%string <> ""%string) by (intros E; discriminate E).
    specialize (H Hne).
    destruct H as (He & _ & _ & (reply & Hs)).
    split; [exact He |]. rewrite Hs. reflexivity.
  - pose proof (proj2 (proj2 (handleTelegramUpdate_cases
                                {| admin_ids := None; local_date := fun _ => "";
                                   count_ok := fun _ => true |}
                                Sample.env
                                {| upd_message :=
                                     Some {| msg_chat_id := 56;
                                             msg_text := Some "/update" |} |}
                                (fresh_bot (Sample.world 0 Sample.db_one_task))))
                  {| msg_chat_id := 56; msg_text := Some "/update" |} "/update"
                  eq_refl eq_refl) as H.
    cbv zeta in H.
    assert (Hne : "/update"%string <> ""%string) by (intros E; discriminate E).
    specialize (H Hne).
    destruct H as (He & _ & _ & Hs).
    split; [rewrite He; vm_compute; reflexivity | rewrite Hs; reflexivity].
Defined.

(** X18. A chat that is not authorised gets the same answer whatever it
    sends and whatever state the bot is in: the one message that it is not
    authorised. No command of it is looked at, so it can neither start a
    run nor read the status or the last update. *)
Theorem handleTelegramUpdate_unauthorized (cfg : BotConfig) (env : Env)
    (update : Update) (m : Message) (b : Bot) :
  upd_message update = Some m ->
  Js.truthy (msg_text m) = true ->
  isAuthorized cfg (msg_chat_id m) = false ->
  let b' := handleTelegramUpdate cfg env update b in
  engine b' = engine b /\ isProcessing b' = isProcessing b /\
  lastUpdateInfo b' = lastUpdateInfo b /\
  sent b' = sent b ++ [(msg_chat_id m, Texts.unauthorized)].
Proof.
  intros Hm Ht Ha b'. subst b'. unfold handleTelegramUpdate. rewrite Hm.
  destruct (msg_text m) as [text |]; [| discriminate Ht].
  rewrite Ht, Ha. cbn. repeat split.
Qed.

(** ** Who is authorised *)

Lemma split_not_nil (sep : ascii) (s : string) : JsText.split sep s <> [].
Proof.
  destruct s as [|c t]; simpl; [discriminate |].
  destruct (Ascii.eqb c sep); [discriminate |].
  destruct (JsText.split sep t); discriminate.
Qed.

Lemma includes_string_In (l : list string) (s : string) :
  JsText.includes_string l s = true <-> In s l.
Proof.
  unfold JsText.includes_string. rewrite existsb_exists. split.
  - intros (x & Hin & He). apply String.eqb_eq in He. subst x. exact Hin.
  - intros Hin. exists s. split; [exact Hin | apply String.eqb_refl].
Qed.

Lemma pretty_N_go_length (x : N) :
  forall s, String.length s <= String.length (pretty_N_go x s).
Proof.
  induction (N.lt_wf_0 x) as [x _ IH]. intros s.
  destruct (N.eq_dec x 0%N) as [-> | Hx].
  - rewrite pretty_N_go_0. lia.
  - rewrite pretty_N_go_step by lia.
    etransitivity; [| apply IH; apply N.div_lt; lia]. simpl. lia.
Qed.

Lemma pretty_positive_not_empty (p : positive) : pretty p <> "".
Proof.
  unfold pretty, pretty_positive, pretty, pretty_N.
  destruct (decide (N.pos p = 0%N)) as [H | _]; [discriminate H |].
  rewrite pretty_N_go_step by lia.
  intros H.
  pose proof (pretty_N_go_length (N.pos p `div` 10)%N
                (String (pretty_N_char (N.pos p `mod` 10)%N) "")) as Hl.
  rewrite H in Hl. simpl in Hl. lia.
Qed.

Lemma pretty_Z_not_empty (z : Z) : pretty z <> "".
Proof.
  destruct z as [|p|p]; unfold pretty, pretty_Z.
  - discriminate.
  - apply pretty_positive_not_empty.
  - discriminate.
Qed.

Lemma ALLOWED_CHAT_IDS_set (cfg : BotConfig) (ids : string) :
  admin_ids cfg = Some ids -> ids <> "" ->
  ALLOWED_CHAT_IDS cfg = map JsText.trim (JsText.split "," ids).
Proof.
  intros H Hne. unfold ALLOWED_CHAT_IDS. rewrite H. simpl.
  apply String.eqb_neq in Hne. rewrite Hne. reflexivity.
Qed.

(** X19. When [TELEGRAM_ADMIN_IDS] is unset or empty every chat is
    authorised. When it is set, a chat is authorised exactly when its id in
    decimal is one of the comma-separated entries, white space around an
    entry aside. A value with nothing but separators and white space
    therefore authorises no chat at all. *)
Theorem isAuthorized_rule (cfg : BotConfig) (chatId : Z) :
  (admin_ids cfg = None \/ admin_ids cfg = Some "" ->
   isAuthorized cfg chatId = true) /\
  (forall ids, admin_ids cfg = Some ids -> ids <> "" ->
     (isAuthorized cfg chatId = true <->
      exists e, In e (JsText.split "," ids) /\ JsText.trim e = pretty chatId)) /\
  (forall ids, admin_ids cfg = Some ids -> ids <> "" ->
     Forall (fun e => JsText.trim e = "") (JsText.split "," ids) ->
     isAuthorized cfg chatId = false).
Proof.
  assert (Hset : forall ids, admin_ids cfg = Some ids -> ids <> "" ->
            isAuthorized cfg chatId =
            JsText.includes_string (map JsText.trim (JsText.split "," ids))
              (pretty chatId)).
  { intros ids H Hne. unfold isAuthorized.
    rewrite (ALLOWED_CHAT_IDS_set cfg ids H Hne).
    pose proof (split_not_nil "," ids) as Hnil.
    destruct (JsText.split "," ids); [contradiction | reflexivity]. }
  split.
  { intros [H | H]; unfold isAuthorized, ALLOWED_CHAT_IDS; rewrite H; reflexivity. }
  split.
  - intros ids H Hne. rewrite (Hset ids H Hne), includes_string_In, in_map_iff.
    split; intros (e & H1 & H2); exists e; auto.
  - intros ids H Hne Hall. rewrite (Hset ids H Hne).
    destruct (JsText.includes_string _ _) eqn:Hin; [| reflexivity].
    apply includes_string_In, in_map_iff in Hin as (e & He & Hin).
    rewrite Forall_forall in Hall.
    specialize (Hall e (proj2 (list_elem_of_In _ _) Hin)).
    rewrite Hall in He. symmetry in He.
    destruct (pretty_Z_not_empty chatId He).
Qed.

(** X19 on a list of two ids, and on a value of separators and blanks
    only. *)
Lemma isAuthorized_rule_witness :
  let cfg := {| admin_ids := Some "12, 34"; local_date := fun _ => "";
                count_ok := fun _ => true |} in
  let blank := {| admin_ids := Some " , "; local_date := fun _ => "";
                  count_ok := fun _ => true |} in
  isAuthorized cfg 34 = true /\ isAuthorized blank 34 = false.
Proof.
  cbv zeta. split.
  - apply (proj1 (proj2 (isAuthorized_rule
                           {| admin_ids := Some "12, 34";
                              local_date := fun _ => "";
                              count_ok := fun _ => true |} 34))
             "12, 34" eq_refl).
    + intros H; discriminate H.
    + exists " 34". split; [right; left; reflexivity | reflexivity].
  - apply (proj2 (proj2 (isAuthorized_rule
                           {| admin_ids := Some " , ";
                              local_date := fun _ => "";
                              count_ok := fun _ => true |} 34))
             " , " eq_refl).
    + intros H; discriminate H.
    + repeat constructor.
Defined.

(** X18 for a chat that is not on the list and asks for an update. *)
Lemma handleTelegramUpdate_unauthorized_witness :
  let cfg := {| admin_ids := Some "12, 34"; local_date := fun _ => "";
                count_ok := fun _ => true |} in
  let update := {| upd_message :=
                     Some {| msg_chat_id := 56; msg_text := Some "/update" |} |} in
  let b := fresh_bot (Sample.world 0 Sample.db_one_task) in
  sent (handleTelegramUpdate cfg Sample.env update b) =
    [(56%Z, Texts.unauthorized)] /\
  engine (handleTelegramUpdate cfg Sample.env update b) = engine b.
Proof.
  cbv zeta.
  destruct (handleTelegramUpdate_unauthorized
              {| admin_ids := Some "12, 34"; local_date := fun _ => "";
                 count_ok := fun _ => true |}
              Sample.env
              {| upd_message :=
                   Some {| msg_chat_id := 56; msg_text := Some "/update" |} |}
              {| msg_chat_id := 56; msg_text := Some "/update" |}
              (fresh_bot (Sample.world 0 Sample.db_one_task))
              eq_refl eq_refl eq_refl)
    as (He & _ & _ & Hs).
  split; [exact Hs | exact He].
Defined.

(** ** How a command is read *)

Lemma word_char_not_space (c : ascii) :
  is_word_char c = true ->
  JsText.is_space c = false /\
  (forall b, JsText.is_space2 c b = false) /\
  (forall b d, JsText.is_space3 c b d = false) /\
  Ascii.eqb c " " = false.
Proof.
  unfold is_word_char, JsText.is_space, JsText.is_space2, JsText.is_space3.
  cbv zeta. intros H. apply andb_true_iff in H as (Hlo & Hhi).
  apply Nat.leb_le in Hlo, Hhi.
  assert (E : forall k, k < 33 \/ 126 < k -> (nat_of_ascii c =? k) = false)
    by (intros k Hk; apply Nat.eqb_neq; lia).
  split.
  { rewrite (E 32) by lia. cbn [orb].
    apply andb_false_iff. right. apply Nat.leb_gt. lia. }
  split; [intros b; rewrite (E 194) by lia; reflexivity |].
  split.
  { intros b d. rewrite (E 225), (E 226), (E 227), (E 239) by lia. reflexivity. }
  destruct (Ascii.eqb_spec c " ") as [-> | _]; [| reflexivity].
  change (nat_of_ascii " ") with 32 in Hlo. lia.
Qed.

Lemma trimStart_word (c : ascii) (t : string) :
  is_word_char c = true -> JsText.trimStart (String c t) = String c t.
Proof.
  intros H. destruct (word_char_not_space c H) as (H1 & H2 & H3 & _).
  simpl. rewrite H1. destruct t as [|b t]; [reflexivity |].
  rewrite H2. destruct t as [|d t]; [reflexivity |]. rewrite H3. reflexivity.
Qed.

Lemma trimStart_pad (pad s : string) :
  all_chars JsText.is_space pad = true ->
  JsText.trimStart (pad +:+ s) = JsText.trimStart s.
Proof.
  induction pad as [|c pad IH]; intros H; [reflexivity |].
  simpl in H. apply andb_true_iff in H as (Hc & Hp).
  change (String c pad +:+ s) with (String c (pad +:+ s)).
  simpl. rewrite Hc. apply IH. exact Hp.
Qed.

Lemma append_empty (s : string) : s +:+ "" = s.
Proof.
  induction s as [|c s IH]; [reflexivity |].
  change (String c s +:+ "") with (String c (s +:+ "")). f_equal. exact IH.
Qed.

Lemma trimEnd_pad (pad : string) :
  all_chars JsText.is_space pad = true -> JsText.trimEnd pad = "".
Proof.
  intros H. destruct pad as [|c pad]; [reflexivity |].
  unfold JsText.trimEnd. fold JsText.trimEnd. unfold JsText.all_space.
  rewrite <- (append_empty (String c pad)) at 1.
  rewrite trimStart_pad by exact H. reflexivity.
Qed.

Lemma trimEnd_word (cmd t : string) :
  all_chars is_word_char cmd = true ->
  JsText.trimEnd (cmd +:+ t) = cmd +:+ JsText.trimEnd t.
Proof.
  induction cmd as [|c cmd IH]; intros H; [reflexivity |].
  simpl in H. apply andb_true_iff in H as (Hc & Hw).
  change (String c cmd +:+ t) with (String c (cmd +:+ t)).
  unfold JsText.trimEnd at 1. fold JsText.trimEnd. unfold JsText.all_space.
  rewrite trimStart_word by exact Hc.
  change (String c cmd +:+ JsText.trimEnd t)
    with (String c (cmd +:+ JsText.trimEnd t)).
  f_equal. apply IH. exact Hw.
Qed.

Lemma split_head (sep c : ascii) (t : string) :
  Ascii.eqb c sep = false ->
  hd "" (JsText.split sep (String c t)) = String c (hd "" (JsText.split sep t)).
Proof.
  intros H. simpl. rewrite H. destruct (JsText.split sep t); reflexivity.
Qed.

Lemma split_word (cmd tail : string) :
  all_chars is_word_char cmd = true ->
  tail = "" \/ (exists rest, tail = String " " rest) ->
  hd "" (JsText.split " " (cmd +:+ tail)) = cmd.
Proof.
  intros Hw Htail. induction cmd as [|c cmd IH].
  - destruct Htail as [-> | (rest & ->)]; reflexivity.
  - simpl in Hw. apply andb_true_iff in Hw as (Hc & Hw).
    destruct (word_char_not_space c Hc) as (_ & _ & _ & Hsp).
    change (String c cmd +:+ tail) with (String c (cmd +:+ tail)).
    rewrite split_head by exact Hsp. f_equal. apply IH. exact Hw.
Qed.

Lemma command_of_padded (pad cmd tail : string) :
  all_chars JsText.is_space pad = true ->
  is_word cmd = true ->
  all_chars JsText.is_space tail = true \/ (exists rest, tail = String " " rest) ->
  command_of (pad +:+ cmd +:+ tail) = Js.toLowerCase cmd.
Proof.
  intros Hpad Hcmd Htail. unfold is_word in Hcmd.
  apply andb_true_iff in Hcmd as (Hne & Hw).
  unfold command_of, JsText.trim. f_equal.
  rewrite trimStart_pad by exact Hpad.
  destruct cmd as [|c cmd]; [discriminate Hne |].
  pose proof Hw as Hw'. simpl in Hw'. apply andb_true_iff in Hw' as (Hc & _).
  change (String c cmd +:+ tail) with (String c (cmd +:+ tail)).
  rewrite trimStart_word by exact Hc.
  change (String c (cmd +:+ tail)) with (String c cmd +:+ tail).
  rewrite trimEnd_word by exact Hw.
  apply split_word; [exact Hw |].
  destruct Htail as [Hsp | (rest & ->)].
  - left. apply trimEnd_pad. exact Hsp.
  - unfold JsText.trimEnd. fold JsText.trimEnd.
    destruct (JsText.all_space (String " " rest)); [left | right; eexists]; reflexivity.
Qed.

Lemma lower_word_char (c : ascii) :
  is_word_char c = true -> is_word_char (Js.lower_ascii c) = true.
Proof.
  unfold is_word_char, Js.lower_ascii. cbv zeta. intros H.
  destruct ((65 <=? nat_of_ascii c) && (nat_of_ascii c <=? 90)) eqn:E;
    [| exact H].
  apply andb_true_iff in E as (Hlo & Hhi). apply Nat.leb_le in Hlo, Hhi.
  rewrite nat_ascii_embedding by lia.
  apply andb_true_iff. split; apply Nat.leb_le; lia.
Qed.

Lemma lower_word (s : string) :
  is_word s = true -> is_word (Js.toLowerCase s) = true.
Proof.
  unfold is_word. intros H. apply andb_true_iff in H as (Hne & Hw).
  apply andb_true_iff. split.
  - destruct s; [discriminate Hne | reflexivity].
  - clear Hne. induction s as [|c s IH]; [reflexivity |].
    simpl in Hw. apply andb_true_iff in Hw as (Hc & Hw).
    simpl. apply andb_true_iff. split; [apply lower_word_char, Hc | apply IH, Hw].
Qed.

Lemma padded_not_empty (pad cmd tail : string) :
  is_word cmd = true -> Js.truthy (Some (pad +:+ cmd +:+ tail)) = true.
Proof.
  unfold is_word. intros H. apply andb_true_iff in H as (Hne & _).
  destruct cmd as [|c cmd]; [discriminate Hne |].
  destruct pad as [|a pad]; reflexivity.
Qed.

(** X20. Only the first word of a message counts, and its case does not:
    white space before it, white space after it and anything that follows
    it after a space are dropped, and the word is lowered. What the bot does
    with a message depends on the text through that word alone, so
    [  /UPDATE now] is handled as [/update] is. *)
Theorem command_of_first_word (pad cmd tail : string) :
  all_chars JsText.is_space pad = true ->
  is_word cmd = true ->
  all_chars JsText.is_space tail = true \/ (exists rest, tail = String " " rest) ->
  command_of (pad +:+ cmd +:+ tail) = Js.toLowerCase cmd /\
  command_of (Js.toLowerCase cmd) = Js.toLowerCase cmd /\
  forall cfg env chatId b,
    handleTelegramUpdate cfg env
      {| upd_message := Some {| msg_chat_id := chatId;
                                msg_text := Some (pad +:+ cmd +:+ tail) |} |} b =
    handleTelegramUpdate cfg env
      {| upd_message := Some {| msg_chat_id := chatId;
                                msg_text := Some (Js.toLowerCase cmd) |} |} b.
Proof.
  intros Hpad Hcmd Htail.
  pose proof (command_of_padded pad cmd tail Hpad Hcmd Htail) as H1.
  pose proof (command_of_padded "" (Js.toLowerCase cmd) "" eq_refl
                (lower_word cmd Hcmd) (or_introl eq_refl)) as H2.
  change ("" +:+ Js.toLowerCase cmd +:+ "") with (Js.toLowerCase cmd +:+ "") in H2.
  rewrite append_empty, toLowerCase_idempotent in H2.
  split; [exact H1 |]. split; [exact H2 |].
  intros cfg env chatId b. unfold handleTelegramUpdate.
  cbn [upd_message msg_text msg_chat_id].
  rewrite (padded_not_empty pad cmd tail Hcmd).
  pose proof (padded_not_empty "" (Js.toLowerCase cmd) "" (lower_word cmd Hcmd)) as Ht.
  change ("" +:+ Js.toLowerCase cmd +:+ "") with (Js.toLowerCase cmd +:+ "") in Ht.
  rewrite append_empty in Ht. rewrite Ht, H1, H2. reflexivity.
Qed.

(** X20 on a padded, capitalised command with an argument. *)
Lemma command_of_first_word_witness :
  command_of "  /UPDATE now" = "/update".
Proof.
  exact (proj1 (command_of_first_word "  " "/UPDATE" " now" eq_refl eq_refl
                  (or_intror (ex_intro _ "now" eq_refl)))).
Defined.

(** ** The notifications of a run *)

Lemma sends_nothing_refl w : sends_nothing w w.
Proof. exists []. rewrite app_nil_r. auto. Qed.

Lemma sends_nothing_trans a b c :
  sends_nothing a b -> sends_nothing b c -> sends_nothing a c.
Proof.
  intros (l1 & Ht1 & H1) (l2 & Ht2 & H2). exists (l1 ++ l2).
  rewrite Ht2, Ht1, app_assoc, List.filter_app, H1, H2. auto.
Qed.

Lemma sends_nothing_step w w' l :
  trace w' = trace w ++ l -> List.filter is_telegram l = [] ->
  sends_nothing w w'.
Proof. intros Ht H. exists l. auto. Qed.

Lemma sends_nothing_phases (env : Env) (w : World) :
  let w2 := snd (processQueue env w) in
  sends_nothing w (if apiCallsUsed (stats w2) <? MAX_API_CALLS
                   then snd (processFreshVideos env w2) else w2).
Proof.
  apply (phases_respect env (fun _ => True) sends_nothing sends_nothing_refl
           sends_nothing_trans (fun _ => True));
    try exact I; try (intros; exact I).
  - intros f w0 _. apply (sends_nothing_step _ _ []); simpl;
      rewrite ?app_nil_r; reflexivity.
  - intros w0. eapply sends_nothing_step; reflexivity.
  - intros tableName w0. eapply sends_nothing_step; reflexivity.
  - intros url w0.
    destruct (isUrlValid_world env url w0) as (_ & _ & [Ht | (u & _ & Ht)]).
    + apply (sends_nothing_step _ _ []); rewrite ?app_nil_r; auto.
    + apply (sends_nothing_step _ _ [EvHead u]); auto.
  - intros videoId w0 _. rewrite getFacebookVideoUrl_world.
    apply (sends_nothing_step _ _ [EvGraphGet videoId]); reflexivity.
  - intros queueId st msg w0 _. rewrite markQueueProcessed_world.
    eapply sends_nothing_step; reflexivity.
  - intros tbl rowId newUrl w0 _.
    destruct (updateVideoUrl_frame env tbl rowId newUrl w0)
      as (_ & _ & _ & _ & [Ht | Ht]).
    + apply (sends_nothing_step _ _ []); rewrite ?app_nil_r; auto.
    + apply (sends_nothing_step _ _ [EvTableUpdate tbl rowId newUrl]); auto.
  - intros tbl v w0. rewrite enqueued_world.
    eapply sends_nothing_step; reflexivity.
Qed.

(** Over answers on the schema. A run notifies twice or not at all. With the notifications
    configured, its first request is the start message and its last is the
    report, made from the statistics the run ends with; nothing in between
    is a notification, whatever fails during the run. Without them the run
    sends nothing. *)
Lemma notifications_on_schema (env : Env) (w : World) :
  let w' := snd (processUrlUpdates env w) in
  exists (l : list Event) (now : Z),
    List.filter is_telegram l = [] /\
    issued w w' =
      if telegram_configured env
      then [EvTelegram start_message] ++ l ++
           [EvTelegram (Report.generateReport (locale_date env now) now (stats w'))]
      else l.
Proof.
  intros w'. subst w'. rewrite processUrlUpdates_eq. cbv zeta.
  set (w1 := snd (sendTelegram env start_message (reset env w))).
  pose proof (sends_nothing_phases env w1) as H. cbv zeta in H.
  set (w3 := if apiCallsUsed (stats (snd (processQueue env w1))) <? MAX_API_CALLS
             then snd (processFreshVideos env (snd (processQueue env w1)))
             else snd (processQueue env w1)) in *.
  destruct H as (l & Ht & Hl).
  exists l, (clock env (length (trace w3))). split; [exact Hl |].
  unfold issued. rewrite !sendTelegram_world. cbn [trace stats].
  rewrite Ht. subst w1. rewrite sendTelegram_world. cbn [trace].
  change (trace (reset env w)) with (trace w).
  destruct (telegram_configured env).
  - rewrite <- !app_assoc. rewrite drop_app_length. reflexivity.
  - rewrite drop_app_length. reflexivity.
Qed.

(** ** Asking for a run *)

Lemma command_of_empty : command_of "" = "".
Proof. reflexivity. Qed.

(** X22. [/update] from an authorised chat. While an update is in progress
    it is refused: the chat is told so, and nothing else happens. Otherwise
    one full run is made, in between the two messages to the chat; it is
    put on record as a success, and the flag is down again afterwards. *)
Theorem handleTelegramUpdate_update (cfg : BotConfig) (env : Env)
    (update : Update) (m : Message) (text : string) (b : Bot) :
  upd_message update = Some m ->
  msg_text m = Some text ->
  command_of text = "/update" ->
  isAuthorized cfg (msg_chat_id m) = true ->
  let b' := handleTelegramUpdate cfg env update b in
  if isProcessing b
  then engine b' = engine b /\ isProcessing b' = true /\
       lastUpdateInfo b' = lastUpdateInfo b /\
       sent b' = sent b ++ [(msg_chat_id m, Texts.already_running)]
  else ran_update env (msg_chat_id m) b b'.
Proof.
  intros Hm Ht Hc Ha b'. subst b'. unfold handleTelegramUpdate.
  rewrite Hm, Ht.
  assert (Htr : Js.truthy (Some text) = true).
  { destruct text; [discriminate Hc | reflexivity]. }
  rewrite Htr, Ha, Hc. cbn [negb String.eqb Ascii.eqb Bool.eqb].
  destruct (isProcessing b) eqn:Hp.
  - rewrite handleUpdateCommand_busy by exact Hp.
    unfold sendMessage. cbn. rewrite Hp. repeat split.
  - apply handleUpdateCommand_idle. exact Hp.
Qed.

(** X22 on [Sample.db_one_task], with no list of admins: the pending task
    is completed by the run the chat asked for. *)
Lemma handleTelegramUpdate_update_witness :
  let cfg := {| admin_ids := None; local_date := fun _ => "";
                count_ok := fun _ => true |} in
  let update := {| upd_message :=
                     Some {| msg_chat_id := 56; msg_text := Some "/Update now" |} |} in
  let b := fresh_bot (Sample.world 0 Sample.db_one_task) in
  let b' := handleTelegramUpdate cfg Sample.env update b in
  map status (url_update_queue (db (engine b'))) = [Status.completed] /\
  isProcessing b' = false /\
  sent b' = [(56%Z, Texts.update_started); (56%Z, Texts.update_completed)].
Proof.
  cbv zeta.
  destruct (handleTelegramUpdate_update
              {| admin_ids := None; local_date := fun _ => "";
                 count_ok := fun _ => true |}
              Sample.env
              {| upd_message :=
                   Some {| msg_chat_id := 56; msg_text := Some "/Update now" |} |}
              {| msg_chat_id := 56; msg_text := Some "/Update now" |}
              "/Update now"
              (fresh_bot (Sample.world 0 Sample.db_one_task))
              eq_refl eq_refl eq_refl eq_refl)
    as (He & Hp & _ & Hs).
  split; [rewrite He; vm_compute; reflexivity |].
  split; [exact Hp | exact Hs].
Defined.

(** * The trigger endpoint *)

Lemma strict_eqb_spec (a b : option string) :
  JsText.strict_eqb a b = true <-> a = b.
Proof.
  destruct a as [x |], b as [y |]; simpl; try (split; [discriminate | discriminate]).
  - rewrite String.eqb_eq. split; [intros ->; reflexivity | intros [= ->]; reflexivity].
  - split; reflexivity.
Qed.

(** X23. [POST /update-urls] is refused with 401, and nothing is done, exactly
    when the [x-secret-key] header differs from [SECRET_KEY]; otherwise it
    is answered at once and one full run follows. A missing header equals a
    missing [SECRET_KEY]: where no key is configured, a request without the
    header starts a run. *)
Theorem postUpdateUrls_gate (env : Env) (key header : option string) (w : World) :
  let r := postUpdateUrls env key header w in
  (fst r = Unauthorized401 <-> header <> key) /\
  (header <> key -> snd r = w) /\
  (header = key ->
   fst r = Started (clock env (length (trace w))) /\
   snd r = snd (processUrlUpdates env w)) /\
  (key = None -> header = None -> snd r = snd (processUrlUpdates env w)).
Proof.
  intros r. subst r. unfold postUpdateUrls.
  destruct (JsText.strict_eqb header key) eqn:E; cbn [negb fst snd].
  - apply strict_eqb_spec in E. subst key.
    split; [split; [discriminate | intros H; contradiction] |].
    split; [intros H; contradiction |].
    split; [intros _; split; reflexivity | intros; reflexivity].
  - assert (Hne : header <> key).
    { intros H. apply strict_eqb_spec in H. congruence. }
    split; [split; [intros _; exact Hne | reflexivity] |].
    split; [reflexivity |].
    split; [intros H; contradiction |].
    intros -> ->. contradiction.
Qed.

(** X23 with a wrong key, and with neither key nor header. *)
Lemma postUpdateUrls_gate_witness :
  let w := Sample.world 0 Sample.db_one_task in
  postUpdateUrls Sample.env (Some "s3cret") (Some "guess") w = (Unauthorized401, w) /\
  map status
    (url_update_queue (db (snd (postUpdateUrls Sample.env None None w)))) =
  [Status.completed].
Proof.
  cbv zeta.
  destruct (postUpdateUrls_gate Sample.env (Some "s3cret") (Some "guess")
              (Sample.world 0 Sample.db_one_task)) as (H1 & H2 & _).
  destruct (postUpdateUrls_gate Sample.env None None
              (Sample.world 0 Sample.db_one_task)) as (_ & _ & _ & H3).
  split.
  - apply injective_projections; cbn [fst snd].
    + apply H1. intros H; discriminate H.
    + apply H2. intros H; discriminate H.
  - rewrite (H3 eq_refl eq_refl). vm_compute. reflexivity.
Defined.

(** * The numbers of a run *)

(** Loops and phases respect whatever their turns respect. A turn of the
    drain or of the sweep is only made with budget left, and a record is
    only offered to the queue with the budget used up. *)
Section Turns.

Variable env : Env.
Variable R : World -> World -> Prop.

Hypothesis R_refl : forall w, R w w.
Hypothesis R_trans : forall a b c, R a b -> R b c -> R a c.
Hypothesis R_queue_select :
  forall w, R w (snd (emit (EvQueueSelect MAX_API_CALLS) w)).
Hypothesis R_table_select :
  forall tableName w, R w (snd (emit (EvTableSelect tableName) w)).
Hypothesis R_item :
  forall item w,
    apiCallsUsed (stats w) < MAX_API_CALLS ->
    R w (snd (processQueueItem env item w)).
Hypothesis R_video :
  forall tableName video w,
    apiCallsUsed (stats w) < MAX_API_CALLS ->
    R w (snd (sweepVideo env tableName video w)).
Hypothesis R_enqueue :
  forall tableName v w,
    MAX_API_CALLS <= apiCallsUsed (stats w) ->
    R w (enqueued env tableName v w).

Lemma queueRemaining_turns tableName videos :
  forall w, MAX_API_CALLS <= apiCallsUsed (stats w) ->
            R w (snd (queueRemaining env tableName videos w)).
Proof.
  induction videos as [|v rest IH]; intros w Hb; [apply R_refl |].
  rewrite queueRemaining_cons. cbv zeta.
  eapply R_trans; [apply (R_enqueue tableName v w Hb) |].
  apply IH.
  pose proof (enqueued_world env tableName v w) as He.
  unfold enqueued in He. cbv zeta in He. rewrite He. cbn [stats].
  destruct (queue_insert_ok env (length (trace w))); exact Hb.
Qed.

Lemma sweepTable_turns tableName w : R w (snd (sweepTable env tableName w)).
Proof.
  rewrite sweepTable_eq.
  apply R_trans with (b := snd (emit (EvTableSelect tableName) w));
    [apply R_table_select |].
  generalize (snd (emit (EvTableSelect tableName) w)).
  induction (if table_select_ok env (length (trace w)) tableName
             then select_videos tableName (db w) else []) as [|v rest IH];
    intros w0; [apply R_refl |].
  rewrite sweepVideos_cons.
  destruct (MAX_API_CALLS <=? apiCallsUsed (stats w0)) eqn:Hb.
  - apply Nat.leb_le in Hb. apply queueRemaining_turns. exact Hb.
  - apply Nat.leb_gt in Hb.
    eapply R_trans; [apply R_video; exact Hb | apply IH].
Qed.

Lemma processQueue_turns w : R w (snd (processQueue env w)).
Proof.
  rewrite processQueue_eq.
  apply R_trans with (b := snd (emit (EvQueueSelect MAX_API_CALLS) w));
    [apply R_queue_select |].
  generalize (snd (emit (EvQueueSelect MAX_API_CALLS) w)).
  induction (drained env (length (trace w)) (db w)) as [|item rest IH];
    intros w0; [apply R_refl |].
  rewrite processQueueItems_cons.
  destruct (MAX_API_CALLS <=? apiCallsUsed (stats w0)) eqn:Hb;
    [apply R_refl |].
  apply Nat.leb_gt in Hb.
  eapply R_trans; [apply R_item; exact Hb | apply IH].
Qed.

Lemma phases_turns w :
  let w2 := snd (processQueue env w) in
  R w (if apiCallsUsed (stats w2) <? MAX_API_CALLS
       then snd (processFreshVideos env w2) else w2).
Proof.
  intros w2. pose proof (processQueue_turns w) as H2. fold w2 in H2.
  destruct (apiCallsUsed (stats w2) <? MAX_API_CALLS); [| exact H2].
  eapply R_trans; [exact H2 |]. rewrite processFreshVideos_eq.
  eapply R_trans; apply sweepTable_turns.
Qed.

End Turns.

Lemma accounts_refl w : accounts w w.
Proof. exists []. rewrite app_nil_r. simpl. repeat split; lia. Qed.

Lemma accounts_trans a b c : accounts a b -> accounts b c -> accounts a c.
Proof.
  intros (l1 & Ht1 & A1 & B1 & C1 & D1) (l2 & Ht2 & A2 & B2 & C2 & D2).
  exists (l1 ++ l2).
  split; [rewrite Ht2, Ht1, app_assoc; reflexivity |].
  rewrite omap_app, length_app. repeat split; lia.
Qed.

(** A step that leaves the counters alone and marks no task. *)
Lemma accounts_quiet w w' l :
  trace w' = trace w ++ l -> omap marked_id l = [] ->
  updated (stats w') = updated (stats w) ->
  failed (stats w') = failed (stats w) ->
  apiCallsUsed (stats w') = apiCallsUsed (stats w) ->
  episodesUpdated (stats w') = episodesUpdated (stats w) ->
  moviesUpdated (stats w') = moviesUpdated (stats w) ->
  totalChecked (stats w') = totalChecked (stats w) ->
  alreadyValid (stats w') = alreadyValid (stats w) ->
  failures (stats w') = failures (stats w) ->
  accounts w w'.
Proof.
  intros Ht Hm H1 H2 H3 H4 H5 H6 H7 H8. exists l.
  split; [exact Ht |].
  unfold buckets. rewrite Hm, H1, H2, H3, H4, H5, H6, H7, H8. simpl.
  repeat split; lia.
Qed.

Lemma record_failure_buckets error info w :
  let w' := snd (record_failure error info w) in
  trace w' = trace w /\ db w' = db w /\
  buckets (stats w') = S (buckets (stats w)) /\
  updated (stats w') = updated (stats w) /\
  failed (stats w') = failed (stats w) /\
  apiCallsUsed (stats w') = apiCallsUsed (stats w) /\
  episodesUpdated (stats w') = episodesUpdated (stats w) /\
  moviesUpdated (stats w') = moviesUpdated (stats w) /\
  totalChecked (stats w') = totalChecked (stats w) /\
  alreadyValid (stats w') = alreadyValid (stats w).
Proof.
  unfold buckets.
  destruct error; cbn; rewrite ?length_app; cbn; repeat split; lia.
Qed.

Lemma updateVideoUrl_accounts (env : Env) tableName rowId newUrl w :
  let r := updateVideoUrl env tableName rowId newUrl w in
  exists l, trace (snd r) = trace w ++ l /\ omap marked_id l = [] /\
    updated (stats (snd r)) = updated (stats w) /\
    failed (stats (snd r)) = failed (stats w) /\
    apiCallsUsed (stats (snd r)) = apiCallsUsed (stats w) /\
    totalChecked (stats (snd r)) = totalChecked (stats w) /\
    alreadyValid (stats (snd r)) = alreadyValid (stats w) /\
    failures (stats (snd r)) = failures (stats w) /\
    episodesUpdated (stats (snd r)) + moviesUpdated (stats (snd r)) =
      (if fst r then 1 else 0) + (episodesUpdated (stats w) + moviesUpdated (stats w)).
Proof.
  cbv zeta. rewrite updateVideoUrl_world.
  destruct (String.eqb tableName "episodes");
    [| destruct (String.eqb tableName "movies")]; cbn [fst snd].
  - exists [EvTableUpdate tableName rowId newUrl].
    destruct (table_update_ok env (length (trace w)) tableName); cbn;
      repeat split; lia.
  - exists [EvTableUpdate tableName rowId newUrl].
    destruct (table_update_ok env (length (trace w)) tableName); cbn;
      repeat split; lia.
  - exists []. rewrite app_nil_r. cbn. repeat split; lia.
Qed.

Lemma sweepVideo_accounts (env : Env) tableName video w :
  accounts w (snd (sweepVideo env tableName video w)).
Proof.
  rewrite sweepVideo_eq. cbv zeta.
  destruct (isUrlValid_world env (Some (video_url_of video)) (checked w))
    as (Hs1 & _ & Ht1).
  assert (Ht1' : exists l1, trace (snd (isUrlValid env (Some (video_url_of video))
                                          (checked w))) = trace w ++ l1 /\
                            omap marked_id l1 = []).
  { destruct Ht1 as [Ht | (u & _ & Ht)]; rewrite Ht.
    - exists []. rewrite app_nil_r. split; reflexivity.
    - exists [EvHead u]. split; reflexivity. }
  clear Ht1. destruct Ht1' as (l1 & Ht1 & Hm1).
  set (r1 := isUrlValid env (Some (video_url_of video)) (checked w)) in *.
  change (stats (checked w))
    with (set_totalChecked (S (totalChecked (stats w))) (stats w)) in Hs1.
  destruct (fst r1).
  - exists l1. unfold buckets. cbn. rewrite Hs1, Hm1. cbn.
    split; [exact Ht1 |]. repeat split; lia.
  - pose proof (getFacebookVideoUrl_world env (video_id_of video) (snd r1)) as Hw2.
    set (r2 := getFacebookVideoUrl env (video_id_of video) (snd r1)) in *.
    destruct (fst r2) as [url | error message].
    + destruct (updateVideoUrl_accounts env tableName (id video) url (snd r2))
        as (l3 & Ht3 & Hm3 & U1 & U2 & U3 & U4 & U5 & U6 & U7).
      set (r3 := updateVideoUrl env tableName (id video) url (snd r2)) in *.
      rewrite Hw2 in Ht3, U1, U2, U3, U4, U5, U6, U7. cbn in Ht3, U1, U2, U3, U4, U5, U6, U7.
      rewrite Hs1 in U1, U2, U3, U4, U5, U6, U7. cbn in U1, U2, U3, U4, U5, U6, U7.
      exists (l1 ++ [EvGraphGet (video_id_of video)] ++ l3).
      split.
      { destruct (fst r3); cbn; rewrite Ht3, Ht1, <- !app_assoc; reflexivity. }
      rewrite !omap_app, Hm1, Hm3. unfold buckets.
      destruct (fst r3); cbn; rewrite ?U1, ?U2, ?U3, ?U4, ?U5, ?U6; cbn;
        repeat split; lia.
    + destruct (record_failure_buckets error
                  {| fi_id := video_id_of video; fi_title := video_title_of video |}
                  (snd (modify_stats (fun s => set_failed (S (failed s)) s) (snd r2))))
        as (Ft & _ & F1 & F2 & F3 & F4 & F5 & F6 & F7 & F8).
      exists (l1 ++ [EvGraphGet (video_id_of video)]).
      rewrite Ft, F1, F2, F3, F4, F5, F6, F7, F8. cbn. rewrite Hw2. cbn.
      rewrite Hs1. cbn. rewrite Ht1, omap_app, Hm1, <- app_assoc. cbn.
      split; [reflexivity |]. unfold buckets. cbn. repeat split; lia.
Qed.

Lemma processQueueItem_accounts (env : Env) item w :
  accounts w (snd (processQueueItem env item w)).
Proof.
  rewrite processQueueItem_eq. cbv zeta.
  pose proof (getFacebookVideoUrl_world env (facebook_video_id item) w) as Hw1.
  set (r1 := getFacebookVideoUrl env (facebook_video_id item) w) in *.
  destruct (fst r1) as [url | error message].
  - destruct (updateVideoUrl_accounts env (table_name item) (row_id item) url (snd r1))
      as (l2 & Ht2 & Hm2 & U1 & U2 & U3 & U4 & U5 & U6 & U7).
    set (r2 := updateVideoUrl env (table_name item) (row_id item) url (snd r1)) in *.
    rewrite Hw1 in Ht2, U1, U2, U3, U4, U5, U6, U7.
    cbn in Ht2, U1, U2, U3, U4, U5, U6, U7.
    destruct (fst r2); rewrite markQueueProcessed_world.
    + exists ([EvGraphGet (facebook_video_id item)] ++ l2 ++
              [EvQueueUpdate (q_id item) Status.completed None]).
      split; [cbn; rewrite Ht2, <- !app_assoc; reflexivity |].
      rewrite !omap_app, Hm2. unfold buckets. cbn.
      rewrite ?U1, ?U2, ?U3, ?U4, ?U5, ?U6. repeat split; lia.
    + exists ([EvGraphGet (facebook_video_id item)] ++ l2 ++
              [EvQueueUpdate (q_id item) Status.failed
                 (Some "Database update failed")]).
      split; [cbn; rewrite Ht2, <- !app_assoc; reflexivity |].
      rewrite !omap_app, Hm2. unfold buckets. cbn.
      rewrite ?U1, ?U2, ?U3, ?U4, ?U5, ?U6. repeat split; lia.
  - destruct (record_failure_buckets error
                {| fi_id := facebook_video_id item;
                   fi_title := Some (Js.or_else (video_title item) "Unknown") |}
                (snd (modify_stats (fun s => set_failed (S (failed s)) s)
                        (snd (markQueueProcessed env (q_id item) Status.failed
                                (Some message) (snd r1))))))
      as (Ft & _ & F1 & F2 & F3 & F4 & F5 & F6 & F7 & F8).
    exists [EvGraphGet (facebook_video_id item);
            EvQueueUpdate (q_id item) Status.failed (Some message)].
    rewrite Ft, F1, F2, F3, F4, F5, F6, F7, F8.
    rewrite markQueueProcessed_world. cbn. rewrite Hw1. cbn.
    rewrite <- app_assoc. split; [reflexivity |].
    unfold buckets. cbn. repeat split; lia.
Qed.

Lemma accounts_phases (env : Env) (w : World) :
  let w2 := snd (processQueue env w) in
  accounts w (if apiCallsUsed (stats w2) <? MAX_API_CALLS
              then snd (processFreshVideos env w2) else w2).
Proof.
  apply (phases_turns env accounts accounts_refl accounts_trans).
  - intros w0. eapply accounts_quiet; reflexivity.
  - intros tableName w0. eapply accounts_quiet; reflexivity.
  - intros item w0 _. apply processQueueItem_accounts.
  - intros tableName video w0 _. apply sweepVideo_accounts.
  - intros tableName v w0 _. rewrite enqueued_world.
    eapply accounts_quiet; try reflexivity;
      cbn; destruct (queue_insert_ok env (length (trace w0))); reflexivity.
Qed.

(** Over answers on the schema. The numbers of a run add up. Every lookup
    ended as an update or as a failure: [updated + failed = apiCallsUsed].
    Every update was an episode's or a movie's:
    [updated = episodesUpdated + moviesUpdated]. Every record checked was
    valid or looked up, and the lookups beyond those are the tasks of the
    drain, one queue update each. The failure buckets hold no more entries
    than [failed] counts. *)
Lemma accounts_on_schema (env : Env) (w : World) :
  let w' := snd (processUrlUpdates env w) in
  let s := stats w' in
  updated s + failed s = apiCallsUsed s /\
  updated s = episodesUpdated s + moviesUpdated s /\
  totalChecked s + length (omap marked_id (issued w w')) =
    alreadyValid s + apiCallsUsed s /\
  buckets s <= failed s.
Proof.
  intros w' s. subst s w'. rewrite processUrlUpdates_eq. cbv zeta.
  set (w1 := snd (sendTelegram env start_message (reset env w))).
  pose proof (accounts_phases env w1) as H. cbv zeta in H.
  set (w3 := if apiCallsUsed (stats (snd (processQueue env w1))) <? MAX_API_CALLS
             then snd (processFreshVideos env (snd (processQueue env w1)))
             else snd (processQueue env w1)) in *.
  destruct H as (l & Ht & A & B & C & D).
  unfold issued. rewrite !sendTelegram_world. cbn [trace stats].
  rewrite Ht. subst w1. rewrite sendTelegram_world in *. cbn [trace stats] in *.
  change (trace (reset env w)) with (trace w).
  change (stats (reset env w))
    with (fresh_stats (Some (clock env (length (trace w))))) in *.
  unfold buckets in *. cbn in A, B, C, D.
  destruct (telegram_configured env).
  - rewrite <- !app_assoc, drop_app_length, !omap_app. cbn.
    rewrite app_nil_r. repeat split; lia.
  - rewrite drop_app_length. repeat split; lia.
Qed.

(** * The closing line of a run's report *)














(** * The run when a lookup throws *)

(** ** The turns *)

Lemma Throwing_getFacebookVideoUrl_cases (o : Outside) videoId w :
  Throwing.getFacebookVideoUrl o videoId w =
  match off_schema o (length (trace w)) videoId with
  | Some message => (Thrown message, counted_lookup videoId w)
  | None => (Returned (fst (getFacebookVideoUrl (schema o) videoId w)),
             snd (getFacebookVideoUrl (schema o) videoId w))
  end.
Proof.
  unfold Throwing.getFacebookVideoUrl, and_then, lift, tick. cbn beta iota.
  destruct (off_schema o (length (trace w)) videoId) as [message |].
  - reflexivity.
  - destruct (getFacebookVideoUrl (schema o) videoId w). reflexivity.
Qed.

Lemma Throwing_processQueueItem_cases (o : Outside) item w :
  Throwing.processQueueItem o item w =
  match off_schema o (length (trace w)) (facebook_video_id item) with
  | Some message => (Thrown message, counted_lookup (facebook_video_id item) w)
  | None => (Returned tt, snd (processQueueItem (schema o) item w))
  end.
Proof.
  unfold Throwing.processQueueItem. unfold and_then at 1.
  rewrite Throwing_getFacebookVideoUrl_cases.
  destruct (off_schema o (length (trace w)) (facebook_video_id item));
    [reflexivity |].
  rewrite processQueueItem_eq. cbv zeta.
  destruct (getFacebookVideoUrl (schema o) (facebook_video_id item) w)
    as [[url | error message] w1]; cbn [fst snd].
  - unfold and_then, lift.
    destruct (updateVideoUrl (schema o) (table_name item) (row_id item) url w1)
      as [[|] w2]; cbn [fst snd].
    + destruct (markQueueProcessed (schema o) (q_id item) Status.completed None w2)
        as [[] w3]. reflexivity.
    + destruct (markQueueProcessed (schema o) (q_id item) Status.failed
                  (Some "Database update failed"%string) w2) as [[] w3].
      reflexivity.
  - unfold and_then, lift.
    destruct (markQueueProcessed (schema o) (q_id item) Status.failed
                (Some message) w1) as [[] w3]. cbn [snd].
    destruct error; reflexivity.
Qed.

Lemma Throwing_sweepVideo_cases (o : Outside) tableName video w :
  let r1 := isUrlValid (schema o) (Some (video_url_of video)) (checked w) in
  Throwing.sweepVideo o tableName video w =
  if fst r1
  then (Returned tt, snd (sweepVideo (schema o) tableName video w))
  else
    match off_schema o (length (trace (snd r1))) (video_id_of video) with
    | Some message => (Thrown message, counted_lookup (video_id_of video) (snd r1))
    | None => (Returned tt, snd (sweepVideo (schema o) tableName video w))
    end.
Proof.
  cbv zeta. rewrite sweepVideo_eq. cbv zeta.
  unfold Throwing.sweepVideo. unfold and_then at 1 2. unfold lift at 1 2.
  unfold checked. 
  destruct (modify_stats (fun s => set_totalChecked (S (totalChecked s)) s) w)
    as [[] w0]. cbn [snd].
  destruct (isUrlValid (schema o) (Some (video_url_of video)) w0)
    as [[|] w1]; cbn [fst snd].
  - unfold lift. reflexivity.
  - unfold and_then at 1. rewrite Throwing_getFacebookVideoUrl_cases.
    destruct (off_schema o (length (trace w1)) (video_id_of video));
      [reflexivity |].
    destruct (getFacebookVideoUrl (schema o) (video_id_of video) w1)
      as [[url | error message] w2]; cbn [fst snd].
    + unfold and_then, lift.
      destruct (updateVideoUrl (schema o) tableName (id video) url w2)
        as [[|] w3]; reflexivity.
    + unfold and_then, lift. cbn.
      destruct error; reflexivity.
Qed.

(** The run with its [catch], from the [try] block. *)
Lemma Throwing_processUrlUpdates_eq (o : Outside) (w : World) :
  snd (Throwing.processUrlUpdates o w) =
  match Throwing.attempt o (started (schema o) w) with
  | (Returned _, w') => w'
  | (Thrown message, w') =>
      snd (sendTelegram (schema o)
             (Throwing.error_notice message
                (iso_date o (clock (schema o) (length (trace w'))))) w')
  end.
Proof.
  unfold Throwing.processUrlUpdates, started, reset, bind. cbv zeta.
  unfold tick at 1. cbn beta iota.
  destruct (modify_stats
              (fun _ => fresh_stats (Some (clock (schema o) (length (trace w))))) w)
    as [[] u1]. cbn [snd].
  destruct (sendTelegram (schema o) start_message u1) as [[] u2]. cbn [snd].
  unfold try_catch.
  destruct (Throwing.attempt o u2) as [[[] | message] u3]; [reflexivity |].
  unfold tick. cbn beta iota. reflexivity.
Qed.

Lemma processUrlUpdates_plain_end (env : Env) (w : World) :
  snd (processUrlUpdates env w) = plain_end env (started env w).
Proof. rewrite processUrlUpdates_eq. reflexivity. Qed.

Lemma counted_lookup_length videoId w :
  length (trace (counted_lookup videoId w)) = S (length (trace w)).
Proof. unfold counted_lookup. cbn [trace]. rewrite length_app. simpl. lia. Qed.

(** ** What the engine over the schema does not do *)

Lemma sends_nothing_quiet :
  forall f w, True -> sends_nothing w (snd (modify_stats f w)).
Proof.
  intros f w0 _. apply (sends_nothing_step _ _ []); simpl;
    rewrite ?app_nil_r; reflexivity.
Qed.

Lemma sends_nothing_probe env url w :
  sends_nothing w (snd (isUrlValid env url w)).
Proof.
  destruct (isUrlValid_world env url w) as (_ & _ & [Ht | (u & _ & Ht)]).
  - apply (sends_nothing_step _ _ []); rewrite ?app_nil_r; auto.
  - apply (sends_nothing_step _ _ [EvHead u]); auto.
Qed.

Lemma sends_nothing_lookup env videoId w :
  sends_nothing w (snd (getFacebookVideoUrl env videoId w)).
Proof.
  rewrite getFacebookVideoUrl_world.
  apply (sends_nothing_step _ _ [EvGraphGet videoId]); reflexivity.
Qed.

Lemma sends_nothing_mark env queueId st msg w :
  sends_nothing w (snd (markQueueProcessed env queueId st msg w)).
Proof.
  rewrite markQueueProcessed_world. eapply sends_nothing_step; reflexivity.
Qed.

Lemma sends_nothing_update env tbl rowId newUrl w :
  sends_nothing w (snd (updateVideoUrl env tbl rowId newUrl w)).
Proof.
  destruct (updateVideoUrl_frame env tbl rowId newUrl w)
    as (_ & _ & _ & _ & [Ht | Ht]).
  - apply (sends_nothing_step _ _ []); rewrite ?app_nil_r; auto.
  - apply (sends_nothing_step _ _ [EvTableUpdate tbl rowId newUrl]); auto.
Qed.

Lemma sends_nothing_enqueued env tbl v w :
  sends_nothing w (enqueued env tbl v w).
Proof. rewrite enqueued_world. eapply sends_nothing_step; reflexivity. Qed.

Lemma processQueueItem_sends_nothing env item w :
  apiCallsUsed (stats w) < MAX_API_CALLS ->
  sends_nothing w (snd (processQueueItem env item w)).
Proof.
  apply (processQueueItem_respects env (fun _ => True) sends_nothing
           sends_nothing_trans (fun _ => True) sends_nothing_quiet I I
           (fun _ => I) (fun _ => I) (fun _ => I)).
  - intros videoId w0 _. apply sends_nothing_lookup.
  - intros queueId st msg w0 _. apply sends_nothing_mark.
  - intros tbl rowId newUrl w0 _. apply sends_nothing_update.
  - exact I.
Qed.

Lemma sweepVideo_sends_nothing env tableName video w :
  apiCallsUsed (stats w) < MAX_API_CALLS ->
  sends_nothing w (snd (sweepVideo env tableName video w)).
Proof.
  apply (sweepVideo_respects env (fun _ => True) sends_nothing
           sends_nothing_trans (fun _ => True) sends_nothing_quiet I I I I
           (fun _ => I) (fun _ => I) (fun _ => I)).
  - intros url w0. apply sends_nothing_probe.
  - intros videoId w0 _. apply sends_nothing_lookup.
  - intros tbl rowId newUrl w0 _. apply sends_nothing_update.
  - exact I.
Qed.


(** The loops of the two phases, turn by turn. *)
Section TurnLoops.

Variable env : Env.
Variable R : World -> World -> Prop.

Hypothesis R_refl : forall w, R w w.
Hypothesis R_trans : forall a b c, R a b -> R b c -> R a c.
Hypothesis R_item :
  forall item w,
    apiCallsUsed (stats w) < MAX_API_CALLS ->
    R w (snd (processQueueItem env item w)).
Hypothesis R_video :
  forall tableName video w,
    apiCallsUsed (stats w) < MAX_API_CALLS ->
    R w (snd (sweepVideo env tableName video w)).
Hypothesis R_enqueue :
  forall tableName v w,
    MAX_API_CALLS <= apiCallsUsed (stats w) ->
    R w (enqueued env tableName v w).

Lemma processQueueItems_turns items :
  forall w, R w (snd (processQueueItems env items w)).
Proof.
  induction items as [|item rest IH]; intros w; [apply R_refl |].
  rewrite processQueueItems_cons.
  destruct (MAX_API_CALLS <=? apiCallsUsed (stats w)) eqn:Hb;
    [apply R_refl |].
  apply Nat.leb_gt in Hb.
  eapply R_trans; [apply R_item; exact Hb | apply IH].
Qed.

Lemma sweepVideos_turns tableName videos :
  forall w, R w (snd (sweepVideos env tableName videos w)).
Proof.
  induction videos as [|v rest IH]; intros w; [apply R_refl |].
  rewrite sweepVideos_cons.
  destruct (MAX_API_CALLS <=? apiCallsUsed (stats w)) eqn:Hb.
  - apply Nat.leb_le in Hb.
    apply (queueRemaining_turns env R R_refl R_trans R_enqueue). exact Hb.
  - apply Nat.leb_gt in Hb.
    eapply R_trans; [apply R_video; exact Hb | apply IH].
Qed.

End TurnLoops.

Lemma sends_nothing_select_queue w :
  sends_nothing w (snd (emit (EvQueueSelect MAX_API_CALLS) w)).
Proof. eapply sends_nothing_step; reflexivity. Qed.

Lemma sends_nothing_select_table tableName w :
  sends_nothing w (snd (emit (EvTableSelect tableName) w)).
Proof. eapply sends_nothing_step; reflexivity. Qed.

Lemma sends_nothing_carries_on w w' : sends_nothing w w' -> carries_on w w'.
Proof. intros (l & Ht & _). exists l. exact Ht. Qed.

Lemma carries_on_trans a b c :
  carries_on a b -> carries_on b c -> carries_on a c.
Proof.
  intros (l1 & H1) (l2 & H2). exists (l1 ++ l2).
  rewrite H2, H1, app_assoc. reflexivity.
Qed.

Lemma processQueueItems_carries_on env items w :
  carries_on w (snd (processQueueItems env items w)).
Proof.
  apply sends_nothing_carries_on.
  apply (processQueueItems_turns env sends_nothing sends_nothing_refl
           sends_nothing_trans).
  intros item w0. apply processQueueItem_sends_nothing.
Qed.

Lemma sweepVideos_carries_on env tableName videos w :
  carries_on w (snd (sweepVideos env tableName videos w)).
Proof.
  apply sends_nothing_carries_on.
  apply (sweepVideos_turns env sends_nothing sends_nothing_refl
           sends_nothing_trans).
  - intros tbl video w0. apply sweepVideo_sends_nothing.
  - intros tbl v w0 _. apply sends_nothing_enqueued.
Qed.

Lemma sweepTable_carries_on env tableName w :
  carries_on w (snd (sweepTable env tableName w)).
Proof.
  apply sends_nothing_carries_on.
  apply (sweepTable_turns env sends_nothing sends_nothing_refl
           sends_nothing_trans).
  - apply sends_nothing_select_table.
  - intros tbl video w0. apply sweepVideo_sends_nothing.
  - intros tbl v w0 _. apply sends_nothing_enqueued.
Qed.

Lemma sendTelegram_carries_on env text w :
  carries_on w (snd (sendTelegram env text w)).
Proof.
  rewrite sendTelegram_world.
  destruct (telegram_configured env).
  - exists [EvTelegram text]. reflexivity.
  - exists []. cbn [trace]. rewrite app_nil_r. reflexivity.
Qed.

(** From the phases on, the run over the schema only adds requests. *)
Lemma plain_end_carries_on env w :
  let w2 := snd (processQueue env w) in
  carries_on w2 (plain_end env w) /\
  ((apiCallsUsed (stats w2) <? MAX_API_CALLS) = true ->
   carries_on (snd (processFreshVideos env w2)) (plain_end env w)).
Proof.
  intros w2. unfold plain_end. cbv zeta. fold w2. split.
  - eapply carries_on_trans; [| apply sendTelegram_carries_on].
    destruct (apiCallsUsed (stats w2) <? MAX_API_CALLS).
    + rewrite processFreshVideos_eq.
      eapply carries_on_trans; apply sweepTable_carries_on.
    + exists []. rewrite app_nil_r. reflexivity.
  - intros Hb. rewrite Hb. apply sendTelegram_carries_on.
Qed.

Lemma getFacebookVideoUrl_counted env videoId w :
  snd (getFacebookVideoUrl env videoId w) = counted_lookup videoId w.
Proof. apply getFacebookVideoUrl_world. Qed.

Lemma record_failure_sends_nothing error info w :
  sends_nothing w (snd (record_failure error info w)).
Proof. destruct error; apply sends_nothing_quiet; exact I. Qed.

(** After its lookup a turn of the drain only adds requests. *)
Lemma processQueueItem_after_lookup env item w :
  carries_on (counted_lookup (facebook_video_id item) w)
    (snd (processQueueItem env item w)).
Proof.
  apply sends_nothing_carries_on.
  rewrite processQueueItem_eq. cbv zeta.
  rewrite <- (getFacebookVideoUrl_counted env).
  destruct (fst (getFacebookVideoUrl env (facebook_video_id item) w))
    as [url | error message].
  - destruct (fst (updateVideoUrl env (table_name item) (row_id item) url _)).
    + eapply sends_nothing_trans; [apply sends_nothing_update |].
      eapply sends_nothing_trans; [apply sends_nothing_mark |].
      apply sends_nothing_quiet; exact I.
    + eapply sends_nothing_trans; [apply sends_nothing_update |].
      eapply sends_nothing_trans; [apply sends_nothing_mark |].
      apply sends_nothing_quiet; exact I.
  - eapply sends_nothing_trans; [apply sends_nothing_mark |].
    eapply sends_nothing_trans; [apply sends_nothing_quiet; exact I |].
    apply record_failure_sends_nothing.
Qed.

(** So does a turn of the sweep whose probe failed. *)
Lemma sweepVideo_after_lookup env tableName video w :
  let r1 := isUrlValid env (Some (video_url_of video)) (checked w) in
  fst r1 = false ->
  carries_on (counted_lookup (video_id_of video) (snd r1))
    (snd (sweepVideo env tableName video w)).
Proof.
  intros r1 Hr1. apply sends_nothing_carries_on.
  rewrite sweepVideo_eq. cbv zeta. fold r1. rewrite Hr1.
  rewrite <- (getFacebookVideoUrl_counted env).
  destruct (fst (getFacebookVideoUrl env (video_id_of video) (snd r1)))
    as [url | error message].
  - destruct (fst (updateVideoUrl env tableName (id video) url _)).
    + eapply sends_nothing_trans; [apply sends_nothing_update |].
      apply sends_nothing_quiet; exact I.
    + eapply sends_nothing_trans; [apply sends_nothing_update |].
      apply sends_nothing_quiet; exact I.
  - eapply sends_nothing_trans; [apply sends_nothing_quiet; exact I |].
    apply record_failure_sends_nothing.
Qed.

(** ** Loops and phases *)

Section ThrowingTurns.

Variable o : Outside.
Variable R : World -> World -> Prop.

Hypothesis R_refl : forall w, R w w.
Hypothesis R_trans : forall a b c, R a b -> R b c -> R a c.
Hypothesis R_queue_select :
  forall w, R w (snd (emit (EvQueueSelect MAX_API_CALLS) w)).
Hypothesis R_table_select :
  forall tableName w, R w (snd (emit (EvTableSelect tableName) w)).
Hypothesis R_item :
  forall item w,
    apiCallsUsed (stats w) < MAX_API_CALLS ->
    R w (snd (processQueueItem (schema o) item w)).
Hypothesis R_video :
  forall tableName video w,
    apiCallsUsed (stats w) < MAX_API_CALLS ->
    R w (snd (sweepVideo (schema o) tableName video w)).
Hypothesis R_enqueue :
  forall tableName v w,
    MAX_API_CALLS <= apiCallsUsed (stats w) ->
    R w (enqueued (schema o) tableName v w).
Hypothesis R_probe :
  forall video w,
    apiCallsUsed (stats w) < MAX_API_CALLS ->
    R w (snd (isUrlValid (schema o) (Some (video_url_of video)) (checked w))).

Lemma comes_to_from w w1 res plain :
  R w w1 -> comes_to o R w1 res plain -> comes_to o R w res plain.
Proof.
  intros H. destruct res as [[u | message] w']; cbn; [auto |].
  intros (w0 & v & H0 & Hoff & Hw'). exists w0, v.
  split; [eapply R_trans; eassumption | auto].
Qed.

Lemma comes_to_on w message w' plain plain' :
  comes_to o R w (Thrown message, w') plain -> carries_on plain plain' ->
  comes_to o R w (Thrown message, w') plain'.
Proof.
  intros (w0 & v & H0 & Hoff & Hw' & Hc) H. exists w0, v.
  repeat (split; [assumption |]). eapply carries_on_trans; eassumption.
Qed.

Lemma Throwing_processQueueItems_cons item rest w :
  Throwing.processQueueItems o (item :: rest) w =
  if MAX_API_CALLS <=? apiCallsUsed (stats w) then (Returned tt, w)
  else match Throwing.processQueueItem o item w with
       | (Returned _, w1) => Throwing.processQueueItems o rest w1
       | (Thrown message, w1) => (Thrown message, w1)
       end.
Proof.
  cbn [Throwing.processQueueItems]. unfold and_then at 1. unfold lift at 1.
  unfold get_stats. cbn beta iota.
  destruct (MAX_API_CALLS <=? apiCallsUsed (stats w)); reflexivity.
Qed.

Lemma processQueueItems_comes_to items :
  forall w, comes_to o R w (Throwing.processQueueItems o items w)
              (snd (processQueueItems (schema o) items w)).
Proof.
  induction items as [|item rest IH]; intros w; [reflexivity |].
  rewrite Throwing_processQueueItems_cons, processQueueItems_cons.
  destruct (MAX_API_CALLS <=? apiCallsUsed (stats w)) eqn:Hb; [reflexivity |].
  apply Nat.leb_gt in Hb.
  rewrite Throwing_processQueueItem_cases.
  destruct (off_schema o (length (trace w)) (facebook_video_id item))
    as [message |] eqn:Hoff.
  - exists w, (facebook_video_id item).
    repeat (split; [auto |]).
    eapply carries_on_trans; [apply processQueueItem_after_lookup |].
    apply processQueueItems_carries_on.
  - eapply comes_to_from; [apply (R_item item w Hb) | apply IH].
Qed.

Lemma processQueue_comes_to w :
  comes_to o R w (Throwing.processQueue o w) (snd (processQueue (schema o) w)).
Proof.
  rewrite processQueue_eq.
  assert (E : Throwing.processQueue o w =
              Throwing.processQueueItems o
                (drained (schema o) (length (trace w)) (db w))
                (snd (emit (EvQueueSelect MAX_API_CALLS) w))).
  { unfold Throwing.processQueue, drained, and_then, lift, tick, get_db, emit.
    cbn [snd db].
    destruct (if queue_select_ok (schema o) (length (trace w))
              then selectPendingQueue MAX_API_CALLS (url_update_queue (db w))
              else []); reflexivity. }
  rewrite E.
  eapply comes_to_from; [apply R_queue_select |].
  apply processQueueItems_comes_to.
Qed.

Lemma Throwing_sweepVideos_cons tableName video rest w :
  Throwing.sweepVideos o tableName (video :: rest) w =
  if MAX_API_CALLS <=? apiCallsUsed (stats w)
  then (Returned tt,
        snd (queueRemaining (schema o) tableName (video :: rest) w))
  else match Throwing.sweepVideo o tableName video w with
       | (Returned _, w1) => Throwing.sweepVideos o tableName rest w1
       | (Thrown message, w1) => (Thrown message, w1)
       end.
Proof.
  cbn [Throwing.sweepVideos]. unfold and_then at 1. unfold lift at 1.
  unfold get_stats. cbn beta iota.
  destruct (MAX_API_CALLS <=? apiCallsUsed (stats w)); [| reflexivity].
  unfold lift.
  destruct (queueRemaining (schema o) tableName (video :: rest) w) as [[] w1].
  reflexivity.
Qed.

Lemma sweepVideos_comes_to tableName videos :
  forall w, comes_to o R w (Throwing.sweepVideos o tableName videos w)
              (snd (sweepVideos (schema o) tableName videos w)).
Proof.
  induction videos as [|video rest IH]; intros w; [reflexivity |].
  rewrite Throwing_sweepVideos_cons, sweepVideos_cons.
  destruct (MAX_API_CALLS <=? apiCallsUsed (stats w)) eqn:Hb; [reflexivity |].
  apply Nat.leb_gt in Hb.
  pose proof (Throwing_sweepVideo_cases o tableName video w) as Hc.
  cbv zeta in Hc. rewrite Hc.
  destruct (fst (isUrlValid (schema o) (Some (video_url_of video)) (checked w)))
    eqn:Hvalid.
  - eapply comes_to_from; [apply (R_video tableName video w Hb) | apply IH].
  - destruct (off_schema o
                (length (trace (snd (isUrlValid (schema o)
                                       (Some (video_url_of video)) (checked w)))))
                (video_id_of video)) as [message |] eqn:Hoff.
    + exists (snd (isUrlValid (schema o) (Some (video_url_of video)) (checked w))),
             (video_id_of video).
      split; [apply R_probe; exact Hb |].
      repeat (split; [auto |]).
      eapply carries_on_trans;
        [apply (sweepVideo_after_lookup (schema o) tableName video w Hvalid) |].
      apply sweepVideos_carries_on.
    + eapply comes_to_from; [apply (R_video tableName video w Hb) | apply IH].
Qed.

Lemma sweepTable_comes_to tableName w :
  comes_to o R w (Throwing.sweepTable o tableName w)
    (snd (sweepTable (schema o) tableName w)).
Proof.
  rewrite sweepTable_eq.
  assert (E : Throwing.sweepTable o tableName w =
              Throwing.sweepVideos o tableName
                (if table_select_ok (schema o) (length (trace w)) tableName
                 then select_videos tableName (db w) else [])
                (snd (emit (EvTableSelect tableName) w))).
  { unfold Throwing.sweepTable, and_then, lift, tick, get_db, emit.
    cbn [snd db].
    destruct (if table_select_ok (schema o) (length (trace w)) tableName
              then select_videos tableName (db w) else []); reflexivity. }
  rewrite E.
  eapply comes_to_from; [apply R_table_select |].
  apply sweepVideos_comes_to.
Qed.

Lemma processFreshVideos_comes_to w :
  comes_to o R w (Throwing.processFreshVideos o w)
    (snd (processFreshVideos (schema o) w)).
Proof.
  rewrite processFreshVideos_eq.
  unfold Throwing.processFreshVideos, tables. cbn [Throwing.forTables].
  unfold and_then at 1.
  pose proof (sweepTable_comes_to "episodes" w) as H1.
  destruct (Throwing.sweepTable o "episodes" w) as [[u1 | m1] w1];
    [| eapply comes_to_on; [exact H1 | apply sweepTable_carries_on]].
  unfold comes_to in H1. subst w1.
  unfold and_then at 1.
  pose proof (sweepTable_comes_to "movies"
                (snd (sweepTable (schema o) "episodes" w))) as H2.
  destruct (Throwing.sweepTable o "movies"
              (snd (sweepTable (schema o) "episodes" w))) as [[u2 | m2] w2].
  - unfold comes_to in H2. subst w2. reflexivity.
  - eapply comes_to_from; [| exact H2].
    apply (sweepTable_turns (schema o) R R_refl R_trans R_table_select
             R_video R_enqueue).
Qed.

(** The [try] block, up to its report. *)
Lemma attempt_comes_to w :
  comes_to o R w (Throwing.attempt o w) (plain_end (schema o) w).
Proof.
  unfold Throwing.attempt, plain_end. cbv zeta.
  unfold and_then at 1.
  pose proof (processQueue_comes_to w) as H1.
  destruct (Throwing.processQueue o w) as [[u1 | m1] w2];
    [| eapply comes_to_on; [exact H1 | apply plain_end_carries_on]].
  unfold comes_to in H1. subst w2.
  set (w2 := snd (processQueue (schema o) w)).
  assert (H12 : R w w2).
  { apply (processQueue_turns (schema o) R R_refl R_trans R_queue_select R_item). }
  unfold and_then at 1. unfold lift at 1. unfold get_stats. cbn beta iota.
  unfold and_then at 1.
  destruct (apiCallsUsed (stats w2) <? MAX_API_CALLS) eqn:Hgate.
  - pose proof (processFreshVideos_comes_to w2) as H2.
    destruct (Throwing.processFreshVideos o w2) as [[u2 | m2] w3].
    + unfold comes_to in H2. subst w3.
      unfold and_then, lift, tick, get_stats. cbn beta iota.
      destruct (sendTelegram (schema o) _ _) as [[] w4] eqn:E.
      unfold comes_to. try rewrite E. reflexivity.
    + eapply comes_to_from; [exact H12 |].
      eapply comes_to_on; [exact H2 |].
      apply sendTelegram_carries_on.
  - unfold returned.
    unfold and_then, lift, tick, get_stats. cbn beta iota.
    destruct (sendTelegram (schema o) _ _) as [[] w4] eqn:E.
    unfold comes_to. try rewrite E. reflexivity.
Qed.

(** The run: it ends as the run over the answers on the schema does, or
    with the error notice sent right after the lookup that threw. *)
Lemma processUrlUpdates_comes_to w :
  match thrown o w with
  | None =>
      snd (Throwing.processUrlUpdates o w) =
      snd (processUrlUpdates (schema o) w)
  | Some message =>
      exists w0 videoId,
        R (started (schema o) w) w0 /\
        off_schema o (length (trace w0)) videoId = Some message /\
        snd (Throwing.processUrlUpdates o w) =
        snd (sendTelegram (schema o)
               (Throwing.error_notice message
                  (iso_date o (clock (schema o) (S (length (trace w0))))))
               (counted_lookup videoId w0)) /\
        carries_on (counted_lookup videoId w0)
          (snd (processUrlUpdates (schema o) w))
  end.
Proof.
  rewrite Throwing_processUrlUpdates_eq, processUrlUpdates_plain_end.
  unfold thrown.
  pose proof (attempt_comes_to (started (schema o) w)) as H.
  destruct (Throwing.attempt o (started (schema o) w)) as [[u | message] w'];
    cbn [fst]; unfold comes_to in H.
  - exact H.
  - destruct H as (w0 & videoId & HR & Hoff & Hw' & Hc). exists w0, videoId.
    split; [exact HR |]. split; [exact Hoff |].
    rewrite Hw', counted_lookup_length. split; [reflexivity |].
    rewrite <- Hw'. exact Hc.
Qed.

End ThrowingTurns.

(** ** The run with its [catch] *)

Lemma processUrlUpdates_thrown (o : Outside) (w : World) :
  match thrown o w with
  | None =>
      snd (Throwing.processUrlUpdates o w) =
      snd (processUrlUpdates (schema o) w)
  | Some message =>
      exists t videoId, off_schema o t videoId = Some message
  end.
Proof.
  pose proof (processUrlUpdates_comes_to o (fun _ _ => True)) as H.
  specialize (H (fun _ => I) (fun _ _ _ _ _ => I) (fun _ => I) (fun _ _ => I)
                (fun _ _ _ => I) (fun _ _ _ _ => I) (fun _ _ _ _ => I)
                (fun _ _ _ => I) w).
  destruct (thrown o w) as [message |]; [| exact H].
  destruct H as (w0 & videoId & _ & Hoff & _). eauto.
Qed.

Lemma processUrlUpdates_thrown_quietly (o : Outside) (w : World) :
  match thrown o w with
  | None =>
      snd (Throwing.processUrlUpdates o w) =
      snd (processUrlUpdates (schema o) w)
  | Some message =>
      exists w0 videoId,
        sends_nothing (started (schema o) w) w0 /\
        off_schema o (length (trace w0)) videoId = Some message /\
        snd (Throwing.processUrlUpdates o w) =
        snd (sendTelegram (schema o)
               (Throwing.error_notice message
                  (iso_date o (clock (schema o) (S (length (trace w0))))))
               (counted_lookup videoId w0)) /\
        carries_on (counted_lookup videoId w0)
          (snd (processUrlUpdates (schema o) w))
  end.
Proof.
  apply (processUrlUpdates_comes_to o sends_nothing sends_nothing_refl
           sends_nothing_trans).
  - intros w0. eapply sends_nothing_step; reflexivity.
  - intros tableName w0. eapply sends_nothing_step; reflexivity.
  - intros item w0. apply processQueueItem_sends_nothing.
  - intros tableName video w0. apply sweepVideo_sends_nothing.
  - intros tableName v w0 _. apply sends_nothing_enqueued.
  - intros video w0 _.
    eapply sends_nothing_trans; [| apply sends_nothing_probe].
    apply sends_nothing_quiet. exact I.
Qed.

Lemma started_world (env : Env) (w : World) :
  started env w =
  {| stats := fresh_stats (Some (clock env (length (trace w))));
     db := db w;
     trace := if telegram_configured env
              then trace w ++ [EvTelegram start_message] else trace w |}.
Proof. unfold started. rewrite sendTelegram_world. reflexivity. Qed.

(** X21. A run notifies twice or not at all, whatever happens in it. With
    the notifications configured, its first request is the start message
    and its last is the closing notification; nothing in between is a
    notification. When nothing is thrown the closing notification is the
    report, made from the statistics the run ends with. When a lookup
    throws, it is the error notice with the message thrown, and the
    request right before it is that lookup: nothing is done between the
    throw and the notice. Without the notifications configured the run
    sends nothing. *)
Theorem processUrlUpdates_notifications (o : Outside) (w : World) :
  let env := schema o in
  let w' := snd (Throwing.processUrlUpdates o w) in
  exists (l : list Event) (closing : string),
    List.filter is_telegram l = [] /\
    issued w w' =
      (if telegram_configured env
       then [EvTelegram start_message] ++ l ++ [EvTelegram closing]
       else l) /\
    match thrown o w with
    | None =>
        exists now : Z,
          closing =
          Report.generateReport (locale_date env now) now (stats w')
    | Some message =>
        exists (t : nat) (videoId : string),
          off_schema o t videoId = Some message /\
          closing =
          Throwing.error_notice message (iso_date o (clock env (S t))) /\
          last l = Some (EvGraphGet videoId)
    end.
Proof.
  intros env w'. subst env w'.
  pose proof (processUrlUpdates_thrown_quietly o w) as H.
  destruct (thrown o w) as [message |].
  - destruct H as (w0 & videoId & (l0 & Ht0 & Hl0) & Hoff & Hw' & _).
    exists (l0 ++ [EvGraphGet videoId]),
      (Throwing.error_notice message
         (iso_date o (clock (schema o) (S (length (trace w0)))))).
    split; [rewrite List.filter_app, Hl0; reflexivity |].
    split.
    + rewrite Hw'. unfold issued. rewrite sendTelegram_world.
      unfold counted_lookup. cbn [trace]. rewrite Ht0, started_world.
      cbn [trace].
      destruct (telegram_configured (schema o)).
      * rewrite <- !app_assoc. rewrite drop_app_length. reflexivity.
      * rewrite <- !app_assoc. rewrite drop_app_length. reflexivity.
    + exists (length (trace w0)), videoId.
      split; [exact Hoff |]. split; [reflexivity |]. apply last_snoc.
  - rewrite H.
    destruct (notifications_on_schema (schema o) w) as (l & now & Hl & Hi).
    cbv zeta in Hi.
    exists l,
      (Report.generateReport (locale_date (schema o) now) now
         (stats (snd (processUrlUpdates (schema o) w)))).
    split; [exact Hl |]. split; [exact Hi |]. exists now. reflexivity.
Qed.

Lemma tallies_refl w : tallies w w.
Proof. unfold tallies. lia. Qed.

Lemma tallies_trans a b c : tallies a b -> tallies b c -> tallies a c.
Proof. unfold tallies. lia. Qed.

Lemma accounts_tallies w w' : accounts w w' -> tallies w w'.
Proof. intros (l & _ & A & B & _ & D). unfold tallies. lia. Qed.

Lemma processUrlUpdates_thrown_tallies (o : Outside) (w : World) :
  match thrown o w with
  | None =>
      snd (Throwing.processUrlUpdates o w) =
      snd (processUrlUpdates (schema o) w)
  | Some message =>
      exists w0 videoId,
        tallies (started (schema o) w) w0 /\
        off_schema o (length (trace w0)) videoId = Some message /\
        snd (Throwing.processUrlUpdates o w) =
        snd (sendTelegram (schema o)
               (Throwing.error_notice message
                  (iso_date o (clock (schema o) (S (length (trace w0))))))
               (counted_lookup videoId w0)) /\
        carries_on (counted_lookup videoId w0)
          (snd (processUrlUpdates (schema o) w))
  end.
Proof.
  apply (processUrlUpdates_comes_to o tallies tallies_refl tallies_trans).
  - intros w0. apply accounts_tallies. eapply accounts_quiet; reflexivity.
  - intros tableName w0. apply accounts_tallies.
    eapply accounts_quiet; reflexivity.
  - intros item w0 _. apply accounts_tallies, processQueueItem_accounts.
  - intros tableName video w0 _. apply accounts_tallies, sweepVideo_accounts.
  - intros tableName v w0 _. rewrite enqueued_world. unfold tallies, buckets.
    cbn [stats]. destruct (queue_insert_ok (schema o) (length (trace w0)));
      cbn; lia.
  - intros video w0 _.
    destruct (isUrlValid_world (schema o) (Some (video_url_of video)) (checked w0))
      as (Hs & _ & _).
    unfold tallies, buckets. rewrite Hs. unfold checked. cbn. lia.
Qed.

(** X24. The numbers of a run add up, whatever happened in it. Every
    update was an episode's or a movie's:
    [updated = episodesUpdated + moviesUpdated]; the failure buckets hold
    no more entries than [failed] counts. When nothing is thrown, every
    lookup ended as an update or as a failure,
    [updated + failed = apiCallsUsed], and every record checked was valid
    or looked up, the lookups beyond those being the tasks of the drain,
    one queue update each. When a lookup throws, that lookup is counted
    and ends as neither: [updated + failed + 1 = apiCallsUsed]. *)
Theorem processUrlUpdates_accounts (o : Outside) (w : World) :
  let w' := snd (Throwing.processUrlUpdates o w) in
  let s := stats w' in
  updated s = episodesUpdated s + moviesUpdated s /\
  buckets s <= failed s /\
  match thrown o w with
  | None =>
      updated s + failed s = apiCallsUsed s /\
      totalChecked s + length (omap marked_id (issued w w')) =
        alreadyValid s + apiCallsUsed s
  | Some _ => updated s + failed s + 1 = apiCallsUsed s
  end.
Proof.
  intros w' s. subst s w'.
  pose proof (processUrlUpdates_thrown_tallies o w) as H.
  destruct (thrown o w) as [message |].
  - destruct H as (w0 & videoId & (A & B & D) & _ & Hw' & _).
    rewrite Hw', sendTelegram_world. cbn [stats].
    rewrite started_world in A, B, D. unfold buckets in *.
    cbn in A, B, D |- *. lia.
  - rewrite H.
    destruct (accounts_on_schema (schema o) w) as (A & B & C & D).
    cbv zeta in *. auto.
Qed.

Lemma started_trace (env : Env) (w : World) :
  trace (started env w) =
  trace w ++ (if telegram_configured env then [EvTelegram start_message]
              else []).
Proof.
  rewrite started_world. cbn [trace].
  destruct (telegram_configured env); [| rewrite app_nil_r]; reflexivity.
Qed.

(** A run in which a lookup throws: up to and including that lookup its
    requests are those of the run over the schema, and the error notice is
    all it adds. *)
Lemma processUrlUpdates_thrown_requests (o : Outside) (w : World)
    (message : string) :
  thrown o w = Some message ->
  exists (before rest : list Event) (videoId time : string),
    issued w (snd (processUrlUpdates (schema o) w)) =
      before ++ [EvGraphGet videoId] ++ rest /\
    issued w (snd (Throwing.processUrlUpdates o w)) =
      before ++ [EvGraphGet videoId] ++
      (if telegram_configured (schema o)
       then [EvTelegram (Throwing.error_notice message time)] else []).
Proof.
  intros Hthrown.
  pose proof (processUrlUpdates_thrown_quietly o w) as H.
  rewrite Hthrown in H.
  destruct H as (w0 & videoId & (l0 & Ht0 & _) & _ & Hw' & (l2 & Hc)).
  exists ((if telegram_configured (schema o)
           then [EvTelegram start_message] else []) ++ l0),
    l2, videoId,
    (iso_date o (clock (schema o) (S (length (trace w0))))).
  unfold issued. rewrite Hc, Hw', sendTelegram_world.
  unfold counted_lookup. cbn [trace]. rewrite Ht0, started_trace.
  split.
  - rewrite <- !app_assoc. rewrite drop_app_length. reflexivity.
  - destruct (telegram_configured (schema o));
      rewrite <- ?app_assoc; rewrite ?app_nil_r;
      rewrite <- ?app_assoc; rewrite drop_app_length; reflexivity.
Qed.

(** X6. In a run in which no lookup throws, as in every run while the
    provider's answers keep to the schema, the drain processes every task
    it read, in the order read: the queue updates of the run are addressed
    to exactly those tasks. If it read as many tasks as the budget has
    calls, the sweep is skipped: no table is listed, no URL probed, nothing
    enqueued, and the run ends with [totalChecked] and [queued] at zero and
    the budget used up. If it read fewer, the sweep lists the episodes and
    then the movies. A run in which a lookup throws makes the requests of
    the run over the schema up to and including that lookup, and then only
    sends the error notice: its queue updates are addressed to the first
    tasks read, in the order read, and no table is listed if the drain
    read as many tasks as the budget has calls. *)
Theorem processUrlUpdates_drain_gate (o : Outside) (w : World) :
  let env := schema o in
  let tasks := drained env (drain_tick env w) (db w) in
  let w' := snd (Throwing.processUrlUpdates o w) in
  ((forall t videoId, off_schema o t videoId = None) -> thrown o w = None) /\
  (thrown o w = None ->
   omap marked_id (issued w w') = map q_id tasks /\
   (length tasks = MAX_API_CALLS ->
    List.filter is_table_select (issued w w') = [] /\
    List.filter is_head (issued w w') = [] /\
    List.filter is_queue_insert (issued w w') = [] /\
    totalChecked (stats w') = 0 /\ queued (stats w') = 0 /\
    apiCallsUsed (stats w') = MAX_API_CALLS) /\
   (length tasks < MAX_API_CALLS ->
    List.filter is_table_select (issued w w') =
      [EvTableSelect "episodes"; EvTableSelect "movies"])) /\
  (forall message, thrown o w = Some message ->
   exists (before rest : list Event) (videoId time : string),
     issued w (snd (processUrlUpdates env w)) =
       before ++ [EvGraphGet videoId] ++ rest /\
     issued w w' =
       before ++ [EvGraphGet videoId] ++
       (if telegram_configured env
        then [EvTelegram (Throwing.error_notice message time)] else []) /\
     omap marked_id (issued w w') =
       take (length (omap marked_id before)) (map q_id tasks) /\
     (length tasks = MAX_API_CALLS ->
      List.filter is_table_select (issued w w') = [])).
Proof.
  intros env tasks w'. subst env tasks w'.
  pose proof (processUrlUpdates_thrown o w) as Hcases.
  pose proof (drain_gate_on_schema (schema o) w) as Hplain. cbv zeta in Hplain.
  split; [| split].
  - intros Hon. destruct (thrown o w) as [message |]; [| reflexivity].
    destruct Hcases as (t & videoId & Hoff). rewrite Hon in Hoff.
    discriminate Hoff.
  - intros Hnone. rewrite Hnone in Hcases. rewrite Hcases. exact Hplain.
  - intros message Hthrown.
    destruct (processUrlUpdates_thrown_requests o w message Hthrown)
      as (before & rest & videoId & time & Hp & Ht).
    exists before, rest, videoId, time.
    split; [exact Hp |]. split; [exact Ht |].
    destruct Hplain as (Hmarks & Hfull & _). rewrite Hp in Hmarks, Hfull.
    split.
    + rewrite <- Hmarks, Ht. rewrite !omap_app.
      rewrite take_app_length.
      destruct (telegram_configured (schema o)); cbn; rewrite app_nil_r;
        reflexivity.
    + intros Hlen. destruct (Hfull Hlen) as (Hsel & _).
      rewrite Ht. rewrite !List.filter_app in Hsel |- *.
      apply app_eq_nil in Hsel. destruct Hsel as (Hb & Hr).
      apply app_eq_nil in Hr. destruct Hr as (Hg & _).
      rewrite Hb, Hg. destruct (telegram_configured (schema o)); reflexivity.
Qed.

(** The run of [Sample_outside] on one pending task, for video ["v1"]: the
    drain reads the task, its lookup throws, and the error notice ends the
    run. The lookup is counted, the task stays as it was, and no table is
    listed. *)
Example Throwing_processUrlUpdates_sample :
  let w := Sample.world 0 Sample.db_one_task in
  let w' := snd (Throwing.processUrlUpdates Sample_outside w) in
  issued w w' =
    [EvTelegram start_message; EvQueueSelect MAX_API_CALLS; EvGraphGet "v1";
     EvTelegram
       (Throwing.error_notice "message.toLowerCase is not a function"
          "2025-01-01T00:00:00.000Z")] /\
  apiCallsUsed (stats w') = 1 /\
  updated (stats w') = 0 /\ failed (stats w') = 0 /\
  db w' = db w.
Proof. vm_compute. repeat split; reflexivity. Qed.

(** X6 on a backlog of 190 pending tasks answered on the schema, where the
    sweep is skipped, and on one pending task whose lookup throws. *)
Lemma processUrlUpdates_drain_gate_witness :
  let full := Sample.world 0 Cases.db_backlog in
  let one := Sample.world 0 Sample.db_one_task in
  (thrown Sample_on_schema full = None /\
   length (drained Sample.env (drain_tick Sample.env full) (db full)) =
     MAX_API_CALLS /\
   List.filter is_table_select
     (issued full (snd (Throwing.processUrlUpdates Sample_on_schema full))) =
     [] /\
   totalChecked (stats (snd (Throwing.processUrlUpdates Sample_on_schema full)))
     = 0) /\
  (thrown Sample_outside one = Some "message.toLowerCase is not a function" /\
   exists k,
     omap marked_id
       (issued one (snd (Throwing.processUrlUpdates Sample_outside one))) =
     take k
       (map q_id (drained Sample.env (drain_tick Sample.env one) (db one)))).
Proof.
  cbv zeta. split.
  - destruct (processUrlUpdates_drain_gate Sample_on_schema
                (Sample.world 0 Cases.db_backlog)) as (Hon & Hnone & _).
    assert (Hn : thrown Sample_on_schema (Sample.world 0 Cases.db_backlog) = None)
      by (apply Hon; intros t videoId; reflexivity).
    assert (H : length (drained Sample.env
                          (drain_tick Sample.env (Sample.world 0 Cases.db_backlog))
                          (db (Sample.world 0 Cases.db_backlog))) = MAX_API_CALLS)
      by (vm_compute; reflexivity).
    split; [exact Hn |]. split; [exact H |].
    destruct (Hnone Hn) as (_ & Hfull & _).
    destruct (Hfull H) as (Hs & _ & _ & Hc & _).
    split; [exact Hs | exact Hc].
  - assert (Ht : thrown Sample_outside (Sample.world 0 Sample.db_one_task) =
                 Some "message.toLowerCase is not a function")
      by (vm_compute; reflexivity).
    split; [exact Ht |].
    destruct (processUrlUpdates_drain_gate Sample_outside
                (Sample.world 0 Sample.db_one_task)) as (_ & _ & Hthrown).
    destruct (Hthrown _ Ht) as (before & rest & videoId & time & _ & _ & Hm & _).
    exists (length (omap marked_id before)). exact Hm.
Defined.

(** * The closing line, and the run that has nothing to do *)



